(** * Mail-event synchronization layer of inbox-zero: a shallow embedding

    The development follows the TypeScript sources of the Fastmail
    EventSource daemon (eventsource-client.ts, webhook-caller.ts,
    account-manager.ts), of the Fastmail poll engine (poll-sync.ts) and of
    the IMAP helpers (thread.ts and the keyword module).

    Conventions.
    - A JavaScript string is a [string]; identifiers and labels are taken
      to be ASCII, so that [toLowerCase], [toUpperCase], [trim] and the
      regular expression class [\s] act on single characters. On text
      with other characters the JavaScript functions do more (they
      lower-case accented capitals and count U+00A0 as white space);
      the theorems about what [normalizeSubject], [sanitizeKeyword] and
      [labelToKeyword] answer on free text, a subject or a label a user
      types, therefore carry the hypothesis [ascii_text].
    - A JavaScript [Map] used only through [get]/[set]/[has]/[delete] is a
      [gmap]; where the insertion order is observable (the map returned by
      [groupMessagesIntoThreads], the iteration of [stop]) an association
      list is used.
    - [undefined]/[null] is [None]; the truthiness test [if (x)] on an
      optional string is [truthy_opt].
    - Asynchronous code is written in state-passing style; awaited
      results of the outside world (HTTP responses, database rows) are
      inputs of the functions.

    The first part holds the definitions, in modules that follow the
    source files; the second part, Properties, holds the lemmas about
    each module in a module of the same name followed by [Facts]. *)

From Stdlib Require Import ZArith NArith Ascii String List Bool Lia Sorted.
From stdpp Require Import gmap strings list fin_maps.

Local Open Scope string_scope.

(** ** JavaScript helpers *)

Module Js.

(** [if (s)] on a string: only the empty string is falsy. *)
Definition truthy (s : string) : bool :=
  match s with
  | EmptyString => false
  | String _ _ => true
  end.

(** [if (o)] on [string | undefined | null]. *)
Definition truthy_opt (o : option string) : bool :=
  match o with
  | Some s => truthy s
  | None => false
  end.

(** [o || d] where [o] is [string | undefined]. *)
Definition or_else (o : option string) (d : string) : string :=
  match o with
  | Some s => if truthy s then s else d
  | None => d
  end.

Definition is_upper (c : ascii) : bool :=
  let n := nat_of_ascii c in (65 <=? n)%nat && (n <=? 90)%nat.

Definition is_lower (c : ascii) : bool :=
  let n := nat_of_ascii c in (97 <=? n)%nat && (n <=? 122)%nat.

Definition is_digit (c : ascii) : bool :=
  let n := nat_of_ascii c in (48 <=? n)%nat && (n <=? 57)%nat.

(** The class [\s] restricted to ASCII: TAB, LF, VT, FF, CR and space. *)
Definition is_space (c : ascii) : bool :=
  let n := nat_of_ascii c in ((9 <=? n)%nat && (n <=? 13)%nat) || (n =? 32)%nat.

Definition lower_char (c : ascii) : ascii :=
  if is_upper c then ascii_of_nat (nat_of_ascii c + 32) else c.

Definition upper_char (c : ascii) : ascii :=
  if is_lower c then ascii_of_nat (nat_of_ascii c - 32) else c.

Fixpoint map_chars (f : ascii -> ascii) (s : string) : string :=
  match s with
  | EmptyString => EmptyString
  | String c r => String (f c) (map_chars f r)
  end.

Fixpoint filter_chars (p : ascii -> bool) (s : string) : string :=
  match s with
  | EmptyString => EmptyString
  | String c r => if p c then String c (filter_chars p r) else filter_chars p r
  end.

Definition toLowerCase : string -> string := map_chars lower_char.
Definition toUpperCase : string -> string := map_chars upper_char.

Fixpoint trimStart (s : string) : string :=
  match s with
  | EmptyString => EmptyString
  | String c r => if is_space c then trimStart r else s
  end.

(** Drops the trailing white space: a character is kept when it is not
    a space or when something is kept after it. *)
Fixpoint trimEnd (s : string) : string :=
  match s with
  | EmptyString => EmptyString
  | String c r =>
      match trimEnd r with
      | EmptyString => if is_space c then EmptyString else String c EmptyString
      | r' => String c r'
      end
  end.

Definition trim (s : string) : string := trimEnd (trimStart s).

(** [s.substring(0, n)] *)
Fixpoint take (n : nat) (s : string) : string :=
  match n, s with
  | S k, String c r => String c (take k r)
  | _, _ => EmptyString
  end.

(** [s.substring(n)] *)
Fixpoint drop (n : nat) (s : string) : string :=
  match n, s with
  | S k, String _ r => drop k r
  | _, _ => s
  end.

(** [s.startsWith(p)] *)
Definition startsWith (p s : string) : bool := String.prefix p s.

Fixpoint all_chars (p : ascii -> bool) (s : string) : bool :=
  match s with
  | EmptyString => true
  | String c r => p c && all_chars p r
  end.

End Js.

(** ** Text on which the model and JavaScript agree *)

Module JsAscii.

(** The characters U+0000 to U+007F. *)
Definition is_ascii (c : ascii) : bool := (nat_of_ascii c <? 128)%nat.

Definition ascii_text (s : string) : Prop := Js.all_chars is_ascii s = true.

End JsAscii.

(** ** SHA-256 (FIPS 180-4), as [crypto.createHash("sha256")] computes it *)

Module Sha256.

Local Open Scope N_scope.

Definition mask32 : N := 4294967295.
Definition w32 (x : N) : N := N.land x mask32.
Definition add32 (x y : N) : N := w32 (x + y).
Definition rotr (n x : N) : N := N.lor (N.shiftr x n) (w32 (N.shiftl x (32 - n))).
Definition not32 (x : N) : N := N.lxor x mask32.

Definition Ch (x y z : N) : N := N.lxor (N.land x y) (N.land (not32 x) z).
Definition Maj (x y z : N) : N :=
  N.lxor (N.lxor (N.land x y) (N.land x z)) (N.land y z).
Definition bsig0 (x : N) : N := N.lxor (N.lxor (rotr 2 x) (rotr 13 x)) (rotr 22 x).
Definition bsig1 (x : N) : N := N.lxor (N.lxor (rotr 6 x) (rotr 11 x)) (rotr 25 x).
Definition ssig0 (x : N) : N := N.lxor (N.lxor (rotr 7 x) (rotr 18 x)) (N.shiftr x 3).
Definition ssig1 (x : N) : N := N.lxor (N.lxor (rotr 17 x) (rotr 19 x)) (N.shiftr x 10).

Definition K : list N :=
  [1116352408; 1899447441; 3049323471; 3921009573; 961987163; 1508970993;
   2453635748; 2870763221; 3624381080; 310598401; 607225278; 1426881987;
   1925078388; 2162078206; 2614888103; 3248222580; 3835390401; 4022224774;
   264347078; 604807628; 770255983; 1249150122; 1555081692; 1996064986;
   2554220882; 2821834349; 2952996808; 3210313671; 3336571891; 3584528711;
   113926993; 338241895; 666307205; 773529912; 1294757372; 1396182291;
   1695183700; 1986661051; 2177026350; 2456956037; 2730485921; 2820302411;
   3259730800; 3345764771; 3516065817; 3600352804; 4094571909; 275423344;
   430227734; 506948616; 659060556; 883997877; 958139571; 1322822218;
   1537002063; 1747873779; 1955562222; 2024104815; 2227730452; 2361852424;
   2428436474; 2756734187; 3204031479; 3329325298].

Definition H0 : list N :=
  [1779033703; 3144134277; 1013904242; 2773480762;
   1359893119; 2600822924; 528734635; 1541459225].

Definition bytes_of_string (s : string) : list N :=
  List.map N_of_ascii (list_ascii_of_string s).

(** Big-endian bytes of [x], [n] of them. *)
Fixpoint be_bytes (n : nat) (x : N) : list N :=
  match n with
  | O => []
  | S k => N.land (N.shiftr x (8 * N.of_nat k)) 255 :: be_bytes k x
  end.

Definition pad (msg : list N) : list N :=
  let len := N.of_nat (length msg) in
  let zeros := N.to_nat ((64 - ((len + 9) mod 64)) mod 64) in
  (msg ++ 128 :: List.repeat 0 zeros ++ be_bytes 8 (8 * len))%list.

Fixpoint words_of_bytes (fuel : nat) (bs : list N) : list N :=
  match fuel, bs with
  | S f, b0 :: b1 :: b2 :: b3 :: r =>
      (N.shiftl b0 24 + N.shiftl b1 16 + N.shiftl b2 8 + b3) :: words_of_bytes f r
  | _, _ => []
  end.

(** The message schedule, latest word first: [w] holds W(t-1), W(t-2), ... *)
Fixpoint extend (n : nat) (w : list N) : list N :=
  match n with
  | O => w
  | S k =>
      let wt :=
        add32 (add32 (ssig1 (nth 1 w 0)) (nth 6 w 0))
              (add32 (ssig0 (nth 14 w 0)) (nth 15 w 0)) in
      extend k (wt :: w)
  end.

Definition schedule (block : list N) : list N := rev (extend 48 (rev block)).

Record regs := Regs { ra : N; rb : N; rc : N; rd : N; re : N; rf : N; rg : N; rh : N }.

Definition round (r : regs) (kw : N * N) : regs :=
  let t1 := add32 (add32 (add32 (rh r) (bsig1 (re r))) (Ch (re r) (rf r) (rg r)))
                  (add32 (fst kw) (snd kw)) in
  let t2 := add32 (bsig0 (ra r)) (Maj (ra r) (rb r) (rc r)) in
  Regs (add32 t1 t2) (ra r) (rb r) (rc r) (add32 (rd r) t1) (re r) (rf r) (rg r).

Definition regs_of_list (h : list N) : regs :=
  Regs (nth 0 h 0) (nth 1 h 0) (nth 2 h 0) (nth 3 h 0)
       (nth 4 h 0) (nth 5 h 0) (nth 6 h 0) (nth 7 h 0).

Definition list_of_regs (r : regs) : list N :=
  [ra r; rb r; rc r; rd r; re r; rf r; rg r; rh r].

Definition compress (h : list N) (block : list N) : list N :=
  let r := fold_left round (combine K (schedule block)) (regs_of_list h) in
  List.map (fun p => add32 (fst p) (snd p)) (combine h (list_of_regs r)).

Fixpoint blocks (fuel : nat) (ws : list N) : list (list N) :=
  match fuel, ws with
  | _, [] => []
  | O, _ => []
  | S f, _ => firstn 16 ws :: blocks f (skipn 16 ws)
  end.

Definition digest (msg : list N) : list N :=
  let bs := pad msg in
  let ws := words_of_bytes (length bs) bs in
  fold_left compress (blocks (length ws) ws) H0.

Definition hex_digit (n : N) : ascii :=
  if n <? 10 then ascii_of_N (48 + n) else ascii_of_N (87 + n).

Fixpoint hex_of_word (n : nat) (x : N) : string :=
  match n with
  | O => EmptyString
  | S k => String (hex_digit (N.land (N.shiftr x (4 * N.of_nat k)) 15)) (hex_of_word k x)
  end.

(** [createHash("sha256").update(s).digest("hex")] *)
Definition sha256_hex (s : string) : string :=
  String.concat "" (List.map (hex_of_word 8) (digest (bytes_of_string s))).

End Sha256.

(** ** thread.ts: thread identifiers and grouping *)

Module Thread.

(** The fields of [ImapMessage] that thread.ts reads. [date] is
    [new Date(m.date).getTime()], in milliseconds. *)
Record ImapMessage := {
  uid : Z;
  messageId : string;
  threadId : string;
  subject : string;
  date : Z;
  inReplyTo : option string;
  references : option (list string);
}.

#[export] Instance ImapMessage_eq_dec : EqDecision ImapMessage.
Proof. solve_decision. Defined.

Definition is_angle (c : ascii) : bool :=
  Ascii.eqb c "<"%char || Ascii.eqb c ">"%char.

(** [messageId.replace(/[<>]/g, "").toLowerCase().trim()] *)
Definition normalize (messageId : string) : string :=
  Js.trim (Js.toLowerCase (Js.filter_chars (fun c => negb (is_angle c)) messageId)).

Definition hashToThreadId (messageId : string) : string :=
  let normalized := normalize messageId in
  let hash := Sha256.sha256_hex normalized in
  "thread_" ++ Js.take 24 hash.

(** [references.length > 0] holds exactly when the array has a first
    element, which [references[0]] then reads. *)
Definition generateThreadId (messageId : string) (inReplyTo : option string)
    (references : list string) (subject : string) : string :=
  let fromReferences :=
    match references with
    | r :: _ => hashToThreadId r
    | [] => hashToThreadId messageId
    end in
  match inReplyTo with
  | Some irt => if Js.truthy irt then hashToThreadId irt else fromReferences
  | None => fromReferences
  end.

(** First pass: [messageIdToThread.set(message.messageId, message.threadId)]. *)
Definition firstPass (messages : list ImapMessage) : gmap string string :=
  foldl (fun m msg => <[messageId msg := threadId msg]> m) ∅ messages.

(** [messageIdToThread.get(id)] followed by the test [if (thread)]. *)
Definition knownThread (messageIdToThread : gmap string string) (id : string)
    : option string :=
  match messageIdToThread !! id with
  | Some t => if Js.truthy t then Some t else None
  | None => None
  end.

(** Body of the loop over [message.references || []]; the state is the
    merge map and [targetThreadId]. *)
Definition mergeReference (messageIdToThread : gmap string string) (own : string)
    (st : gmap string string * string) (ref : string) : gmap string string * string :=
  match knownThread messageIdToThread ref with
  | Some refThread =>
      let mergedThread := Js.or_else (st.1 !! refThread) refThread in
      if String.eqb mergedThread st.2 then st
      else (<[own := mergedThread]> st.1, mergedThread)
  | None => st
  end.

(** Body of the second pass for one message. *)
Definition mergeMessage (messageIdToThread : gmap string string)
    (threadMergeMap : gmap string string) (message : ImapMessage) : gmap string string :=
  let target0 := threadId message in
  let target1 :=
    match inReplyTo message with
    | Some irt =>
        if Js.truthy irt then
          match knownThread messageIdToThread irt with
          | Some replyToThread => Js.or_else (threadMergeMap !! replyToThread) replyToThread
          | None => target0
          end
        else target0
    | None => target0
    end in
  let st := foldl (mergeReference messageIdToThread (threadId message))
                  (threadMergeMap, target1) (default [] (references message)) in
  <[threadId message := st.2]> st.1.

Definition secondPass (messageIdToThread : gmap string string)
    (messages : list ImapMessage) : gmap string string :=
  foldl (mergeMessage messageIdToThread) ∅ messages.

(** [threads.get(key).push(message)], creating the entry at the end of
    the map when the key is new. *)
Fixpoint pushTo (key : string) (message : ImapMessage)
    (threads : list (string * list ImapMessage)) : list (string * list ImapMessage) :=
  match threads with
  | [] => [(key, [message])]
  | (k, ms) :: rest =>
      if String.eqb k key then (k, (ms ++ [message])%list) :: rest
      else (k, ms) :: pushTo key message rest
  end.

Definition finalThreadId (threadMergeMap : gmap string string) (message : ImapMessage)
    : string :=
  Js.or_else (threadMergeMap !! threadId message) (threadId message).

Definition thirdPass (threadMergeMap : gmap string string)
    (messages : list ImapMessage) : list (string * list ImapMessage) :=
  foldl (fun threads message =>
           pushTo (finalThreadId threadMergeMap message) message threads)
        [] messages.

(** [Array.prototype.sort] with the comparator [a.date - b.date]: a
    stable sort by ascending date. *)
Fixpoint insertByDate (m : ImapMessage) (l : list ImapMessage) : list ImapMessage :=
  match l with
  | [] => [m]
  | x :: r => if (date m <=? date x)%Z then m :: x :: r else x :: insertByDate m r
  end.

Definition sortByDate (l : list ImapMessage) : list ImapMessage :=
  foldr insertByDate [] l.

Definition groupMessagesIntoThreads (messages : list ImapMessage)
    : list (string * list ImapMessage) :=
  let messageIdToThread := firstPass messages in
  let threadMergeMap := secondPass messageIdToThread messages in
  let threads := thirdPass threadMergeMap messages in
  List.map (fun kv => (kv.1, sortByDate kv.2)) threads.

(** How message.ts builds an [ImapMessage] from parsed headers: the
    thread id comes from [generateThreadId]. *)
Definition parsedMessage (uid : Z) (messageId : string) (inReplyTo : option string)
    (references : list string) (subject : string) (date : Z) : ImapMessage :=
  {| uid := uid; messageId := messageId;
     threadId := generateThreadId messageId inReplyTo references subject;
     subject := subject; date := date;
     inReplyTo := inReplyTo; references := Some references |}.

(** [a] points at [b] through In-Reply-To or References. *)
Definition refersTo (a b : ImapMessage) : Prop :=
  inReplyTo a = Some (messageId b) ∨ messageId b ∈ default [] (references a).

(** Some group of the result holds all of [ms]. *)
Definition shareThread (threads : list (string * list ImapMessage))
    (ms : list ImapMessage) : Prop :=
  Exists (fun kv => Forall (fun m => m ∈ kv.2) ms) threads.

Definition transitivelyClosed (messages : list ImapMessage) : Prop :=
  ∀ a b c, a ∈ messages → b ∈ messages → c ∈ messages →
           refersTo a b → refersTo b c →
           shareThread (groupMessagesIntoThreads messages) [a; b; c].

(** A conversation of four messages: [root], a reply to it, a reply to
    that reply, and a reply to the latter. *)
Definition msgC : ImapMessage := parsedMessage 1 "<c@x>" None [] "hello" 1000.
Definition msgB : ImapMessage :=
  parsedMessage 2 "<b@x>" (Some "<c@x>") ["<c@x>"] "Re: hello" 2000.
Definition msgA : ImapMessage :=
  parsedMessage 3 "<a@x>" (Some "<b@x>") ["<c@x>"; "<b@x>"] "Re: hello" 3000.
Definition msgD : ImapMessage :=
  parsedMessage 4 "<d@x>" (Some "<a@x>") ["<c@x>"; "<b@x>"; "<a@x>"] "Re: hello" 4000.

Definition newestFirst : list ImapMessage := [msgD; msgA; msgB; msgC].
Definition oldestFirst : list ImapMessage := [msgC; msgB; msgA; msgD].

Definition canonical_char (c : ascii) : bool :=
  negb (is_angle c) && negb (Js.is_upper c).

Fixpoint lastChar (s : string) : option ascii :=
  match s with
  | EmptyString => None
  | String c r => match lastChar r with Some d => Some d | None => Some c end
  end.

Definition headChar (s : string) : option ascii :=
  match s with
  | EmptyString => None
  | String c _ => Some c
  end.

Definition not_space (o : option ascii) : Prop :=
  match o with
  | Some c => Js.is_space c = false
  | None => True
  end.

End Thread.

(** ** thread.ts: queries over the messages of a thread *)

Module ThreadQueries.

Import Thread.

(** The callback of [getLatestMessage]:
    [new Date(current.date) > new Date(latest.date) ? current : latest]. *)
Definition later (latest current : ImapMessage) : ImapMessage :=
  if (date latest <? date current)%Z then current else latest.

(** [messages.reduce(f)] without an initial value starts from the first
    element and folds the others from the left. *)
Definition getLatestMessage (messages : list ImapMessage) : option ImapMessage :=
  match messages with
  | [] => None
  | first :: rest => Some (foldl later first rest)
  end.

(** The callback of [getThreadRoot]:
    [new Date(current.date) < new Date(earliest.date) ? current : earliest]. *)
Definition earlier (earliest current : ImapMessage) : ImapMessage :=
  if (date current <? date earliest)%Z then current else earliest.

Definition getThreadRoot (messages : list ImapMessage) : option ImapMessage :=
  match messages with
  | [] => None
  | first :: rest => Some (foldl earlier first rest)
  end.

(** The match of [/^(re|fwd?|fw):/i] at the start of the subject: the
    number of characters of the tag, colon included. *)
Definition replyTag (subject : string) : option nat :=
  let s := Js.toLowerCase subject in
  if Js.startsWith "re:" s then Some 3%nat
  else if Js.startsWith "fwd:" s then Some 4%nat
  else if Js.startsWith "fw:" s then Some 3%nat
  else None.

(** [subject.replace(/^(re|fwd?|fw):\s*/gi, "")]: the pattern is anchored
    at the start, so that at most one match is replaced. *)
Definition stripReplyTag (subject : string) : string :=
  match replyTag subject with
  | Some n => Js.trimStart (Js.drop n subject)
  | None => subject
  end.

(** [s.replace(/\s+/g, " ")] *)
Fixpoint collapseWhitespace (inRun : bool) (s : string) : string :=
  match s with
  | EmptyString => EmptyString
  | String c r =>
      if Js.is_space c then
        if inRun then collapseWhitespace true r
        else String " "%char (collapseWhitespace true r)
      else String c (collapseWhitespace false r)
  end.

(** On an ASCII subject; the theorems about it are stated for
    [ascii_text] subjects. *)
Definition normalizeSubject (subject : string) : string :=
  Js.toLowerCase (Js.trim (collapseWhitespace false (stripReplyTag subject))).

Definition subjectsMatch (subject1 subject2 : string) : bool :=
  let normalized1 := normalizeSubject subject1 in
  let normalized2 := normalizeSubject subject2 in
  String.eqb normalized1 normalized2.

(** The tags the pattern accepts, in any mix of cases. *)
Definition isReplyTag (tag : string) : Prop :=
  Js.toLowerCase tag ∈ ["re:"; "fwd:"; "fw:"].

(** The subject once its white space is collapsed and trimmed and its
    letters are lower-cased, without the removal of a tag. *)
Definition foldSubject (subject : string) : string :=
  Js.toLowerCase (Js.trim (collapseWhitespace false subject)).

(** A list of messages in ascending order of date. *)
Definition sortedByDate (l : list ImapMessage) : Prop :=
  Sorted (fun a b => (date a <= date b)%Z) l.

(** The messages of all the groups, in the order of the map. *)
Definition groupedMessages (threads : list (string * list ImapMessage))
    : list ImapMessage :=
  concat (List.map snd threads).

(** No header of a message of the batch names a message of the batch. *)
Definition unlinked (messages : list ImapMessage) : Prop :=
  Forall (fun m =>
            match inReplyTo m with
            | Some irt => irt ∉ List.map messageId messages
            | None => True
            end ∧
            Forall (fun ref => ref ∉ List.map messageId messages)
                   (default [] (references m)))
         messages.

#[export] Instance unlinked_dec messages : Decision (unlinked messages).
Proof.
  unfold unlinked. apply Forall_dec. intros m.
  destruct (inReplyTo m); apply _.
Defined.

(** Two unrelated messages and a reply to a message that is not in the
    batch. *)
Definition strangers : list ImapMessage :=
  [parsedMessage 1 "<a@x>" None [] "one" 3000;
   parsedMessage 2 "<b@x>" None [] "two" 1000;
   parsedMessage 3 "<c@x>" (Some "<gone@y>") ["<gone@y>"] "Re: three" 2000].

(** Every entry of the merge map sends a thread id to itself. *)
Definition identityMap (mm : gmap string string) : Prop :=
  ∀ t v, mm !! t = Some v → v = t.

End ThreadQueries.

(** ** thread.ts: the messages connected to a message *)

Module ThreadSearch.

Import Thread.

(** The four tests of the inner loop of [findThreadMessages]: [other]
    names [current] in its headers, or [current] names [other]. *)
Definition related (current other : ImapMessage) : bool :=
  bool_decide (inReplyTo other = Some (messageId current))
  || bool_decide (messageId current ∈ default [] (references other))
  || bool_decide (inReplyTo current = Some (messageId other))
  || bool_decide (messageId other ∈ default [] (references current)).

(** The variables of the loop: [queue], the set [processedIds] and
    [threadMessages]. *)
Record Bfs := {
  queue : list ImapMessage;
  processedIds : list string;
  threadMessages : list ImapMessage;
}.

(** One iteration of [while (queue.length > 0)]; [None] when the queue
    is empty. *)
Definition visit (allMessages : list ImapMessage) (st : Bfs) : option Bfs :=
  match queue st with
  | [] => None
  | current :: rest =>
      if bool_decide (messageId current ∈ processedIds st) then
        Some {| queue := rest; processedIds := processedIds st;
                threadMessages := threadMessages st |}
      else
        let processed := (processedIds st ++ [messageId current])%list in
        let pushed :=
          List.filter
            (fun other => negb (bool_decide (messageId other ∈ processed))
                          && related current other)
            allMessages in
        Some {| queue := (rest ++ pushed)%list; processedIds := processed;
                threadMessages := (threadMessages st ++ [current])%list |}
  end.

(** The loop, cut after [fuel] iterations. *)
Fixpoint bfs (fuel : nat) (allMessages : list ImapMessage) (st : Bfs)
    : option (list ImapMessage) :=
  match fuel with
  | O => None
  | S fuel' =>
      match visit allMessages st with
      | None => Some (threadMessages st)
      | Some st' => bfs fuel' allMessages st'
      end
  end.

(** A number of iterations the loop never exceeds: every message is
    added at most once, and each addition pushes at most every message. *)
Definition iterations (allMessages : list ImapMessage) : nat :=
  2 + S (length allMessages) * S (length allMessages).

Definition start (message : ImapMessage) : Bfs :=
  {| queue := [message]; processedIds := []; threadMessages := [] |}.

Definition findThreadMessages (message : ImapMessage) (allMessages : list ImapMessage)
    : list ImapMessage :=
  match bfs (iterations allMessages) allMessages (start message) with
  | Some threadMessages => sortByDate threadMessages
  | None => []
  end.

(** The ids of the universe that are not processed yet, and the
    measure that decreases at every iteration. *)
Definition unprocessed (universe processed : list string) : nat :=
  length (List.filter (fun i => negb (bool_decide (i ∈ processed))) universe).

Definition remaining (message : ImapMessage) (allMessages : list ImapMessage)
    (st : Bfs) : nat :=
  length (queue st)
  + S (length allMessages)
    * unprocessed (List.map messageId (message :: allMessages)) (processedIds st).

(** What holds at every iteration. *)
Record searching (message : ImapMessage) (allMessages : list ImapMessage)
    (st : Bfs) : Prop := {
  searching_queue : ∀ x, x ∈ queue st → x ∈ message :: allMessages;
  searching_found : ∀ x, x ∈ threadMessages st → x ∈ message :: allMessages;
  searching_ids : processedIds st = List.map messageId (threadMessages st);
  searching_distinct : NoDup (processedIds st);
  searching_start :
    (queue st = [message] ∧ threadMessages st = []) ∨ message ∈ threadMessages st;
  searching_closed :
    ∀ t o, t ∈ threadMessages st → o ∈ allMessages → related t o = true →
           messageId o ∈ processedIds st ∨ o ∈ queue st;
}.

End ThreadSearch.

(** ** The IMAP keyword module: labels as keywords or as folders *)

Module Labels.

Definition INBOX_ZERO_KEYWORD_PREFIX : string := "IZ_".

(** The object [INBOX_ZERO_LABELS], as its entries in declaration order
    ([Object.entries]). *)
Definition INBOX_ZERO_LABELS : list (string * string) :=
  [("PROCESSED", INBOX_ZERO_KEYWORD_PREFIX ++ "Processed");
   ("AI_DRAFT", INBOX_ZERO_KEYWORD_PREFIX ++ "AIDraft");
   ("AWAITING_REPLY", INBOX_ZERO_KEYWORD_PREFIX ++ "AwaitingReply");
   ("NEEDS_REPLY", INBOX_ZERO_KEYWORD_PREFIX ++ "NeedsReply");
   ("COLD_EMAIL", INBOX_ZERO_KEYWORD_PREFIX ++ "ColdEmail");
   ("NEWSLETTER", INBOX_ZERO_KEYWORD_PREFIX ++ "Newsletter")].

Record ImapCapabilities := {
  supportsKeywords : bool;
  supportsIdle : bool;
  supportsMove : bool;
  supportsCondstore : bool;
  supportsQresync : bool;
  supportsUtf8 : bool;
  supportedFlags : list string;
  permanentFlags : list string;
}.

(** [s.replace(/\s+/g, "_")]: every maximal run of white space becomes
    one underscore. [inRun] tells that the previous character was white
    space. *)
Fixpoint collapseSpaces (inRun : bool) (s : string) : string :=
  match s with
  | EmptyString => EmptyString
  | String c r =>
      if Js.is_space c then
        if inRun then collapseSpaces true r
        else String "_"%char (collapseSpaces true r)
      else String c (collapseSpaces false r)
  end.

(** The class [[a-zA-Z0-9_-]]. *)
Definition keyword_char (c : ascii) : bool :=
  Js.is_lower c || Js.is_upper c || Js.is_digit c
  || Ascii.eqb c "_"%char || Ascii.eqb c "-"%char.

(** On an ASCII keyword, where [\s] is [Js.is_space]; the theorems
    about every input are stated for [ascii_text] inputs. *)
Definition sanitizeKeyword (keyword : string) : string :=
  Js.take 63 (Js.filter_chars keyword_char (collapseSpaces false keyword)).

(** [key in INBOX_ZERO_LABELS] followed by [INBOX_ZERO_LABELS[key]].
    The keys tested are upper-cased, and every property inherited from
    [Object.prototype] has a lower-case letter in its name, so that the
    test amounts to a lookup among the own keys. *)
Fixpoint lookupLabel (key : string) (entries : list (string * string)) : option string :=
  match entries with
  | [] => None
  | (k, v) :: rest => if String.eqb k key then Some v else lookupLabel key rest
  end.

(** On an ASCII label, where [toUpperCase] is [Js.toUpperCase]. *)
Definition labelToKeyword (label : string) : string :=
  let upperLabel := Js.toUpperCase label in
  match lookupLabel upperLabel INBOX_ZERO_LABELS with
  | Some kw => kw
  | None => sanitizeKeyword (INBOX_ZERO_KEYWORD_PREFIX ++ label)
  end.

(** The loop [for (const [label, kw] of Object.entries(...))]. *)
Fixpoint labelOfKeyword (keyword : string) (entries : list (string * string))
    : option string :=
  match entries with
  | [] => None
  | (label, kw) :: rest =>
      if String.eqb kw keyword then Some label else labelOfKeyword keyword rest
  end.

Definition keywordToLabel (keyword : string) : string :=
  if Js.startsWith INBOX_ZERO_KEYWORD_PREFIX keyword then
    let withoutPrefix := Js.drop (String.length INBOX_ZERO_KEYWORD_PREFIX) keyword in
    match labelOfKeyword keyword INBOX_ZERO_LABELS with
    | Some label => label
    | None => withoutPrefix
    end
  else keyword.

(** *** Programs over an IMAP connection

    The functions of the module only talk to the server through the
    connection. A program is the tree of the commands it awaits; the
    reply of a command is the list of UIDs a search found (empty for
    the other commands). [getOrCreateFolder] of the folder module is
    one command. *)
Inductive ImapCmd :=
| OpenBox (folder : string)
| AddFlags (uid : Z) (flags : list string)
| DelFlags (uid : Z) (flags : list string)
| SearchHeader (header value : string)
| Copy (uid : Z) (path : string)
| Expunge
| GetOrCreateFolder (path : string).

Inductive Imap (A : Type) :=
| Ret (a : A)
| Throw (error : string)
| Do (cmd : ImapCmd) (k : list Z -> Imap A).

Arguments Ret {A} a.
Arguments Throw {A} error.
Arguments Do {A} cmd k.

Fixpoint bind {A B : Type} (p : Imap A) (f : A -> Imap B) : Imap B :=
  match p with
  | Ret a => f a
  | Throw e => Throw e
  | Do c k => Do c (fun r => bind (k r) f)
  end.

Definition await (cmd : ImapCmd) : Imap (list Z) := Do cmd Ret.

#[export] Instance Imap_ret : MRet Imap := fun A a => Ret a.
#[export] Instance Imap_bind : MBind Imap := fun A B f p => bind p f.

(** A server answers a command with its reply or rejects it; a
    rejected [await] throws. [run] gives the commands sent, in order,
    and the outcome. *)
Definition Server := ImapCmd -> string + list Z.

Fixpoint run {A : Type} (server : Server) (p : Imap A) : list ImapCmd * (string + A) :=
  match p with
  | Ret a => ([], inr a)
  | Throw e => ([], inl e)
  | Do c k =>
      match server c with
      | inl e => ([c], inl e)
      | inr reply => let r := run server (k reply) in (c :: r.1, r.2)
      end
  end.

Definition addKeyword (uid : Z) (keyword folder : string) : Imap unit :=
  await (OpenBox folder) ;;
  let sanitized := sanitizeKeyword keyword in
  await (AddFlags uid [sanitized]) ;;
  Ret tt.

Definition removeKeyword (uid : Z) (keyword folder : string) : Imap unit :=
  await (OpenBox folder) ;;
  let sanitized := sanitizeKeyword keyword in
  await (DelFlags uid [sanitized]) ;;
  Ret tt.

Definition LABELS_FOLDER_PREFIX : string := "Labels".

Definition addLabelViaFolder (uid : Z) (label sourceFolder : string) : Imap unit :=
  let labelFolderPath := LABELS_FOLDER_PREFIX ++ "/" ++ sanitizeKeyword label in
  await (GetOrCreateFolder labelFolderPath) ;;
  await (OpenBox sourceFolder) ;;
  await (Copy uid labelFolderPath) ;;
  Ret tt.

Definition removeLabelViaFolder (messageId label : string) : Imap unit :=
  let labelFolderPath := LABELS_FOLDER_PREFIX ++ "/" ++ sanitizeKeyword label in
  await (OpenBox labelFolderPath) ;;
  results ← await (SearchHeader "MESSAGE-ID" messageId);
  match results with
  | uid :: _ =>
      await (AddFlags uid ["\Deleted"]) ;;
      await Expunge ;;
      Ret tt
  | [] => Ret tt
  end.

Definition smartAddLabel (uid : Z) (label : string) (capabilities : ImapCapabilities)
    (folder : string) (messageId : option string) : Imap unit :=
  if supportsKeywords capabilities then
    addKeyword uid (labelToKeyword label) folder
  else if Js.truthy_opt messageId then
    addLabelViaFolder uid label folder
  else
    Throw "Cannot add label without keyword support and no message ID provided".

Definition smartRemoveLabel (uid : Z) (label : string) (capabilities : ImapCapabilities)
    (folder : string) (messageId : option string) : Imap unit :=
  if supportsKeywords capabilities then
    removeKeyword uid (labelToKeyword label) folder
  else
    match messageId with
    | Some mid =>
        if Js.truthy mid then removeLabelViaFolder mid label
        else Throw "Cannot remove label without keyword support and no message ID provided"
    | None =>
        Throw "Cannot remove label without keyword support and no message ID provided"
    end.

Definition reservedKeywords : list string := List.map snd INBOX_ZERO_LABELS.

Definition noKeywords : ImapCapabilities :=
  {| supportsKeywords := false; supportsIdle := true; supportsMove := true;
     supportsCondstore := false; supportsQresync := false; supportsUtf8 := false;
     supportedFlags := ["\Seen"; "\Deleted"]; permanentFlags := ["\Seen"; "\Deleted"] |}.

Definition acceptingServer : Server := fun _ => inr [].

End Labels.

(** ** The IMAP keyword module: valid keywords and the list of labels *)

Module LabelListing.

Import Labels.

(** What the comments of [sanitizeKeyword] ask of a keyword: characters
    of the class [[a-zA-Z0-9_-]] only, and at most 63 of them. *)
Definition isValidKeyword (keyword : string) : bool :=
  Js.all_chars keyword_char keyword && (String.length keyword <=? 63)%nat.

(** [labels.add(x)] on a [Set]: the iteration order of a set is the
    order of first insertion. *)
Definition setAdd (x : string) (labels : list string) : list string :=
  if bool_decide (x ∈ labels) then labels else (labels ++ [x])%list.

(** The outcome of [connection.getBoxes()] as far as [listAllLabels]
    looks at it: the call may throw; the box [Labels] may be missing;
    its [children] may be missing, otherwise [Object.keys] lists their
    names. *)
Inductive Boxes :=
| GetBoxesThrows
| NoLabelsBox
| LabelsBox (children : option (list string)).

Definition addFlagLabel (labels : list string) (flag : string) : list string :=
  if negb (Js.startsWith "\" flag) then setAdd (keywordToLabel flag) labels
  else labels.

Definition listAllLabels (capabilities : ImapCapabilities) (boxes : Boxes)
    : list string :=
  let labels :=
    if supportsKeywords capabilities
    then foldl addFlagLabel [] (permanentFlags capabilities)
    else [] in
  match boxes with
  | LabelsBox (Some labelBoxes) => foldl (fun labels labelName => setAdd labelName labels)
                                         labels labelBoxes
  | LabelsBox None | NoLabelsBox | GetBoxesThrows => labels
  end.

(** A server that reports keywords, and two of them among its permanent
    flags. *)
Definition withKeywords : ImapCapabilities :=
  {| supportsKeywords := true; supportsIdle := true; supportsMove := true;
     supportsCondstore := false; supportsQresync := false; supportsUtf8 := false;
     supportedFlags := ["\Seen"; "\Deleted"];
     permanentFlags := ["\Seen"; "IZ_Newsletter"; "IZ_Receipts"; "\*"] |}.

End LabelListing.

(** ** webhook-caller.ts: delivery with bounded retries *)

Module Webhook.

Definition MAX_RETRIES : nat := 3.
Definition BASE_RETRY_DELAY : Z := 1000.

(** What one [await fetch(...)] brings: the promise rejects (network
    failure), or a response arrives. [textOk] tells whether
    [await response.text()] then succeeds; it rejects when the
    connection breaks while the body is read. *)
Inductive FetchOutcome :=
| NetworkError
| Response (status : Z) (textOk : bool).

(** [response.ok] *)
Definition ok (status : Z) : bool := (200 <=? status)%Z && (status <=? 299)%Z.

Inductive Effect :=
| Fetch (attempt : nat)
| Sleep (ms : Z).

#[export] Instance Effect_eq_dec : EqDecision Effect.
Proof. solve_decision. Defined.

(** The [try] block of one iteration: it returns from [callWebhook],
    or falls through to the code after the [catch]. *)
Inductive Attempt :=
| Return (result : bool)
| FallThrough.

Definition tryBlock (o : FetchOutcome) : Attempt :=
  match o with
  | NetworkError => FallThrough
  | Response status textOk =>
      if ok status then Return true
      else if (400 <=? status)%Z && (status <? 500)%Z then
        if textOk then Return false else FallThrough
      else FallThrough
  end.

(** [if (attempt < MAX_RETRIES) await sleep(BASE_RETRY_DELAY * 2 ** attempt)] *)
Definition backoff (attempt : nat) : list Effect :=
  if (attempt <? MAX_RETRIES)%nat
  then [Sleep (BASE_RETRY_DELAY * 2 ^ Z.of_nat attempt)]
  else [].

(** The [for] loop with [left] iterations to go, [attempt] being the
    loop variable; [fetch n] is the outcome of the request of
    iteration [n]. The result is the returned boolean and the requests
    and sleeps performed. *)
Fixpoint retryLoop (left attempt : nat) (fetch : nat -> FetchOutcome)
    : bool * list Effect :=
  match left with
  | O => (false, [])
  | S left' =>
      match tryBlock (fetch attempt) with
      | Return result => (result, [Fetch attempt])
      | FallThrough =>
          let r := retryLoop left' (S attempt) fetch in
          (r.1, (Fetch attempt :: backoff attempt ++ r.2)%list)
      end
  end.

(** [attempt] runs from 0 to [MAX_RETRIES] included. *)
Definition callWebhook (fetch : nat -> FetchOutcome) : bool * list Effect :=
  retryLoop (MAX_RETRIES + 1) 0 fetch.

Fixpoint attempts (trace : list Effect) : nat :=
  match trace with
  | [] => 0
  | Fetch _ :: r => S (attempts r)
  | Sleep _ :: r => attempts r
  end.

Fixpoint delays (trace : list Effect) : list Z :=
  match trace with
  | [] => []
  | Sleep ms :: r => ms :: delays r
  | Fetch _ :: r => delays r
  end.

(** [n] failed iterations starting at [attempt]. *)
Fixpoint failedIterations (n attempt : nat) : list Effect :=
  match n with
  | O => []
  | S n' => (Fetch attempt :: backoff attempt ++ failedIterations n' (S attempt))%list
  end.

Definition fullTrace : list Effect :=
  [Fetch 0; Sleep 1000; Fetch 1; Sleep 2000; Fetch 2; Sleep 4000; Fetch 3].

Definition retryable (o : FetchOutcome) : Prop := tryBlock o = FallThrough.

Definition serverError (o : FetchOutcome) : Prop :=
  o = NetworkError \/ exists status textOk, o = Response status textOk /\ (500 <= status)%Z.

Definition outcomes (l : list FetchOutcome) (n : nat) : FetchOutcome :=
  nth n l NetworkError.

(** *** Statements and examples *)

(** The first sentence of C4 read literally: whatever else happens
    with it, a response whose status is in 400-499 ends the call with
    [false] and no further request. *)
Definition clientErrorAlwaysTerminal : Prop :=
  forall (fetch : nat -> FetchOutcome) (k : nat) (status : Z) (textOk : bool),
    (k <= MAX_RETRIES)%nat ->
    (forall j, (j < k)%nat -> retryable (fetch j)) ->
    fetch k = Response status textOk ->
    (400 <= status <= 499)%Z ->
    (callWebhook fetch).1 = false /\ attempts (callWebhook fetch).2 = S k.

End Webhook.

(** ** eventsource-client.ts: the push client *)

Module EventSource.

(** [readyState] of an [EventSource] object. *)
Inductive ReadyState := CONNECTING | OPEN | CLOSED.

#[export] Instance ReadyState_eq_dec : EqDecision ReadyState.
Proof. solve_decision. Defined.

(** What the client does to the outside, in order:
    [new EventSource] with the bearer token of that moment,
    [eventSource.close()], [setTimeout], [clearTimeout] and the calls
    of the optional callbacks of the options. *)
Inductive Effect :=
| Opened (token : string)
| SourceClosed
| Scheduled (handle : nat) (delay : Z)
| Cleared (handle : nat)
| OnConnected
| OnDisconnected
| OnError (message : string).

#[export] Instance Effect_eq_dec : EqDecision Effect.
Proof. solve_decision. Defined.

(** A [FastmailEventSourceClient]. [eventSource] is the field together
    with the [readyState] of the object it points to (the client closes
    an [EventSource] before it drops it, so that it never has two).
    [timers] are the pending timers the client has set, by handle, and
    [log] the effects so far. *)
Record Client := {
  emailAccountId : string;
  accessToken : string;
  eventSource : option ReadyState;
  reconnectAttempts : nat;
  reconnectTimeout : option nat;
  closed : bool;
  timers : gmap nat Z;
  nextTimer : nat;
  log : list Effect;
}.

Definition maxReconnectAttempts : nat := 10.
Definition baseReconnectDelay : Z := 1000.
Definition maxReconnectDelay : Z := 300000.

(** [new FastmailEventSourceClient(options)] *)
Definition newClient (emailAccountId accessToken : string) : Client :=
  {| emailAccountId := emailAccountId; accessToken := accessToken;
     eventSource := None; reconnectAttempts := 0; reconnectTimeout := None;
     closed := false; timers := ∅; nextTimer := 0; log := [] |}.

Definition emit (e : Effect) (c : Client) : Client :=
  {| emailAccountId := emailAccountId c; accessToken := accessToken c;
     eventSource := eventSource c; reconnectAttempts := reconnectAttempts c;
     reconnectTimeout := reconnectTimeout c; closed := closed c;
     timers := timers c; nextTimer := nextTimer c; log := (log c ++ [e])%list |}.

Definition setEventSource (es : option ReadyState) (c : Client) : Client :=
  {| emailAccountId := emailAccountId c; accessToken := accessToken c;
     eventSource := es; reconnectAttempts := reconnectAttempts c;
     reconnectTimeout := reconnectTimeout c; closed := closed c;
     timers := timers c; nextTimer := nextTimer c; log := log c |}.

Definition setReconnectAttempts (n : nat) (c : Client) : Client :=
  {| emailAccountId := emailAccountId c; accessToken := accessToken c;
     eventSource := eventSource c; reconnectAttempts := n;
     reconnectTimeout := reconnectTimeout c; closed := closed c;
     timers := timers c; nextTimer := nextTimer c; log := log c |}.

Definition setClosed (b : bool) (c : Client) : Client :=
  {| emailAccountId := emailAccountId c; accessToken := accessToken c;
     eventSource := eventSource c; reconnectAttempts := reconnectAttempts c;
     reconnectTimeout := reconnectTimeout c; closed := b;
     timers := timers c; nextTimer := nextTimer c; log := log c |}.

Definition setAccessToken (token : string) (c : Client) : Client :=
  {| emailAccountId := emailAccountId c; accessToken := token;
     eventSource := eventSource c; reconnectAttempts := reconnectAttempts c;
     reconnectTimeout := reconnectTimeout c; closed := closed c;
     timers := timers c; nextTimer := nextTimer c; log := log c |}.

(** [clearTimeout(this.reconnectTimeout); this.reconnectTimeout = null] *)
Definition clearReconnectTimeout (c : Client) : Client :=
  match reconnectTimeout c with
  | Some h =>
      {| emailAccountId := emailAccountId c; accessToken := accessToken c;
         eventSource := eventSource c; reconnectAttempts := reconnectAttempts c;
         reconnectTimeout := None; closed := closed c;
         timers := delete h (timers c); nextTimer := nextTimer c;
         log := (log c ++ [Cleared h])%list |}
  | None => c
  end.

(** [this.reconnectTimeout = setTimeout(() => this.connect(), delay)] *)
Definition setReconnectTimeout (delay : Z) (c : Client) : Client :=
  let h := nextTimer c in
  {| emailAccountId := emailAccountId c; accessToken := accessToken c;
     eventSource := eventSource c; reconnectAttempts := reconnectAttempts c;
     reconnectTimeout := Some h; closed := closed c;
     timers := <[h := delay]> (timers c); nextTimer := S h;
     log := (log c ++ [Scheduled h delay])%list |}.

Definition disconnect (c : Client) : Client :=
  let c := clearReconnectTimeout c in
  match eventSource c with
  | Some _ => setEventSource None (emit SourceClosed c)
  | None => c
  end.

(** [connect()]; [options.eventSourceUrl] is taken to be a well-formed
    URL, so that [buildUrl] does not throw. *)
Definition connect (c : Client) : Client :=
  if closed c then c
  else
    let c := match eventSource c with Some _ => disconnect c | None => c end in
    setEventSource (Some CONNECTING) (emit (Opened (accessToken c)) c).

Definition reconnectDelay (attempts : nat) : Z :=
  Z.min (baseReconnectDelay * 2 ^ Z.of_nat attempts) maxReconnectDelay.

Definition handleDisconnect (c : Client) : Client :=
  let c := emit OnDisconnected c in
  if closed c then c
  else if (maxReconnectAttempts <=? reconnectAttempts c)%nat then
    emit (OnError "Max reconnect attempts reached") c
  else
    let delay := reconnectDelay (reconnectAttempts c) in
    let c := setReconnectAttempts (S (reconnectAttempts c)) c in
    setReconnectTimeout delay c.

Definition close (c : Client) : Client := disconnect (setClosed true c).

Definition isConnected (c : Client) : bool :=
  bool_decide (eventSource c = Some OPEN).

Definition updateAccessToken (newToken : string) (c : Client) : Client :=
  let wasConnected := isConnected c in
  let c := disconnect c in
  let c := setAccessToken newToken c in
  if wasConnected then connect (setReconnectAttempts 0 c) else c.

(** The handlers installed by [connect]. [onopen] runs when the
    connection of the current [EventSource] is established. [onerror]
    runs after the library has moved the object to [CONNECTING] (it
    retries by itself) or to [CLOSED] (it gave up). *)
Definition onopen (c : Client) : Client :=
  emit OnConnected (setReconnectAttempts 0 (setEventSource (Some OPEN) c)).

Definition onerror (gaveUp : bool) (c : Client) : Client :=
  if gaveUp then handleDisconnect (setEventSource (Some CLOSED) c)
  else setEventSource (Some CONNECTING) c.

(** The timer callback [() => this.connect()], the timer leaving the
    pending ones when it fires. *)
Definition fire (h : nat) (c : Client) : Client :=
  connect
    {| emailAccountId := emailAccountId c; accessToken := accessToken c;
       eventSource := eventSource c; reconnectAttempts := reconnectAttempts c;
       reconnectTimeout := reconnectTimeout c; closed := closed c;
       timers := delete h (timers c); nextTimer := nextTimer c; log := log c |}.

(** What can happen to a client: calls of its public methods, and
    events of the event loop. *)
Inductive Event :=
| CallConnect
| CallDisconnect
| CallClose
| CallUpdateAccessToken (newToken : string)
| SourceOpen
| SourceError (gaveUp : bool)
| TimerFires (handle : nat).

Definition isExternalCall (e : Event) : bool :=
  match e with
  | CallConnect | CallDisconnect | CallClose | CallUpdateAccessToken _ => true
  | SourceOpen | SourceError _ | TimerFires _ => false
  end.

(** An event of the event loop that cannot occur in the state leaves
    it as it is: an [EventSource] opens only while [CONNECTING], reports
    an error only while not [CLOSED], and only a pending timer fires. *)
Definition step (c : Client) (e : Event) : Client :=
  match e with
  | CallConnect => connect c
  | CallDisconnect => disconnect c
  | CallClose => close c
  | CallUpdateAccessToken t => updateAccessToken t c
  | SourceOpen =>
      match eventSource c with
      | Some CONNECTING => onopen c
      | _ => c
      end
  | SourceError gaveUp =>
      match eventSource c with
      | Some CONNECTING | Some OPEN => onerror gaveUp c
      | _ => c
      end
  | TimerFires h =>
      match timers c !! h with
      | Some _ => fire h c
      | None => c
      end
  end.

Definition run (events : list Event) (c : Client) : Client := foldl step c events.

Fixpoint scheduledDelays (l : list Effect) : list Z :=
  match l with
  | [] => []
  | Scheduled _ d :: r => d :: scheduledDelays r
  | _ :: r => scheduledDelays r
  end.

Definition isScheduled (e : Effect) : bool :=
  match e with Scheduled _ _ => true | _ => false end.

Definition isOpened (e : Effect) : bool :=
  match e with Opened _ => true | _ => false end.

(** One failed connection: the [EventSource] gives up, and the timer
    that was set, if any, fires. *)
Definition failure (c : Client) : Client :=
  let c := step c (SourceError true) in
  match reconnectTimeout c with
  | Some h => step c (TimerFires h)
  | None => c
  end.

Definition failures (n : nat) (c : Client) : Client := Nat.iter n failure c.

(** The delay the claim gives for the [N]-th attempt, [N] from 1:
    min(1000 * 2^(N-1), 300000) milliseconds. *)
Definition delayOfAttempt (N : nat) : Z :=
  Z.min (1000 * 2 ^ (Z.of_nat N - 1)) 300000.

(** A client is live when it holds an [EventSource] or a pending
    reconnect timer. *)
Definition live (c : Client) : bool :=
  bool_decide (eventSource c <> None) || bool_decide (timers c <> ∅).

(** [c'] comes from [c] by effects that all satisfy [P]. *)
Definition extends (P : Effect -> Prop) (c c' : Client) : Prop :=
  exists new, log c' = (log c ++ new)%list /\ Forall P new.

Definition quietEffect (e : Effect) : Prop :=
  isScheduled e = false /\ isOpened e = false.

(** *** Invariants *)

(** Nothing is scheduled and nothing is opened between [c] and [c'],
    no timer is added, and [closed] stays set. *)
Definition quiet (c c' : Client) : Prop :=
  closed c' = true /\ timers c' ⊆ timers c /\ extends quietEffect c c'.

(** In every state the client reaches, at most one timer is pending;
    it is the one [reconnectTimeout] holds, and the [EventSource] is
    then the one that gave up. *)
Definition timersOwned (c : Client) : Prop :=
  timers c = ∅
  \/ exists h d, timers c = {[h := d]} /\ reconnectTimeout c = Some h
                /\ eventSource c = Some CLOSED.

Definition waitingForFirstRetry : Client :=
  run [CallConnect; SourceError true] (newClient "account-1" "token-1").

Definition retriesExhausted : Client :=
  failures 10 (connect (newClient "account-1" "token-1")).

End EventSource.

(** ** eventsource-client.ts: what holds in every state a client reaches *)

Module EventSourceInvariants.

Import EventSource.

Definition isSourceClosed (e : Effect) : bool :=
  match e with SourceClosed => true | _ => false end.

(** The number of [new EventSource] in a log, and the number of
    [eventSource.close()]. *)
Definition opened (l : list Effect) : nat := length (List.filter isOpened l).
Definition sourceClosed (l : list Effect) : nat := length (List.filter isSourceClosed l).

(** The number of objects the field [eventSource] points to. *)
Definition holdsSource (c : Client) : nat :=
  match eventSource c with Some _ => 1 | None => 0 end.

(** Every [EventSource] the client created was closed by it, except
    the one it holds. *)
Definition balanced (c : Client) : Prop :=
  opened (log c) = (sourceClosed (log c) + holdsSource c)%nat.

Definition delayInRange (d : Z) : Prop :=
  (baseReconnectDelay <= d <= maxReconnectDelay)%Z.

Definition bounded (c : Client) : Prop :=
  (reconnectAttempts c <= maxReconnectAttempts)%nat ∧
  Forall delayInRange (scheduledDelays (log c)).

(** A closed client holds neither an [EventSource] nor a timer. *)
Definition closedIdle (c : Client) : Prop :=
  closed c = true → eventSource c = None ∧ timers c = ∅.

Definition isCleared (e : Effect) : bool :=
  match e with Cleared _ => true | _ => false end.

(** A client whose connection is established after three failed
    connections. *)
Definition retriesThenOpen : list Event :=
  [CallConnect; SourceError true; TimerFires 0; SourceError true; TimerFires 1;
   SourceError true; TimerFires 2; SourceOpen].

Definition connectedAfterRetries : Client :=
  run retriesThenOpen (newClient "account-1" "token-1").

End EventSourceInvariants.

(** ** poll-sync.ts: polling one Fastmail account *)

Module PollSync.

Inductive Status := success | error | skipped | no_changes.

#[export] Instance Status_eq_dec : EqDecision Status.
Proof. solve_decision. Defined.

Record PollSyncResult := {
  resultEmailAccountId : string;
  resultEmail : string;
  status : Status;
  processedCount : option nat;
  newState : option string;
  errorMessage : option string;
}.

(** The selected columns of the [account] relation. *)
Record Credentials := {
  provider : string;
  access_token : option string;
  refresh_token : option string;
  expires_at : option Z;
}.

Record Premium := {
  tier : option string;
  lemonSqueezyRenewsAt : option Z;
  stripeSubscriptionStatus : option string;
}.

Record User := {
  userId : string;
  aiApiKey : option string;
  premium : option Premium;
}.

(** The row [findUnique] selects; [rules] are the enabled rules, by id,
    and [lastPolledAt] is a time in milliseconds. *)
Record EmailAccount := {
  id : string;
  email : string;
  lastSyncedHistoryId : option string;
  lastPolledAt : option Z;
  account : option Credentials;
  rules : list string;
  user : User;
}.

(** The result of [provider.getEmailChanges]. *)
Record Changes := {
  created : list string;
  updated : list string;
  changesNewState : string;
  hasMoreChanges : bool;
}.

(** An awaited call either throws (with the message of the error) or
    gives its value. *)
Definition Throwing (A : Type) : Type := string + A.

(** The collaborators of [pollFastmailAccount]: the database, the
    clock, [hasAiAccess] of the premium module, the provider factory,
    the provider and the rule engine. *)
Record World := {
  findUnique : string -> Throwing (option EmailAccount);
  now : Z;
  hasAiAccess : option string -> option string -> bool;
  createEmailProvider : string -> Throwing unit;
  getEmailChanges : option string -> Throwing Changes;
  processHistoryItem : string -> Throwing unit;
  update : string -> Z -> string -> Throwing unit;
}.

(** [prisma.emailAccount.update]: the account, [lastPolledAt] and
    [lastSyncedHistoryId] written. *)
Inductive DbWrite := Update (id : string) (lastPolledAt : Z) (lastSyncedHistoryId : string).

Definition failed (emailAccountId message : string) : PollSyncResult :=
  {| resultEmailAccountId := emailAccountId; resultEmail := ""; status := error;
     processedCount := None; newState := None; errorMessage := Some message |}.

Definition early (emailAccountId email : string) (st : Status) (message : string)
    : PollSyncResult :=
  {| resultEmailAccountId := emailAccountId; resultEmail := email; status := st;
     processedCount := None; newState := None; errorMessage := Some message |}.

(** [account.account?.provider !== "fastmail"] *)
Definition notFastmail (a : EmailAccount) : bool :=
  match account a with
  | Some creds => negb (String.eqb (provider creds) "fastmail")
  | None => true
  end.

(** [!forceSync && account.lastPolledAt] and less than two minutes ago. *)
Definition recentlyPolled (w : World) (forceSync : bool) (a : EmailAccount) : bool :=
  if forceSync then false
  else match lastPolledAt a with
       | Some t => (now w - t <? 2 * 60 * 1000)%Z
       | None => false
       end.

(** [hasAiAccess(account.user.premium?.tier || null, account.user.aiApiKey)] *)
Definition userHasAiAccess (w : World) (a : EmailAccount) : bool :=
  let tierOrNull :=
    match premium (user a) with
    | Some p => match tier p with
                | Some t => if Js.truthy t then Some t else None
                | None => None
                end
    | None => None
    end in
  hasAiAccess w tierOrNull (aiApiKey (user a)).

Definition hasAutomationRules (a : EmailAccount) : bool :=
  (0 <? length (rules a))%nat.

(** [!account.account?.access_token] *)
Definition missingAccessToken (a : EmailAccount) : bool :=
  match account a with
  | Some creds => negb (Js.truthy_opt (access_token creds))
  | None => true
  end.

(** The loop over [changes.created]: a message whose processing
    throws is logged and not counted. *)
Fixpoint processCreated (w : World) (messageIds : list string) (processed : nat) : nat :=
  match messageIds with
  | [] => processed
  | m :: rest =>
      match processHistoryItem w m with
      | inr _ => processCreated w rest (S processed)
      | inl _ => processCreated w rest processed
      end
  end.

Definition pollFastmailAccount (w : World) (emailAccountId : string) (forceSync : bool)
    : PollSyncResult * list DbWrite :=
  match findUnique w emailAccountId with
  | inl e => (failed emailAccountId e, [])
  | inr None => (failed emailAccountId "Account not found", [])
  | inr (Some a) =>
      if notFastmail a then
        (early emailAccountId (email a) skipped "Not a Fastmail account", [])
      else if recentlyPolled w forceSync a then
        (early emailAccountId (email a) skipped "Recently polled", [])
      else if negb (userHasAiAccess w a) then
        (early emailAccountId (email a) skipped "No AI access", [])
      else if negb (hasAutomationRules a) then
        (early emailAccountId (email a) skipped "No rules enabled", [])
      else if missingAccessToken a then
        (early emailAccountId (email a) error "Missing authentication tokens", [])
      else
        match createEmailProvider w emailAccountId with
        | inl e => (failed emailAccountId e, [])
        | inr _ =>
            match getEmailChanges w (lastSyncedHistoryId a) with
            | inl e => (failed emailAccountId e, [])
            | inr changes =>
                let write := Update emailAccountId (now w) (changesNewState changes) in
                match created changes, updated changes with
                | [], [] =>
                    match update w emailAccountId (now w) (changesNewState changes) with
                    | inl e => (failed emailAccountId e, [])
                    | inr _ =>
                        ({| resultEmailAccountId := emailAccountId;
                            resultEmail := email a; status := no_changes;
                            processedCount := None;
                            newState := Some (changesNewState changes);
                            errorMessage := None |}, [write])
                    end
                | _, _ =>
                    let count := processCreated w (created changes) 0 in
                    match update w emailAccountId (now w) (changesNewState changes) with
                    | inl e => (failed emailAccountId e, [])
                    | inr _ =>
                        ({| resultEmailAccountId := emailAccountId;
                            resultEmail := email a; status := success;
                            processedCount := Some count;
                            newState := Some (changesNewState changes);
                            errorMessage := None |}, [write])
                    end
                end
            end
        end
  end.

(** *** Statements and examples *)

(** The account has no usable access credential: no [account] row, or
    no access token in it. *)
Definition lacksCredentials (a : EmailAccount) : Prop := missingAccessToken a = true.
Definition lacksRules (a : EmailAccount) : Prop := rules a = [].
Definition lacksAiAccess (w : World) (a : EmailAccount) : Prop := userHasAiAccess w a = false.

(** C2 as it is written: each of the three defects gives [skipped]. *)
Definition defectsAreSkipped : Prop :=
  forall (w : World) (emailAccountId : string) (forceSync : bool) (a : EmailAccount),
    findUnique w emailAccountId = inr (Some a) ->
    lacksCredentials a \/ lacksRules a \/ lacksAiAccess w a ->
    status (pollFastmailAccount w emailAccountId forceSync).1 = skipped.

(** A Fastmail account of a user on the business tier with one enabled
    rule, whose access token is null. *)
Definition businessUser : User :=
  {| userId := "u-1"; aiApiKey := None;
     premium := Some {| tier := Some "BUSINESS_MONTHLY"; lemonSqueezyRenewsAt := None;
                        stripeSubscriptionStatus := Some "active" |} |}.

Definition tokenless : EmailAccount :=
  {| id := "acc-1"; email := "user@fastmail.example";
     lastSyncedHistoryId := Some "s0"; lastPolledAt := None;
     account := Some {| provider := "fastmail"; access_token := None;
                        refresh_token := None; expires_at := None |};
     rules := ["rule-1"];
     user := businessUser |}.

(** A world in which the business tier has AI access. *)
Definition tokenlessWorld : World :=
  {| findUnique := fun i => if String.eqb i "acc-1" then inr (Some tokenless) else inr None;
     now := 1700000000000;
     hasAiAccess := fun tier _ => bool_decide (tier = Some "BUSINESS_MONTHLY");
     createEmailProvider := fun _ => inr tt;
     getEmailChanges := fun _ =>
       inr {| created := []; updated := []; changesNewState := "s0";
              hasMoreChanges := false |};
     processHistoryItem := fun _ => inr tt;
     update := fun _ _ _ => inr tt |}.

Definition ruleless : EmailAccount :=
  {| id := "acc-2"; email := "other@fastmail.example";
     lastSyncedHistoryId := None; lastPolledAt := None;
     account := Some {| provider := "fastmail"; access_token := Some "token";
                        refresh_token := None; expires_at := None |};
     rules := [];
     user := businessUser |}.

Definition rulelessWorld : World :=
  {| findUnique := fun _ => inr (Some ruleless);
     now := 1700000000000;
     hasAiAccess := hasAiAccess tokenlessWorld;
     createEmailProvider := fun _ => inr tt;
     getEmailChanges := getEmailChanges tokenlessWorld;
     processHistoryItem := fun _ => inr tt;
     update := fun _ _ _ => inr tt |}.

End PollSync.

(** ** poll-sync.ts: the poll of all the accounts *)

Module PollAll.

Import PollSync.

(** The five checks that come before the provider is created. *)
Definition eligible (w : World) (forceSync : bool) (a : EmailAccount) : bool :=
  negb (notFastmail a) && negb (recentlyPolled w forceSync a)
  && userHasAiAccess w a && hasAutomationRules a && negb (missingAccessToken a).

(** The messages whose processing does not throw. *)
Definition processable (w : World) (messageIds : list string) : list string :=
  List.filter (fun m => match processHistoryItem w m with
                        | inr _ => true
                        | inl _ => false
                        end) messageIds.

Definition writtenId (write : DbWrite) : string :=
  match write with Update i _ _ => i end.

Definition writtenState (write : DbWrite) : string :=
  match write with Update _ _ state => state end.

(** The results that report a poll carried through. *)
Definition wrote (result : PollSyncResult) : bool :=
  match status result with
  | success | no_changes => true
  | error | skipped => false
  end.

(** The loop of [pollAllFastmailAccounts]: the accounts are polled one
    after the other, without [forceSync]; [world i] is the world the
    poll of index [i] meets. *)
Fixpoint pollEach (world : nat -> World) (i : nat) (accounts : list EmailAccount)
    : list (PollSyncResult * list DbWrite) :=
  match accounts with
  | [] => []
  | a :: rest => pollFastmailAccount (world i) (id a) false :: pollEach world (S i) rest
  end.

(** [fastmailAccounts] is the awaited result of
    [getFastmailAccountsToPoll], which is not caught when it throws. *)
Definition pollAllFastmailAccounts (fastmailAccounts : Throwing (list EmailAccount))
    (world : nat -> World) : Throwing (list PollSyncResult) * list DbWrite :=
  match fastmailAccounts with
  | inl e => (inl e, [])
  | inr accounts =>
      let polls := pollEach world 0 accounts in
      (inr (List.map fst polls), concat (List.map snd polls))
  end.

(** An eligible account with three new messages, the second of which
    the rule engine fails to process. *)
Definition busy : EmailAccount :=
  {| id := "acc-3"; email := "busy@fastmail.example";
     lastSyncedHistoryId := Some "s1"; lastPolledAt := Some 1699999990000%Z;
     account := Some {| provider := "fastmail"; access_token := Some "token";
                        refresh_token := None; expires_at := None |};
     rules := ["rule-1"];
     user := businessUser |}.

Definition busyChanges : Changes :=
  {| created := ["m1"; "m2"; "m3"]; updated := ["m0"]; changesNewState := "s2";
     hasMoreChanges := false |}.

Definition busyWorld : World :=
  {| findUnique := fun i =>
       if String.eqb i "acc-3" then inr (Some busy)
       else if String.eqb i "acc-2" then inr (Some ruleless)
       else inr None;
     now := 1700000000000;
     hasAiAccess := hasAiAccess tokenlessWorld;
     createEmailProvider := fun _ => inr tt;
     getEmailChanges := fun _ => inr busyChanges;
     processHistoryItem := fun m =>
       if String.eqb m "m2" then inl "rule engine failed" else inr tt;
     update := fun _ _ _ => inr tt |}.

End PollAll.

(** ** account-manager.ts: the connections of all accounts *)

Module Manager.

(** *** A JavaScript [Map] with string keys, in insertion order *)

Section JsMap.
Context {V : Type}.

Fixpoint mapGet (k : string) (m : list (string * V)) : option V :=
  match m with
  | [] => None
  | (k', v) :: rest => if String.eqb k' k then Some v else mapGet k rest
  end.

(** [set] keeps the place of a key that is present and appends a new key. *)
Fixpoint mapSet (k : string) (v : V) (m : list (string * V)) : list (string * V) :=
  match m with
  | [] => [(k, v)]
  | (k', v') :: rest =>
      if String.eqb k' k then (k', v) :: rest else (k', v') :: mapSet k v rest
  end.

Fixpoint mapDelete (k : string) (m : list (string * V)) : list (string * V) :=
  match m with
  | [] => []
  | (k', v') :: rest =>
      if String.eqb k' k then mapDelete k rest else (k', v') :: mapDelete k rest
  end.

Definition mapKeys (m : list (string * V)) : list string := List.map fst m.

End JsMap.

(** *** Data *)

(** An element of the result of [getFastmailAccounts]. *)
Record AccountTokens := {
  access_token : option string;
  refresh_token : option string;
  expires_at : option Z;
}.

Record Account := {
  id : string;
  email : string;
  account : option AccountTokens;
}.

(** [client] is the [FastmailEventSourceClient] object, as its place
    among the objects constructed so far. *)
Record ManagedAccount := {
  emailAccountId : string;
  managedEmail : string;
  client : nat;
  accessToken : string;
  refreshToken : option string;
  expiresAt : option Z;
}.

(** What [addConnection] reads of the JMAP session: the event source
    URL, whether [new URL] accepts it, and
    [primaryAccounts["urn:ietf:params:jmap:mail"]]. *)
Record JMAPSession := {
  eventSourceUrl : string;
  validUrl : bool;
  primaryMailAccount : option string;
}.

Record AccountManager := {
  connections : list (string * ManagedAccount);
  refreshInterval : bool;
  running : bool;
  clients : list EventSource.Client;
  activeIntervals : nat;
}.

(** [new AccountManager()]. [refreshInterval] tells whether the field
    holds a handle and [activeIntervals] how many interval timers
    run. *)
Definition newManager : AccountManager :=
  {| connections := []; refreshInterval := false; running := false;
     clients := []; activeIntervals := 0 |}.

Definition withConnections (conns : list (string * ManagedAccount)) (m : AccountManager)
    : AccountManager :=
  {| connections := conns; refreshInterval := refreshInterval m; running := running m;
     clients := clients m; activeIntervals := activeIntervals m |}.

Definition withClients (cs : list EventSource.Client) (m : AccountManager)
    : AccountManager :=
  {| connections := connections m; refreshInterval := refreshInterval m;
     running := running m; clients := cs; activeIntervals := activeIntervals m |}.

(** [managed.client.close()] *)
Definition closeClient (ref : nat) (m : AccountManager) : AccountManager :=
  withClients (alter EventSource.close ref (clients m)) m.

(** *** [refreshAccounts] *)

(** Body of the loop over [currentIds]. *)
Definition removeIfStale (newIds : list string) (m : AccountManager) (id : string)
    : AccountManager :=
  if bool_decide (id ∈ newIds) then m
  else
    let m := match mapGet id (connections m) with
             | Some managed => closeClient (client managed) m
             | None => m
             end in
    withConnections (mapDelete id (connections m)) m.

Definition removeStale (newIds currentIds : list string) (m : AccountManager)
    : AccountManager :=
  foldl (removeIfStale newIds) m currentIds.

(** [account.account?.access_token], when truthy. *)
Definition tokenOf (a : Account) : option string :=
  match account a with
  | Some t => match access_token t with
              | Some s => if Js.truthy s then Some s else None
              | None => None
              end
  | None => None
  end.

(** [addConnection] from the point where [getJMAPSession] has
    returned ([None] is [null]): the client is constructed, stored
    under the account id and connected. When the URL is not accepted,
    [connect] throws after the entry is stored, and the [catch] logs. *)
Definition finishAddConnection (a : Account) (token : string)
    (session : option JMAPSession) (m : AccountManager) : AccountManager :=
  match session with
  | None => m
  | Some s =>
      if Js.truthy_opt (primaryMailAccount s) then
        let newClient := EventSource.newClient (id a) token in
        let managed :=
          {| emailAccountId := id a; managedEmail := email a;
             client := length (clients m); accessToken := token;
             refreshToken := match account a with
                             | Some t => refresh_token t
                             | None => None
                             end;
             expiresAt := match account a with
                          | Some t => expires_at t
                          | None => None
                          end |} in
        let connected :=
          if validUrl s then EventSource.connect newClient else newClient in
        withClients (clients m ++ [connected])%list
          (withConnections (mapSet (id a) managed (connections m)) m)
      else m
  end.

(** [addConnection], the session fetched for an account being given
    by [sessions]. *)
Definition addConnection (sessions : string -> option JMAPSession)
    (m : AccountManager) (a : Account) : AccountManager :=
  match tokenOf a with
  | Some token => finishAddConnection a token (sessions (id a)) m
  | None => m
  end.

(** Body of the loop over [accounts]. *)
Definition addIfNew (sessions : string -> option JMAPSession) (currentIds : list string)
    (m : AccountManager) (a : Account) : AccountManager :=
  if bool_decide (id a ∈ currentIds) then m else addConnection sessions m a.

(** One reconciliation that runs alone from start to end. [accounts]
    is what [getFastmailAccounts] brings: the accounts, or an error
    that the [catch] logs. *)
Definition refreshAccounts (accounts : string + list Account)
    (sessions : string -> option JMAPSession) (m : AccountManager) : AccountManager :=
  match accounts with
  | inl _ => m
  | inr accounts =>
      let currentIds := mapKeys (connections m) in
      let newIds := List.map id accounts in
      let m := removeStale newIds currentIds m in
      foldl (addIfNew sessions currentIds) m accounts
  end.

(** [stop()] *)
Definition stop (m : AccountManager) : AccountManager :=
  let m :=
    {| connections := connections m; refreshInterval := false; running := false;
       clients := clients m;
       activeIntervals := if refreshInterval m then pred (activeIntervals m)
                          else activeIntervals m |} in
  let m := foldl (fun m kv => closeClient (client kv.2) m) m (connections m) in
  withConnections [] m.

(** [this.refreshInterval = setInterval(...)] *)
Definition setRefreshInterval (m : AccountManager) : AccountManager :=
  {| connections := connections m; refreshInterval := true; running := running m;
     clients := clients m; activeIntervals := S (activeIntervals m) |}.

Definition setRunning (m : AccountManager) : AccountManager :=
  {| connections := connections m; refreshInterval := refreshInterval m;
     running := true; clients := clients m; activeIntervals := activeIntervals m |}.

(** *** The daemon: reconciliations in flight

    An [async] function runs until its next [await] and is resumed
    when the awaited result arrives; in between, other callbacks run.
    A reconciliation awaits the account list and then, for each new
    account with a token, the JMAP session. [fromStart] marks the
    reconciliation [start()] awaits before it sets the interval. *)
Inductive Task :=
| AwaitAccounts (fromStart : bool)
| AwaitSession (fromStart : bool) (currentIds : list string)
               (a : Account) (token : string) (rest : list Account).

Record Daemon := {
  manager : AccountManager;
  tasks : list Task;
}.

Inductive Event :=
| CallStart
| CallStop
| Tick
| AccountsLoaded (task : nat) (accounts : string + list Account)
| SessionLoaded (task : nat) (session : option JMAPSession)
| ClientEvent (ref : nat) (e : EventSource.Event).

(** The next account of the loop whose [addConnection] reaches the
    [await]; the accounts skipped before it change nothing. *)
Fixpoint nextAwait (currentIds : list string) (accounts : list Account)
    : option (Account * string * list Account) :=
  match accounts with
  | [] => None
  | a :: rest =>
      if bool_decide (id a ∈ currentIds) then nextAwait currentIds rest
      else match tokenOf a with
           | Some token => Some (a, token, rest)
           | None => nextAwait currentIds rest
           end
  end.

(** The reconciliation [task] goes on with the accounts [rest]: it
    suspends at the next [await], or ends; the one of [start()] then
    sets the interval. *)
Definition continue (task : nat) (fromStart : bool) (currentIds : list string)
    (rest : list Account) (d : Daemon) : Daemon :=
  match nextAwait currentIds rest with
  | Some (a, token, rest') =>
      {| manager := manager d;
         tasks := <[task := AwaitSession fromStart currentIds a token rest']> (tasks d) |}
  | None =>
      {| manager := if fromStart then setRefreshInterval (manager d) else manager d;
         tasks := delete task (tasks d) |}
  end.

Definition step (d : Daemon) (e : Event) : Daemon :=
  match e with
  | CallStart =>
      if running (manager d) then d
      else {| manager := setRunning (manager d);
              tasks := (tasks d ++ [AwaitAccounts true])%list |}
  | CallStop => {| manager := stop (manager d); tasks := tasks d |}
  | Tick =>
      if (0 <? activeIntervals (manager d))%nat
      then {| manager := manager d; tasks := (tasks d ++ [AwaitAccounts false])%list |}
      else d
  | AccountsLoaded task accounts =>
      match tasks d !! task with
      | Some (AwaitAccounts fromStart) =>
          match accounts with
          | inl _ => continue task fromStart [] [] d
          | inr accounts =>
              let currentIds := mapKeys (connections (manager d)) in
              let newIds := List.map id accounts in
              let m := removeStale newIds currentIds (manager d) in
              continue task fromStart currentIds accounts
                {| manager := m; tasks := tasks d |}
          end
      | _ => d
      end
  | SessionLoaded task session =>
      match tasks d !! task with
      | Some (AwaitSession fromStart currentIds a token rest) =>
          let m := finishAddConnection a token session (manager d) in
          continue task fromStart currentIds rest {| manager := m; tasks := tasks d |}
      | _ => d
      end
  | ClientEvent ref e =>
      if EventSource.isExternalCall e then d
      else {| manager :=
                withClients
                  (alter (fun c => EventSource.step c e) ref (clients (manager d)))
                  (manager d);
              tasks := tasks d |}
  end.

Definition run (events : list Event) (d : Daemon) : Daemon := foldl step d events.

Definition newDaemon : Daemon := {| manager := newManager; tasks := [] |}.

(** The clients that are live and belong to the account [id], by place. *)
Definition liveClientsOf (id : string) (m : AccountManager) : list nat :=
  List.map fst
    (List.filter
       (fun ic => EventSource.live ic.2 && String.eqb (EventSource.emailAccountId ic.2) id)
       (combine (seq 0 (length (clients m))) (clients m))).

(** At most one live connection per account id. *)
Definition atMostOneLive (m : AccountManager) : Prop :=
  forall i j ci cj,
    clients m !! i = Some ci -> clients m !! j = Some cj ->
    EventSource.live ci = true -> EventSource.live cj = true ->
    EventSource.emailAccountId ci = EventSource.emailAccountId cj -> i = j.

(** Every live client is the client of an entry of the map. *)
Definition noLiveOrphan (m : AccountManager) : Prop :=
  forall i c, clients m !! i = Some c -> EventSource.live c = true ->
    exists id managed, mapGet id (connections m) = Some managed /\ client managed = i.

Definition accountX : Account :=
  {| id := "acc-x"; email := "x@fastmail.example";
     account := Some {| access_token := Some "token-x"; refresh_token := Some "refresh-x";
                        expires_at := None |} |}.

Definition sessionX : JMAPSession :=
  {| eventSourceUrl := "https://api.fastmail.com/jmap/event/"; validUrl := true;
     primaryMailAccount := Some "u1234" |}.

(** The daemon starts with no eligible account. Then the account
    becomes eligible, and two periodic reconciliations overlap: the
    second one loads the account list while the first one still awaits
    the JMAP session. *)
Definition overlappingRefreshes : list Event :=
  [CallStart; AccountsLoaded 0 (inr []);
   Tick; AccountsLoaded 0 (inr [accountX]);
   Tick; AccountsLoaded 1 (inr [accountX]);
   SessionLoaded 0 (Some sessionX);
   SessionLoaded 0 (Some sessionX);
   ClientEvent 0 EventSource.SourceOpen;
   ClientEvent 1 EventSource.SourceOpen].

(** *** Invariants *)

(** The client of every entry exists, and no two entries share a client. *)
Definition wellFormed (m : AccountManager) : Prop :=
  forall id managed,
    mapGet id (connections m) = Some managed ->
    (client managed < length (clients m))%nat
    /\ forall id' managed',
        mapGet id' (connections m) = Some managed' ->
        client managed' = client managed -> id' = id.

(** As long as every reconciliation and every [stop()] runs from start
    to end on its own, each client that is live is the client of the
    entry of its account. *)
Record consistent (m : AccountManager) : Prop := {
  consistent_wellFormed : wellFormed m;
  consistent_owner :
    forall id0 managed c,
      mapGet id0 (connections m) = Some managed ->
      clients m !! client managed = Some c ->
      EventSource.emailAccountId c = id0;
  consistent_noLiveOrphan : noLiveOrphan m;
  consistent_timers :
    forall i c, clients m !! i = Some c -> EventSource.timersOwned c;
}.

(** The events that resume one reconciliation until it ends: the account
    list, then the session of every account whose [addConnection]
    awaits one. *)
Fixpoint sessionEvents (sessions : string -> option JMAPSession) (currentIds : list string)
    (accounts : list Account) : list Event :=
  match accounts with
  | [] => []
  | a :: rest =>
      if bool_decide (id a ∈ currentIds) then sessionEvents sessions currentIds rest
      else match tokenOf a with
           | Some _ => SessionLoaded 0 (sessions (id a))
                         :: sessionEvents sessions currentIds rest
           | None => sessionEvents sessions currentIds rest
           end
  end.

Definition accountY : Account :=
  {| id := "acc-y"; email := "y@fastmail.example";
     account := Some {| access_token := Some "token-y"; refresh_token := None;
                        expires_at := None |} |}.

Definition accountZ : Account :=
  {| id := "acc-z"; email := "z@fastmail.example";
     account := Some {| access_token := Some "token-z"; refresh_token := None;
                        expires_at := None |} |}.

Definition managingXY : AccountManager :=
  refreshAccounts (inr [accountX; accountY]) (fun _ => Some sessionX) newManager.

End Manager.

(** ** account-manager.ts: runs of the daemon without overlap *)

Module ManagerRuns.

Import Manager.

(** The account lists the database brings have distinct ids (they are
    primary keys). *)
Definition distinctIds (e : Event) : Prop :=
  match e with
  | AccountsLoaded _ (inr accounts) => NoDup (List.map id accounts)
  | _ => True
  end.

(** At no moment of the run are two reconciliations in flight. *)
Fixpoint neverOverlaps (events : list Event) (d : Daemon) : Prop :=
  match events with
  | [] => True
  | e :: rest =>
      (length (tasks (step d e)) <= 1)%nat ∧ neverOverlaps rest (step d e)
  end.

(** What holds of a reconciliation that awaits a session: the accounts
    it still has to add are distinct, and those it takes for new have
    no entry in the map. *)
Definition taskOk (m : AccountManager) (t : Task) : Prop :=
  match t with
  | AwaitAccounts _ => True
  | AwaitSession _ currentIds a _ rest =>
      (id a ∉ currentIds)
      ∧ NoDup (List.map id (a :: rest))
      ∧ ∀ a', a' ∈ a :: rest → id a' ∉ currentIds →
              mapGet (id a') (connections m) = None
  end.

Definition orderly (d : Daemon) : Prop :=
  consistent (manager d) ∧ (length (tasks d) <= 1)%nat
  ∧ Forall (taskOk (manager d)) (tasks d).

(** The daemon starts, loads two accounts one after the other, the
    connection of the first one fails once, a periodic reconciliation
    finds the second account gone, and the daemon is stopped. *)
Definition quietDay : list Event :=
  [CallStart; AccountsLoaded 0 (inr [accountX; accountY]);
   SessionLoaded 0 (Some sessionX); SessionLoaded 0 (Some sessionX);
   ClientEvent 0 EventSource.SourceOpen;
   ClientEvent 0 (EventSource.SourceError true);
   Tick; AccountsLoaded 0 (inr [accountX]);
   ClientEvent 0 (EventSource.TimerFires 0);
   CallStop].

(** The frame property of a reconciliation, in a state of the daemon:
    when a reconciliation is resumed with the session it awaited, an
    account that has an entry in the map and is among the accounts the
    reconciliation fetched keeps that entry. *)
Definition resumptionKeepsEntries (d : Daemon) : Prop :=
  ∀ task session fromStart currentIds a token rest id0 managed,
    tasks d !! task = Some (AwaitSession fromStart currentIds a token rest) →
    mapGet id0 (connections (manager d)) = Some managed →
    id0 ∈ List.map id (a :: rest) →
    mapGet id0 (connections (manager (step d (SessionLoaded task session))))
    = Some managed.

(** The frame property for every reconciliation of every run. *)
Definition cyclesLeaveManagedAccounts : Prop :=
  ∀ events, Forall distinctIds events →
            resumptionKeepsEntries (run events newDaemon).

(** The run of [overlappingRefreshes] up to the moment the first of
    the two reconciliations has added the account: the second one still
    awaits its session, with a snapshot of the map taken before. *)
Definition staleSnapshot : list Event :=
  [CallStart; AccountsLoaded 0 (inr []);
   Tick; AccountsLoaded 0 (inr [accountX]);
   Tick; AccountsLoaded 1 (inr [accountX]);
   SessionLoaded 0 (Some sessionX)].

(** The entry the first reconciliation has stored for the account. *)
Definition managedX : ManagedAccount :=
  {| emailAccountId := "acc-x"; managedEmail := "x@fastmail.example";
     client := 0; accessToken := "token-x"; refreshToken := Some "refresh-x";
     expiresAt := None |}.

(** [stop()] is called while [start()] still awaits the first
    reconciliation. *)
Definition stopDuringStart (accounts : string + list Account)
    (sessions : string -> option JMAPSession) : list Event :=
  [CallStart; CallStop; AccountsLoaded 0 accounts]
  ++ match accounts with
     | inl _ => []
     | inr accounts => sessionEvents sessions [] accounts
     end.

End ManagerRuns.

(** ** account-manager.ts: refresh of an access token *)

Module TokenRefresh.

Import Manager.

(** [env.FASTMAIL_CLIENT_ID] and [env.FASTMAIL_CLIENT_SECRET] *)
Record Env := {
  FASTMAIL_CLIENT_ID : option string;
  FASTMAIL_CLIENT_SECRET : option string;
}.

Record TokenResponse := {
  access_token : string;
  refresh_token : option string;
  expires_in : option Z;
}.

(** What the request to the token URL brings: [fetch] rejects, the
    response is not [ok], its body cannot be read as a token response,
    or the tokens. *)
Inductive TokenFetch :=
| FetchRejects
| NotOk (status : Z)
| JsonRejects
| Tokens (tokens : TokenResponse).

(** [handleTokenRefresh] running on its own; [now] is [Date.now()] once
    the response is read. The entry is the object [managed] of the
    map, which the function updates in place. *)
Definition handleTokenRefresh (env : Env) (now : Z) (fetch : TokenFetch)
    (emailAccountId : string) (m : AccountManager) : AccountManager :=
  match mapGet emailAccountId (connections m) with
  | None => m
  | Some managed =>
      if negb (Js.truthy_opt (refreshToken managed)) then m
      else if negb (Js.truthy_opt (FASTMAIL_CLIENT_ID env))
              || negb (Js.truthy_opt (FASTMAIL_CLIENT_SECRET env)) then m
      else
        match fetch with
        | Tokens tokens =>
            let newAccessToken := access_token tokens in
            let managed' :=
              {| Manager.emailAccountId := Manager.emailAccountId managed;
                 managedEmail := managedEmail managed;
                 client := client managed;
                 accessToken := newAccessToken;
                 refreshToken := if Js.truthy_opt (refresh_token tokens)
                                 then refresh_token tokens
                                 else refreshToken managed;
                 expiresAt := match expires_in tokens with
                              | Some seconds =>
                                  if (seconds =? 0)%Z then None
                                  else Some (now + seconds * 1000)%Z
                              | None => None
                              end |} in
            withClients
              (alter (EventSource.updateAccessToken newAccessToken) (client managed)
                     (clients m))
              (withConnections (mapSet emailAccountId managed' (connections m)) m)
        | FetchRejects | NotOk _ | JsonRejects => m
        end
  end.

Definition oauthEnv : Env :=
  {| FASTMAIL_CLIENT_ID := Some "client-id"; FASTMAIL_CLIENT_SECRET := Some "secret" |}.

Definition freshTokens : TokenResponse :=
  {| access_token := "token-x2"; refresh_token := None; expires_in := Some 3600%Z |}.

(** The manager holds the accounts x and y; the connection of x was
    established, then gave up, and waits for its first retry. *)
Definition retryingX : AccountManager :=
  manager (run [ClientEvent 0 EventSource.SourceOpen;
                ClientEvent 0 (EventSource.SourceError true)]
               {| manager := managingXY; tasks := [] |}).

End TokenRefresh.

(** * Properties *)

Module Sha256Facts.

Import Sha256.

(** *** Test vectors *)

Example sha256_empty :
  sha256_hex "" = "e3b0c44298fc1c149afbf4c8996fb92427ae41e4649b934ca495991b7852b855".
Proof. vm_compute. reflexivity. Qed.

Example sha256_abc :
  sha256_hex "abc" = "ba7816bf8f01cfea414140de5dae2223b00361a396177a9cb410ff61f20015ad".
Proof. vm_compute. reflexivity. Qed.

Example sha256_two_blocks :
  sha256_hex "abcdbcdecdefdefgefghfghighijhijkijkljklmklmnlmnomnopnopq"
  = "248d6a61d20638b8e5c026930c3e6039a33ce45964ff2167f6ecedd419db06c1".
Proof. vm_compute. reflexivity. Qed.

End Sha256Facts.

Module ThreadFacts.

Import Thread.

(** *** Properties of the normal form *)

Lemma filter_chars_all (p : ascii -> bool) (s : string) :
  Js.all_chars p (Js.filter_chars p s) = true.
Proof.
  induction s as [|c r IH]; simpl; [reflexivity|].
  destruct (p c) eqn:E; simpl; [rewrite E|]; exact IH.
Qed.

Lemma map_chars_all (p q : ascii -> bool) (f : ascii -> ascii) (s : string) :
  (forall c, p c = true -> q (f c) = true) ->
  Js.all_chars p s = true -> Js.all_chars q (Js.map_chars f s) = true.
Proof.
  intros Hf. induction s as [|c r IH]; simpl; [reflexivity|].
  intros [Hc Hr]%andb_true_iff. rewrite (Hf c Hc). simpl. exact (IH Hr).
Qed.

Lemma trimStart_all (p : ascii -> bool) (s : string) :
  Js.all_chars p s = true -> Js.all_chars p (Js.trimStart s) = true.
Proof.
  induction s as [|c r IH]; simpl; [reflexivity|].
  intros [Hc Hr]%andb_true_iff.
  destruct (Js.is_space c); [exact (IH Hr)|]. simpl. rewrite Hc. exact Hr.
Qed.

Lemma trimEnd_all (p : ascii -> bool) (s : string) :
  Js.all_chars p s = true -> Js.all_chars p (Js.trimEnd s) = true.
Proof.
  induction s as [|c r IH]; simpl; [reflexivity|].
  intros [Hc Hr]%andb_true_iff. specialize (IH Hr).
  destruct (Js.trimEnd r) as [|c' r'].
  - destruct (Js.is_space c); simpl; [reflexivity|]. rewrite Hc. reflexivity.
  - simpl in *. rewrite Hc. exact IH.
Qed.

Lemma lower_char_canonical (c : ascii) :
  negb (is_angle c) = true -> canonical_char (Js.lower_char c) = true.
Proof.
  destruct c as [[] [] [] [] [] [] [] []]; vm_compute; intros H;
    first [reflexivity | discriminate H].
Qed.

Lemma trimStart_head (s : string) : not_space (headChar (Js.trimStart s)).
Proof.
  induction s as [|c r IH]; simpl; [exact I|].
  destruct (Js.is_space c) eqn:E; [exact IH | exact E].
Qed.

Lemma trimEnd_head (s : string) :
  not_space (headChar s) -> not_space (headChar (Js.trimEnd s)).
Proof.
  destruct s as [|c r]; simpl; [trivial|]. intros Hc.
  destruct (Js.trimEnd r); [rewrite Hc|]; exact Hc.
Qed.

Lemma trimEnd_last (s : string) : not_space (lastChar (Js.trimEnd s)).
Proof.
  induction s as [|c r IH]; simpl; [exact I|].
  destruct (Js.trimEnd r) as [|c' r'] eqn:E.
  - destruct (Js.is_space c) eqn:Hc; simpl; [exact I | exact Hc].
  - change (lastChar (String c (String c' r')))
      with (match lastChar (String c' r') with Some d => Some d | None => Some c end).
    destruct (lastChar (String c' r')) eqn:L; [exact IH|].
    simpl in L. destruct (lastChar r'); discriminate L.
Qed.

(** The string that is hashed holds no angle bracket and no upper-case
    letter, and neither starts nor ends with white space. *)
Lemma normalize_canonical (messageId : string) :
  Js.all_chars canonical_char (normalize messageId) = true
  /\ not_space (headChar (normalize messageId))
  /\ not_space (lastChar (normalize messageId)).
Proof.
  unfold normalize, Js.trim. repeat split.
  - apply trimEnd_all, trimStart_all.
    apply (map_chars_all (fun c => negb (is_angle c))); [apply lower_char_canonical|].
    apply filter_chars_all.
  - apply trimEnd_head, trimStart_head.
  - apply trimEnd_last.
Qed.

Example hashToThreadId_ignores_brackets_case_and_margin :
  hashToThreadId " <ABC@Host.Example> " = hashToThreadId "abc@host.example".
Proof. vm_compute. reflexivity. Qed.

(** *** Claims *)

Ltac by_decide :=
  unfold shareThread;
  match goal with |- ?P => apply (bool_decide_unpack P) end;
  vm_compute; exact I.

(** C7. The thread id is derived with this precedence: a message with
    a (non-empty) In-Reply-To identifier gets the hash of that
    identifier; otherwise a message with reference identifiers gets the
    hash of the first reference; otherwise the hash of its own
    identifier. The hash is the prefix [thread_] followed by the first
    24 hexadecimal digits of the SHA-256 digest of the identifier with
    angle brackets removed, lower-cased and trimmed: the digested string
    holds no angle bracket and no upper-case letter and has no white
    space at either end. *)
Theorem generateThreadId_precedence
    (messageId : string) (inReplyTo : option string)
    (references : list string) (subject : string) :
  (forall irt, inReplyTo = Some irt -> irt <> "" ->
     generateThreadId messageId inReplyTo references subject = hashToThreadId irt)
  /\ (Js.truthy_opt inReplyTo = false ->
      forall r rest, references = r :: rest ->
      generateThreadId messageId inReplyTo references subject = hashToThreadId r)
  /\ (Js.truthy_opt inReplyTo = false -> references = [] ->
      generateThreadId messageId inReplyTo references subject
      = hashToThreadId messageId)
  /\ (forall x,
        hashToThreadId x = "thread_" ++ Js.take 24 (Sha256.sha256_hex (normalize x))
        /\ normalize x
           = Js.trim (Js.toLowerCase (Js.filter_chars (fun c => negb (is_angle c)) x))
        /\ Js.all_chars (fun c => negb (is_angle c) && negb (Js.is_upper c))
                        (normalize x) = true
        /\ not_space (headChar (normalize x))
        /\ not_space (lastChar (normalize x))).
Proof.
  unfold generateThreadId. split; [|split; [|split]].
  - intros irt -> Hne. destruct irt as [|c r]; [contradiction|reflexivity].
  - intros Hfalsy r rest ->. destruct inReplyTo as [irt|]; [|reflexivity].
    simpl in Hfalsy. rewrite Hfalsy. reflexivity.
  - intros Hfalsy ->. destruct inReplyTo as [irt|]; [|reflexivity].
    simpl in Hfalsy. rewrite Hfalsy. reflexivity.
  - intros x. split; [reflexivity|]. split; [reflexivity|].
    apply (normalize_canonical x).
Qed.

Lemma generateThreadId_precedence_witness :
  generateThreadId "<m@x>" (Some "<p@x>") ["<r@x>"; "<p@x>"] "Re: s"
    = hashToThreadId "<p@x>"
  /\ generateThreadId "<m@x>" None ["<r@x>"; "<p@x>"] "Re: s" = hashToThreadId "<r@x>"
  /\ generateThreadId "<m@x>" (Some "") [] "s" = hashToThreadId "<m@x>".
Proof.
  split; [|split].
  - destruct (generateThreadId_precedence
                "<m@x>" (Some "<p@x>") ["<r@x>"; "<p@x>"] "Re: s") as (H & _).
    apply H; [reflexivity | discriminate].
  - destruct (generateThreadId_precedence
                "<m@x>" None ["<r@x>"; "<p@x>"] "Re: s") as (_ & H & _).
    apply (H eq_refl "<r@x>" ["<p@x>"]). reflexivity.
  - destruct (generateThreadId_precedence "<m@x>" (Some "") [] "s") as (_ & _ & H & _).
    apply H; reflexivity.
Defined.

Lemma newest_first_chain :
  refersTo msgD msgA /\ refersTo msgA msgB /\ refersTo msgB msgC.
Proof. repeat split; left; reflexivity. Qed.

Example oldest_first_is_grouped :
  shareThread (groupMessagesIntoThreads oldestFirst) [msgD; msgA; msgB; msgC].
Proof. by_decide. Qed.

(** C1. The claim asks that every batch is grouped into transitively
    closed threads. The batch [newestFirst] (a reply chain d -> a -> b
    -> c listed newest first, with the thread ids [generateThreadId]
    assigns) is not: [msgD] ends alone under the thread id of [msgA],
    while [msgA] and [msgB] end under the thread id of [msgC]. *)
Theorem groupMessagesIntoThreads_newest_first_not_closed :
  List.map (fun kv => (kv.1, List.map messageId kv.2))
           (groupMessagesIntoThreads newestFirst)
  = [(threadId msgA, ["<d@x>"]);
     (threadId msgC, ["<c@x>"; "<b@x>"; "<a@x>"])]
  /\ threadId msgA <> threadId msgC
  /\ ~ transitivelyClosed newestFirst.
Proof.
  split; [vm_compute; reflexivity|]. split; [vm_compute; discriminate|].
  intros Hclosed.
  destruct newest_first_chain as (HDA & HAB & _).
  assert (HD : msgD ∈ newestFirst) by by_decide.
  assert (HA : msgA ∈ newestFirst) by by_decide.
  assert (HB : msgB ∈ newestFirst) by by_decide.
  specialize (Hclosed msgD msgA msgB HD HA HB HDA HAB).
  revert Hclosed. unfold shareThread.
  match goal with |- ?P -> False => apply (bool_decide_eq_false_1 P) end.
  vm_compute. reflexivity.
Qed.

End ThreadFacts.

Module LabelsFacts.

Import Labels.

(** *** Claims *)

Example keywordToLabel_reserved :
  List.map keywordToLabel reservedKeywords
  = ["PROCESSED"; "AI_DRAFT"; "AWAITING_REPLY"; "NEEDS_REPLY"; "COLD_EMAIL"; "NEWSLETTER"].
Proof. reflexivity. Qed.

Example reservedKeywords_values :
  reservedKeywords
  = ["IZ_Processed"; "IZ_AIDraft"; "IZ_AwaitingReply"; "IZ_NeedsReply";
     "IZ_ColdEmail"; "IZ_Newsletter"].
Proof. reflexivity. Qed.

(** C8. For every reserved keyword [k] (every value of
    [INBOX_ZERO_LABELS]), [labelToKeyword (keywordToLabel k) = k]. *)
Theorem labelToKeyword_keywordToLabel_reserved (k : string) :
  In k reservedKeywords -> labelToKeyword (keywordToLabel k) = k.
Proof.
  unfold reservedKeywords. simpl.
  intros [<-|[<-|[<-|[<-|[<-|[<-|[]]]]]]]; reflexivity.
Qed.

Lemma labelToKeyword_keywordToLabel_reserved_witness :
  In "IZ_AwaitingReply" reservedKeywords
  /\ labelToKeyword (keywordToLabel "IZ_AwaitingReply") = "IZ_AwaitingReply".
Proof.
  assert (H : In "IZ_AwaitingReply" reservedKeywords)
    by (right; right; left; reflexivity).
  split; [exact H | exact (labelToKeyword_keywordToLabel_reserved _ H)].
Defined.

(** C9. When the capabilities report no keyword support and no message
    id is supplied ([undefined], or the empty string, which the test
    [if (messageId)] treats alike), [smartAddLabel] and
    [smartRemoveLabel] throw their error: against every server, no
    command is sent and the outcome is the error. *)
Theorem smart_label_without_keywords_or_messageId_throws
    (uid : Z) (label folder : string) (capabilities : ImapCapabilities)
    (messageId : option string) (server : Server) :
  supportsKeywords capabilities = false ->
  Js.truthy_opt messageId = false ->
  smartAddLabel uid label capabilities folder messageId
    = Throw "Cannot add label without keyword support and no message ID provided"
  /\ smartRemoveLabel uid label capabilities folder messageId
    = Throw "Cannot remove label without keyword support and no message ID provided"
  /\ run server (smartAddLabel uid label capabilities folder messageId)
    = ([], inl "Cannot add label without keyword support and no message ID provided")
  /\ run server (smartRemoveLabel uid label capabilities folder messageId)
    = ([], inl "Cannot remove label without keyword support and no message ID provided").
Proof.
  intros Hcaps Hmid. unfold smartAddLabel, smartRemoveLabel.
  rewrite Hcaps, Hmid.
  destruct messageId as [mid|]; simpl in Hmid; [rewrite Hmid|]; repeat split.
Qed.

Lemma smart_label_without_keywords_or_messageId_throws_witness :
  run acceptingServer (smartAddLabel 42 "Archived" noKeywords "INBOX" None)
    = ([], inl "Cannot add label without keyword support and no message ID provided")
  /\ run acceptingServer (smartRemoveLabel 42 "Archived" noKeywords "INBOX" None)
    = ([], inl "Cannot remove label without keyword support and no message ID provided").
Proof.
  destruct (smart_label_without_keywords_or_messageId_throws
              42 "Archived" "INBOX" noKeywords None acceptingServer
              eq_refl eq_refl) as (_ & _ & Hadd & Hremove).
  split; [exact Hadd | exact Hremove].
Defined.

(** With a message id the folder fallback runs instead. *)
Example smartAddLabel_folder_fallback :
  (run acceptingServer
     (smartAddLabel 42 "Archived" noKeywords "INBOX" (Some "<m@x>"))).1
  = [GetOrCreateFolder "Labels/Archived"; OpenBox "INBOX"; Copy 42 "Labels/Archived"].
Proof. reflexivity. Qed.

End LabelsFacts.

Module WebhookFacts.

Import Webhook.

(** *** The loop *)

Lemma retryLoop_returns (left attempt k : nat) (fetch : nat -> FetchOutcome) (b : bool) :
  (k < left)%nat ->
  (forall j, (j < k)%nat -> retryable (fetch (attempt + j)%nat)) ->
  tryBlock (fetch (attempt + k)%nat) = Return b ->
  retryLoop left attempt fetch
  = (b, (failedIterations k attempt ++ [Fetch (attempt + k)])%list).
Proof.
  revert left attempt. induction k as [|k IH]; intros left attempt Hlt Hretry Hret.
  - destruct left as [|left]; [lia|]. simpl.
    rewrite Nat.add_0_r in Hret. rewrite Hret. rewrite Nat.add_0_r. reflexivity.
  - destruct left as [|left]; [lia|]. simpl.
    pose proof (Hretry 0%nat ltac:(lia)) as H0. rewrite Nat.add_0_r in H0.
    unfold retryable in H0. rewrite H0.
    rewrite (IH left (S attempt)).
    + simpl. rewrite <- app_assoc. rewrite Nat.add_succ_r. reflexivity.
    + lia.
    + intros j Hj. specialize (Hretry (S j) ltac:(lia)).
      rewrite Nat.add_succ_r in Hretry. exact Hretry.
    + rewrite Nat.add_succ_r in Hret. exact Hret.
Qed.

Lemma retryLoop_exhausted (left attempt : nat) (fetch : nat -> FetchOutcome) :
  (forall j, (j < left)%nat -> retryable (fetch (attempt + j)%nat)) ->
  retryLoop left attempt fetch = (false, failedIterations left attempt).
Proof.
  revert attempt. induction left as [|left IH]; intros attempt Hretry; [reflexivity|].
  simpl. pose proof (Hretry 0%nat ltac:(lia)) as H0. rewrite Nat.add_0_r in H0.
  unfold retryable in H0. rewrite H0. rewrite IH; [reflexivity|].
  intros j Hj. specialize (Hretry (S j) ltac:(lia)).
  rewrite Nat.add_succ_r in Hretry. exact Hretry.
Qed.

(** Every run performs a prefix of [fullTrace] that ends with a request. *)
Lemma callWebhook_trace (fetch : nat -> FetchOutcome) :
  exists n, (1 <= n <= 4)%nat /\ (callWebhook fetch).2 = firstn (2 * n - 1) fullTrace.
Proof.
  unfold callWebhook. simpl.
  destruct (tryBlock (fetch 0%nat)); [exists 1%nat; split; [lia|reflexivity]|].
  destruct (tryBlock (fetch 1%nat)); [exists 2%nat; split; [lia|reflexivity]|].
  destruct (tryBlock (fetch 2%nat)); [exists 3%nat; split; [lia|reflexivity]|].
  destruct (tryBlock (fetch 3%nat)); exists 4%nat; (split; [lia|reflexivity]).
Qed.

Lemma serverError_retryable (o : FetchOutcome) : serverError o -> retryable o.
Proof.
  intros [->|(status & textOk & -> & Hst)]; [reflexivity|].
  unfold retryable, tryBlock, ok.
  replace (status <=? 299)%Z with false by (symmetry; apply Z.leb_gt; lia).
  replace (status <? 500)%Z with false by (symmetry; apply Z.ltb_ge; lia).
  rewrite !andb_false_r. reflexivity.
Qed.

Lemma retryLoop_prefix (left attempt k : nat) (fetch : nat -> FetchOutcome) :
  (k < left)%nat ->
  (forall j, (j < k)%nat -> retryable (fetch (attempt + j)%nat)) ->
  exists rest,
    (retryLoop left attempt fetch).2
    = (failedIterations k attempt ++ Fetch (attempt + k) :: rest)%list.
Proof.
  revert left attempt. induction k as [|k IH]; intros left attempt Hlt Hretry.
  - destruct left as [|left]; [lia|]. simpl. rewrite Nat.add_0_r.
    destruct (tryBlock (fetch attempt)); eexists; reflexivity.
  - destruct left as [|left]; [lia|]. simpl.
    pose proof (Hretry 0%nat ltac:(lia)) as H0. rewrite Nat.add_0_r in H0.
    unfold retryable in H0. rewrite H0.
    destruct (IH left (S attempt)) as [rest Hrest]; [lia| |].
    + intros j Hj. specialize (Hretry (S j) ltac:(lia)).
      rewrite Nat.add_succ_r in Hretry. exact Hretry.
    + exists rest. simpl. rewrite Hrest, <- app_assoc, Nat.add_succ_r. reflexivity.
Qed.

Lemma attempts_app (t u : list Effect) : attempts (t ++ u) = (attempts t + attempts u)%nat.
Proof.
  induction t as [|[n|ms] t IH]; simpl; [reflexivity| |]; rewrite IH; reflexivity.
Qed.

Lemma attempts_failedIterations (n attempt : nat) :
  attempts (failedIterations n attempt) = n.
Proof.
  revert attempt. induction n as [|n IH]; intros attempt; [reflexivity|].
  simpl. rewrite attempts_app, IH. unfold backoff.
  destruct (attempt <? MAX_RETRIES)%nat; reflexivity.
Qed.

(** *** Claims *)

(** C4. The claim asks that a response with a status in 400-499 ends
    the call with [false] and no further request, as the comment
    "Non-retryable error" on that branch says. The text of the response
    is awaited inside the [try] block, though: a 404 whose body cannot
    be read is caught by the [catch] block like a network failure, the
    request is sent again one second later, and the 200 it then receives
    makes the call succeed. *)
Lemma clientError_with_unreadable_body_is_retried :
  callWebhook (outcomes [Response 404 false; Response 200 true])
  = (true, [Fetch 0; Sleep 1000; Fetch 1])
  /\ ~ clientErrorAlwaysTerminal.
Proof.
  split; [reflexivity|]. intros Hclaim.
  destruct (Hclaim (outcomes [Response 404 false; Response 200 true])
              0%nat 404%Z false) as [Hres _].
  - unfold MAX_RETRIES. lia.
  - intros j Hj. lia.
  - reflexivity.
  - lia.
  - discriminate Hres.
Qed.

(** The retry policy that does hold. A response with a status in
    400-499 whose error text is read makes [callWebhook] return [false]
    at once, with no further request. A failed request (network failure
    or status 500 and above) is followed, while fewer than 4 requests
    were sent, by a sleep of 1s, 2s, 4s and the next request; every run
    is a prefix of request, 1s, request, 2s, request, 4s, request, so
    that at most 4 requests are sent. When requests 1-3 receive 500 and
    request 4 receives 200, the result is [true] after the delays 1s,
    2s, 4s. *)
Theorem callWebhook_retry_policy (fetch : nat -> FetchOutcome) :
  (forall k status,
      (k <= MAX_RETRIES)%nat ->
      (forall j, (j < k)%nat -> retryable (fetch j)) ->
      fetch k = Response status true ->
      (400 <= status <= 499)%Z ->
      callWebhook fetch = (false, (failedIterations k 0 ++ [Fetch k])%list)
      /\ attempts (callWebhook fetch).2 = S k)
  /\ (forall k,
      (k < MAX_RETRIES)%nat ->
      (forall j, (j <= k)%nat -> serverError (fetch j)) ->
      exists rest,
        (callWebhook fetch).2
        = (failedIterations k 0
             ++ Fetch k :: Sleep (1000 * 2 ^ Z.of_nat k) :: Fetch (S k) :: rest)%list)
  /\ (exists n, (1 <= n <= 4)%nat
                /\ (callWebhook fetch).2 = firstn (2 * n - 1) fullTrace)
  /\ (attempts (callWebhook fetch).2 <= 4)%nat
  /\ (forall t0 t1 t2 t3,
      fetch 0%nat = Response 500 t0 -> fetch 1%nat = Response 500 t1 ->
      fetch 2%nat = Response 500 t2 -> fetch 3%nat = Response 200 t3 ->
      callWebhook fetch = (true, fullTrace)
      /\ delays (callWebhook fetch).2 = [1000; 2000; 4000]%Z).
Proof.
  split; [|split; [|split; [|split]]].
  - intros k status Hk Hretry Hfetch Hstatus.
    assert (Hret : tryBlock (fetch (0 + k)%nat) = Return false).
    { simpl. rewrite Hfetch. unfold tryBlock, ok.
      replace (status <=? 299)%Z with false by (symmetry; apply Z.leb_gt; lia).
      replace (400 <=? status)%Z with true by (symmetry; apply Z.leb_le; lia).
      replace (status <? 500)%Z with true by (symmetry; apply Z.ltb_lt; lia).
      rewrite andb_false_r. reflexivity. }
    assert (Heq : callWebhook fetch = (false, (failedIterations k 0 ++ [Fetch k])%list)).
    { unfold callWebhook.
      rewrite (retryLoop_returns (MAX_RETRIES + 1) 0 k fetch false); auto.
      unfold MAX_RETRIES in *. lia. }
    split; [exact Heq|]. rewrite Heq. simpl.
    rewrite attempts_app, attempts_failedIterations. simpl. lia.
  - intros k Hk Herr. unfold callWebhook.
    destruct (retryLoop_prefix (MAX_RETRIES + 1) 0 (S k) fetch) as [rest Hrest].
    + unfold MAX_RETRIES in *. lia.
    + intros j Hj. apply serverError_retryable, Herr. simpl. lia.
    + exists rest. rewrite Hrest. clear Hrest. simpl plus.
      assert (Hsplit : forall n a,
                 failedIterations (S n) a
                 = (failedIterations n a ++ Fetch (a + n) :: backoff (a + n))%list).
      { induction n as [|n IH]; intros a.
        - simpl. rewrite Nat.add_0_r, app_nil_r. reflexivity.
        - change (failedIterations (S (S n)) a)
            with (Fetch a :: backoff a ++ failedIterations (S n) (S a))%list.
          rewrite IH. simpl. rewrite <- app_assoc, Nat.add_succ_r. reflexivity. }
      rewrite Hsplit, <- app_assoc. simpl. unfold backoff.
      replace (k <? MAX_RETRIES)%nat with true by (symmetry; apply Nat.ltb_lt; lia).
      reflexivity.
  - apply callWebhook_trace.
  - destruct (callWebhook_trace fetch) as (n & Hn & ->).
    assert (Hcases : n = 1%nat \/ n = 2%nat \/ n = 3%nat \/ n = 4%nat) by lia.
    destruct Hcases as [->|[->|[->| ->]]]; simpl; lia.
  - intros t0 t1 t2 t3 H0 H1 H2 H3. unfold callWebhook. simpl.
    rewrite H0, H1, H2, H3. simpl. split; reflexivity.
Qed.

Example callWebhook_retry_policy_scenarios :
  callWebhook (outcomes [NetworkError; Response 403 true; Response 200 true])
    = (false, [Fetch 0; Sleep 1000; Fetch 1])
  /\ (exists rest,
        (callWebhook (outcomes [Response 503 true; NetworkError; Response 200 true])).2
        = ([Fetch 0; Sleep 1000] ++ Fetch 1 :: Sleep 2000 :: Fetch 2 :: rest)%list)
  /\ callWebhook (outcomes [Response 500 true; Response 500 true;
                             Response 500 true; Response 200 true])
    = (true, fullTrace).
Proof.
  split; [|split].
  - destruct (callWebhook_retry_policy
                (outcomes [NetworkError; Response 403 true; Response 200 true]))
      as (H & _).
    destruct (H 1%nat 403%Z) as [Heq _].
    + unfold MAX_RETRIES. lia.
    + intros j Hj. assert (j = 0%nat) as -> by lia. reflexivity.
    + reflexivity.
    + lia.
    + exact Heq.
  - destruct (callWebhook_retry_policy
                (outcomes [Response 503 true; NetworkError; Response 200 true]))
      as (_ & H & _).
    apply (H 1%nat).
    + unfold MAX_RETRIES. lia.
    + intros j Hj. assert (Hcases : j = 0%nat \/ j = 1%nat) by lia.
      destruct Hcases as [-> | ->].
      * right. exists 503%Z, true. split; [reflexivity|lia].
      * left. reflexivity.
  - destruct (callWebhook_retry_policy
                (outcomes [Response 500 true; Response 500 true;
                           Response 500 true; Response 200 true]))
      as (_ & _ & _ & _ & H).
    apply (H true true true true); reflexivity.
Defined.

End WebhookFacts.

Module EventSourceFacts.

Import EventSource.

Lemma extends_refl P c : extends P c c.
Proof. exists []. split; [symmetry; apply app_nil_r | constructor]. Qed.

Lemma extends_same_log P c c' : log c' = log c -> extends P c c'.
Proof.
  intros H. exists []. split; [rewrite H; symmetry; apply app_nil_r | constructor].
Qed.

Lemma extends_trans P c1 c2 c3 : extends P c1 c2 -> extends P c2 c3 -> extends P c1 c3.
Proof.
  intros (n1 & H1 & F1) (n2 & H2 & F2). exists (n1 ++ n2)%list. split.
  - rewrite H2, H1, app_assoc. reflexivity.
  - apply Forall_app. split; assumption.
Qed.

Lemma extends_emit (P : Effect -> Prop) e c : P e -> extends P c (emit e c).
Proof. intros He. exists [e]. split; [reflexivity | repeat constructor; exact He]. Qed.

Lemma scheduledDelays_app (l l' : list Effect) :
  scheduledDelays (l ++ l') = (scheduledDelays l ++ scheduledDelays l')%list.
Proof.
  induction l as [|e l IH]; [reflexivity|].
  destruct e; simpl; rewrite IH; reflexivity.
Qed.

Lemma reconnectDelay_attempt (n : nat) : reconnectDelay n = delayOfAttempt (S n).
Proof.
  unfold reconnectDelay, delayOfAttempt, baseReconnectDelay, maxReconnectDelay.
  replace (Z.of_nat (S n) - 1)%Z with (Z.of_nat n) by lia. reflexivity.
Qed.

(** *** One call of [handleDisconnect] *)

Lemma handleDisconnect_schedules (c : Client) :
  closed c = false -> (reconnectAttempts c < maxReconnectAttempts)%nat ->
  handleDisconnect c
  = setReconnectTimeout (reconnectDelay (reconnectAttempts c))
      (setReconnectAttempts (S (reconnectAttempts c)) (emit OnDisconnected c)).
Proof.
  intros Hopen Hlt. unfold handleDisconnect.
  cbn [emit closed reconnectAttempts]. rewrite Hopen.
  replace (maxReconnectAttempts <=? reconnectAttempts c)%nat with false
    by (symmetry; apply Nat.leb_gt; exact Hlt).
  reflexivity.
Qed.

Lemma handleDisconnect_gives_up (c : Client) :
  closed c = false -> (maxReconnectAttempts <= reconnectAttempts c)%nat ->
  handleDisconnect c
  = emit (OnError "Max reconnect attempts reached") (emit OnDisconnected c).
Proof.
  intros Hopen Hge. unfold handleDisconnect.
  cbn [emit closed reconnectAttempts]. rewrite Hopen.
  replace (maxReconnectAttempts <=? reconnectAttempts c)%nat with true
    by (symmetry; apply Nat.leb_le; exact Hge).
  reflexivity.
Qed.

Lemma handleDisconnect_closed (c : Client) :
  closed c = true -> handleDisconnect c = emit OnDisconnected c.
Proof. intros Hc. unfold handleDisconnect. cbn [emit closed]. rewrite Hc. reflexivity. Qed.

(** *** After [close()] *)

Lemma quiet_trans c1 c2 c3 : quiet c1 c2 -> quiet c2 c3 -> quiet c1 c3.
Proof.
  intros (_ & T1 & E1) (Hclosed & T2 & E2). repeat split; [exact Hclosed| |].
  - etrans; eassumption.
  - eapply extends_trans; eassumption.
Qed.

Lemma clearReconnectTimeout_quiet (c : Client) :
  closed c = true -> quiet c (clearReconnectTimeout c).
Proof.
  intros Hc. unfold clearReconnectTimeout.
  destruct (reconnectTimeout c) as [h|].
  - repeat split; simpl; [exact Hc | apply delete_subseteq |].
    exists [Cleared h]. split; [reflexivity | repeat constructor].
  - repeat split; [exact Hc | reflexivity | apply extends_refl].
Qed.

Lemma disconnect_quiet (c : Client) : closed c = true -> quiet c (disconnect c).
Proof.
  intros Hc. unfold disconnect.
  pose proof (clearReconnectTimeout_quiet c Hc) as Hq.
  destruct (eventSource (clearReconnectTimeout c)); [|exact Hq].
  eapply quiet_trans; [exact Hq|].
  destruct Hq as (Hc' & _ & _).
  repeat split; simpl; [exact Hc' | reflexivity |].
  exists [SourceClosed]. split; [reflexivity | repeat constructor].
Qed.

Lemma connect_closed (c : Client) : closed c = true -> connect c = c.
Proof. intros Hc. unfold connect. rewrite Hc. reflexivity. Qed.

Lemma quiet_refl (c : Client) : closed c = true -> quiet c c.
Proof. intros Hc. repeat split; [exact Hc | reflexivity | apply extends_refl]. Qed.

Lemma step_quiet (c : Client) (e : Event) : closed c = true -> quiet c (step c e).
Proof.
  intros Hc. destruct e as [| | |t| |gaveUp|h]; simpl.
  - rewrite connect_closed by exact Hc. apply quiet_refl, Hc.
  - apply disconnect_quiet, Hc.
  - unfold close.
    assert (Hq : quiet (setClosed true c) (disconnect (setClosed true c)))
      by (apply disconnect_quiet; reflexivity).
    exact Hq.
  - unfold updateAccessToken.
    pose proof (disconnect_quiet c Hc) as Hq.
    assert (Hq' : quiet c (setAccessToken t (disconnect c))).
    { destruct Hq as (H1 & H2 & H3). repeat split; assumption. }
    destruct (isConnected c); [|exact Hq'].
    rewrite connect_closed; [|apply Hq].
    destruct Hq' as (H1 & H2 & H3). repeat split; assumption.
  - destruct (eventSource c) as [[| |]|]; try (apply quiet_refl, Hc).
    unfold onopen. repeat split; simpl; [exact Hc | reflexivity |].
    exists [OnConnected]. split; [reflexivity | repeat constructor].
  - assert (Hq : quiet c (onerror gaveUp c)).
    { unfold onerror. destruct gaveUp.
      - rewrite handleDisconnect_closed by exact Hc.
        repeat split; simpl; [exact Hc | reflexivity |].
        exists [OnDisconnected]. split; [reflexivity | repeat constructor].
      - repeat split; simpl; [exact Hc | reflexivity |].
        apply extends_same_log. reflexivity. }
    destruct (eventSource c) as [[| |]|]; try exact Hq; apply quiet_refl, Hc.
  - destruct (timers c !! h); [|apply quiet_refl, Hc].
    unfold fire. rewrite connect_closed by exact Hc.
    repeat split; simpl; [exact Hc | apply delete_subseteq |].
    apply extends_same_log. reflexivity.
Qed.

Lemma run_quiet (events : list Event) (c : Client) :
  closed c = true -> quiet c (run events c).
Proof.
  revert c. induction events as [|e events IH]; intros c Hc.
  - apply quiet_refl, Hc.
  - simpl. pose proof (step_quiet c e Hc) as Hq.
    eapply quiet_trans; [exact Hq|]. apply IH, Hq.
Qed.

Lemma close_closed (c : Client) : closed (close c) = true.
Proof. apply (disconnect_quiet (setClosed true c)). reflexivity. Qed.

(** *** A streak of failed connections *)

Ltac client_fields :=
  unfold setReconnectTimeout, setReconnectAttempts, setEventSource, setClosed,
    setAccessToken, emit;
  cbn [emailAccountId accessToken eventSource reconnectAttempts reconnectTimeout
       closed timers nextTimer log].

Lemma failure_reconnects (c : Client) :
  closed c = false -> eventSource c = Some CONNECTING ->
  (reconnectAttempts c < maxReconnectAttempts)%nat ->
  closed (failure c) = false
  /\ eventSource (failure c) = Some CONNECTING
  /\ reconnectTimeout (failure c) = None
  /\ reconnectAttempts (failure c) = S (reconnectAttempts c)
  /\ log (failure c)
     = (log c ++ [OnDisconnected;
                  Scheduled (nextTimer c) (reconnectDelay (reconnectAttempts c));
                  Cleared (nextTimer c); SourceClosed; Opened (accessToken c)])%list.
Proof.
  intros Hopen Hes Hlt. unfold failure, step. rewrite Hes. unfold onerror.
  rewrite handleDisconnect_schedules by assumption.
  client_fields. rewrite lookup_insert_eq. unfold fire, connect.
  client_fields. rewrite Hopen.
  unfold disconnect, clearReconnectTimeout. client_fields.
  repeat split. rewrite <- !app_assoc. reflexivity.
Qed.

Lemma failure_gives_up (c : Client) :
  closed c = false -> eventSource c = Some CONNECTING ->
  reconnectTimeout c = None ->
  (maxReconnectAttempts <= reconnectAttempts c)%nat ->
  eventSource (failure c) = Some CLOSED
  /\ reconnectTimeout (failure c) = None
  /\ log (failure c)
     = (log c ++ [OnDisconnected; OnError "Max reconnect attempts reached"])%list.
Proof.
  intros Hopen Hes Hnone Hge. unfold failure, step. rewrite Hes. unfold onerror.
  rewrite handleDisconnect_gives_up by assumption.
  client_fields. rewrite Hnone. client_fields.
  repeat split. rewrite <- app_assoc. reflexivity.
Qed.

Lemma failure_dead (c : Client) :
  eventSource c = Some CLOSED -> reconnectTimeout c = None -> failure c = c.
Proof.
  intros Hes Hnone. unfold failure, step. rewrite Hes, Hnone. reflexivity.
Qed.

Lemma failures_S (n : nat) (c : Client) : failures (S n) c = failure (failures n c).
Proof. reflexivity. Qed.

Lemma failures_add (k n : nat) (c : Client) :
  failures (k + n) c = failures k (failures n c).
Proof. apply Nat.iter_add. Qed.

Lemma failures_dead (k : nat) (c : Client) :
  eventSource c = Some CLOSED -> reconnectTimeout c = None -> failures k c = c.
Proof.
  intros Hes Hnone. induction k as [|k IH]; [reflexivity|].
  rewrite failures_S, IH. apply failure_dead; assumption.
Qed.

#[local] Opaque failure failures.

Lemma failures_within_cap (n : nat) (c : Client) :
  closed c = false -> eventSource c = Some CONNECTING ->
  reconnectTimeout c = None -> reconnectAttempts c = 0%nat ->
  (n <= maxReconnectAttempts)%nat ->
  closed (failures n c) = false
  /\ eventSource (failures n c) = Some CONNECTING
  /\ reconnectTimeout (failures n c) = None
  /\ reconnectAttempts (failures n c) = n
  /\ scheduledDelays (log (failures n c))
     = (scheduledDelays (log c) ++ List.map delayOfAttempt (seq 1 n))%list.
Proof.
  intros Hopen Hes Hnone Hzero. induction n as [|n IH]; intros Hn.
  - change (failures 0 c) with c. simpl. rewrite app_nil_r.
    split; [exact Hopen|]. split; [exact Hes|]. split; [exact Hnone|].
    split; [exact Hzero|reflexivity].
  - destruct IH as (H1 & H2 & H3 & H4 & H5); [lia|].
    rewrite failures_S.
    destruct (failure_reconnects (failures n c) H1 H2) as (G1 & G2 & G3 & G4 & G5);
      [rewrite H4; exact Hn|].
    split; [exact G1|]. split; [exact G2|]. split; [exact G3|].
    split; [rewrite G4, H4; reflexivity|].
    rewrite G5, scheduledDelays_app, H5, <- app_assoc. f_equal.
    rewrite seq_S, List.map_app. cbn [scheduledDelays List.map].
    rewrite H4, reconnectDelay_attempt. reflexivity.
Qed.

Lemma failures_beyond_cap (k : nat) (c : Client) :
  closed c = false -> eventSource c = Some CONNECTING ->
  reconnectTimeout c = None -> reconnectAttempts c = 0%nat ->
  scheduledDelays (log (failures (k + S maxReconnectAttempts) c))
  = (scheduledDelays (log c)
       ++ List.map delayOfAttempt (seq 1 maxReconnectAttempts))%list.
Proof.
  intros Hopen Hes Hnone Hzero.
  destruct (failures_within_cap maxReconnectAttempts c Hopen Hes Hnone Hzero)
    as (H1 & H2 & H3 & H4 & H5); [reflexivity|].
  destruct (failure_gives_up (failures maxReconnectAttempts c) H1 H2 H3)
    as (G1 & G2 & G3); [rewrite H4; reflexivity|].
  rewrite failures_add, failures_S, failures_dead by assumption.
  rewrite G3, scheduledDelays_app, H5. cbn [scheduledDelays].
  rewrite app_nil_r. reflexivity.
Qed.

Lemma failures_delays (n : nat) (c : Client) :
  closed c = false -> eventSource c = Some CONNECTING ->
  reconnectTimeout c = None -> reconnectAttempts c = 0%nat ->
  scheduledDelays (log (failures n c))
  = (scheduledDelays (log c)
       ++ List.map delayOfAttempt (seq 1 (Nat.min n maxReconnectAttempts)))%list.
Proof.
  intros Hopen Hes Hnone Hzero.
  destruct (Nat.le_gt_cases n maxReconnectAttempts) as [Hle|Hgt].
  - rewrite Nat.min_l by exact Hle. apply failures_within_cap; assumption.
  - rewrite Nat.min_r by lia.
    replace n with ((n - S maxReconnectAttempts) + S maxReconnectAttempts)%nat by lia.
    apply failures_beyond_cap; assumption.
Qed.

#[local] Transparent failure failures.

(** *** Pending timers *)

Lemma disconnect_fields (c : Client) :
  timersOwned c ->
  timers (disconnect c) = ∅ /\ reconnectTimeout (disconnect c) = None
  /\ eventSource (disconnect c) = None
  /\ closed (disconnect c) = closed c
  /\ accessToken (disconnect c) = accessToken c
  /\ reconnectAttempts (disconnect c) = reconnectAttempts c
  /\ extends quietEffect c (disconnect c).
Proof.
  intros Hinv. unfold disconnect, clearReconnectTimeout.
  destruct Hinv as [Hempty|(h & d & Hsingle & Hh & Hes)].
  - destruct (reconnectTimeout c) as [h|] eqn:Hrt; client_fields.
    + rewrite Hempty, delete_empty.
      destruct (eventSource c); client_fields; repeat split;
        eexists; (split; [try rewrite <- app_assoc; reflexivity | repeat constructor]).
    + destruct (eventSource c) eqn:Hes; client_fields; rewrite ?Hrt, ?Hes;
        repeat split; try assumption;
        first [ apply extends_refl
              | exists [SourceClosed]; split; [reflexivity | repeat constructor] ].
  - rewrite Hh. client_fields. rewrite Hes, Hsingle, delete_singleton_eq.
    client_fields. repeat split.
    exists [Cleared h; SourceClosed].
    split; [rewrite <- app_assoc; reflexivity | repeat constructor].
Qed.

Lemma timersOwned_of_empty (c : Client) : timers c = ∅ -> timersOwned c.
Proof. intros H. left. exact H. Qed.

Lemma connect_timers (c : Client) : timersOwned c -> timersOwned (connect c).
Proof.
  intros Hinv. unfold connect. destruct (closed c); [exact Hinv|].
  apply timersOwned_of_empty. client_fields.
  destruct (eventSource c) eqn:Hes.
  - apply disconnect_fields, Hinv.
  - destruct Hinv as [Hempty|(h & d & _ & _ & Hes')]; [exact Hempty|congruence].
Qed.

Lemma handleDisconnect_timers (c : Client) :
  timers c = ∅ -> eventSource c = Some CLOSED -> timersOwned (handleDisconnect c).
Proof.
  intros Hempty Hes. unfold handleDisconnect. client_fields.
  destruct (closed c); [left; exact Hempty|].
  destruct (maxReconnectAttempts <=? reconnectAttempts c)%nat;
    client_fields; [left; exact Hempty|].
  right. exists (nextTimer c), (reconnectDelay (reconnectAttempts c)).
  rewrite Hempty. repeat split. exact Hes.
Qed.

Lemma step_timers (c : Client) (e : Event) : timersOwned c -> timersOwned (step c e).
Proof.
  intros Hinv. destruct e as [| | |t| |gaveUp|h]; simpl.
  - apply connect_timers, Hinv.
  - apply timersOwned_of_empty, disconnect_fields, Hinv.
  - apply timersOwned_of_empty. unfold close. apply disconnect_fields. exact Hinv.
  - unfold updateAccessToken.
    assert (Hd : timersOwned (setAccessToken t (disconnect c))).
    { apply timersOwned_of_empty. client_fields. apply disconnect_fields, Hinv. }
    destruct (isConnected c); [|exact Hd].
    apply connect_timers. destruct Hd as [Hd|(h & d & H1 & H2 & H3)].
    + left. exact Hd.
    + right. exists h, d. repeat split; assumption.
  - destruct (eventSource c) as [[| |]|] eqn:Hes; try exact Hinv.
    destruct Hinv as [Hempty|(h & d & _ & _ & Hes')]; [|congruence].
    left. exact Hempty.
  - assert (Hlive : eventSource c = Some CONNECTING \/ eventSource c = Some OPEN
                    -> timersOwned (onerror gaveUp c)).
    { intros Hes.
      assert (Hempty : timers c = ∅).
      { destruct Hinv as [Hempty|(h & d & _ & _ & Hes')]; [exact Hempty|].
        destruct Hes; congruence. }
      unfold onerror. destruct gaveUp.
      - apply handleDisconnect_timers; [exact Hempty | reflexivity].
      - left. exact Hempty. }
    destruct (eventSource c) as [[| |]|]; try exact Hinv; apply Hlive; auto.
  - destruct (timers c !! h) as [d|] eqn:Hh; [|exact Hinv].
    unfold fire. apply connect_timers. left. client_fields.
    destruct Hinv as [Hempty|(h' & d' & Hsingle & _ & _)].
    + rewrite Hempty. apply delete_empty.
    + rewrite Hsingle in *. apply lookup_singleton_Some in Hh as [-> _].
      apply delete_singleton_eq.
Qed.

Lemma run_timers (events : list Event) (c : Client) :
  timersOwned c -> timersOwned (run events c).
Proof.
  revert c. induction events as [|e events IH]; intros c Hinv; [exact Hinv|].
  simpl. apply IH, step_timers, Hinv.
Qed.

Lemma newClient_timers (emailAccountId accessToken : string) :
  timersOwned (newClient emailAccountId accessToken).
Proof. left. reflexivity. Qed.

(** A client without [EventSource] and without pending timer is not
    moved by the event loop. *)
Lemma idle_ignores_event_loop (events : list Event) (c : Client) :
  eventSource c = None -> timers c = ∅ ->
  forallb (fun e => negb (isExternalCall e)) events = true ->
  run events c = c.
Proof.
  intros Hes Hempty. induction events as [|e events IH]; [reflexivity|].
  simpl. intros [He Hrest]%andb_true_iff.
  assert (Hstep : step c e = c).
  { destruct e; simpl in He; try discriminate He; simpl.
    - rewrite Hes. reflexivity.
    - rewrite Hes. reflexivity.
    - rewrite Hempty, lookup_empty. reflexivity. }
  rewrite Hstep. exact (IH Hrest).
Qed.

(** *** What [close] leaves *)

Lemma disconnect_emailAccountId (c : Client) :
  emailAccountId (disconnect c) = emailAccountId c.
Proof.
  unfold disconnect, clearReconnectTimeout.
  destruct (reconnectTimeout c); client_fields; destruct (eventSource c); reflexivity.
Qed.

Lemma close_emailAccountId (c : Client) : emailAccountId (close c) = emailAccountId c.
Proof. unfold close. rewrite disconnect_emailAccountId. reflexivity. Qed.

Lemma connect_emailAccountId (c : Client) : emailAccountId (connect c) = emailAccountId c.
Proof.
  unfold connect. destruct (closed c); [reflexivity|]. client_fields.
  destruct (eventSource c); [apply disconnect_emailAccountId | reflexivity].
Qed.

Lemma close_timersOwned (c : Client) : timersOwned c -> timersOwned (close c).
Proof. intros Hinv. apply (step_timers c CallClose Hinv). Qed.

Lemma close_not_live (c : Client) : timersOwned c -> live (close c) = false.
Proof.
  intros Hinv. unfold close.
  assert (Hinv' : timersOwned (setClosed true c)) by exact Hinv.
  destruct (disconnect_fields _ Hinv') as (Ht & _ & Hes & _).
  unfold live. rewrite Ht, Hes. reflexivity.
Qed.

(** *** Claims *)

(** C3. Reconnect policy of [handleDisconnect]. On a client that is
    not closed and whose attempt counter is N-1 < 10, the call
    schedules exactly one reconnect, with the delay
    min(1000 * 2^(N-1), 300000) ms, and moves the counter to N. Once
    the counter has reached 10 it schedules nothing and reports the
    error "Max reconnect attempts reached". On a closed client it
    schedules nothing, and after [close()] no event whatsoever makes
    the client schedule a reconnect or open a connection. A streak of
    [n] failed connections of a new client therefore schedules the
    delays of the attempts 1 to min(n, 10), in this order. *)
Theorem reconnect_policy :
  (forall (c : Client) (N : nat),
      closed c = false -> (1 <= N <= maxReconnectAttempts)%nat ->
      reconnectAttempts c = (N - 1)%nat ->
      log (handleDisconnect c)
      = (log c ++ [OnDisconnected; Scheduled (nextTimer c) (delayOfAttempt N)])%list
      /\ timers (handleDisconnect c) = <[nextTimer c := delayOfAttempt N]> (timers c)
      /\ reconnectAttempts (handleDisconnect c) = N)
  /\ (forall c : Client,
      closed c = false -> (maxReconnectAttempts <= reconnectAttempts c)%nat ->
      log (handleDisconnect c)
      = (log c ++ [OnDisconnected; OnError "Max reconnect attempts reached"])%list
      /\ timers (handleDisconnect c) = timers c
      /\ reconnectTimeout (handleDisconnect c) = reconnectTimeout c)
  /\ (forall c : Client,
      closed c = true ->
      log (handleDisconnect c) = (log c ++ [OnDisconnected])%list
      /\ timers (handleDisconnect c) = timers c)
  /\ (forall (c : Client) (events : list Event),
      closed (run events (close c)) = true
      /\ timers (run events (close c)) ⊆ timers (close c)
      /\ exists new,
          log (run events (close c)) = (log (close c) ++ new)%list
          /\ Forall (fun e => isScheduled e = false /\ isOpened e = false) new)
  /\ (forall (n : nat) (emailAccountId accessToken : string),
      scheduledDelays (log (failures n (connect (newClient emailAccountId accessToken))))
      = List.map delayOfAttempt (seq 1 (Nat.min n maxReconnectAttempts))).
Proof.
  split; [|split; [|split; [|split]]].
  - intros c N Hopen HN Hattempts.
    rewrite handleDisconnect_schedules by (try assumption; lia).
    client_fields. rewrite Hattempts.
    replace (S (N - 1)) with N by lia.
    rewrite reconnectDelay_attempt. replace (S (N - 1)) with N by lia.
    rewrite <- app_assoc. repeat split.
  - intros c Hopen Hge. rewrite handleDisconnect_gives_up by assumption.
    client_fields. rewrite <- app_assoc. repeat split.
  - intros c Hclosed. rewrite handleDisconnect_closed by assumption.
    client_fields. repeat split.
  - intros c events. apply (run_quiet events (close c)), close_closed.
  - intros n emailAccountId accessToken.
    apply (failures_delays n (connect (newClient emailAccountId accessToken)));
      reflexivity.
Qed.

Lemma reconnect_policy_witness :
  scheduledDelays (log (handleDisconnect (connect (newClient "account-1" "token-1"))))
    = [1000%Z]
  /\ scheduledDelays (log (handleDisconnect retriesExhausted))
     = scheduledDelays (log retriesExhausted)
  /\ timers (handleDisconnect (close waitingForFirstRetry)) = ∅.
Proof.
  destruct reconnect_policy as (Hschedule & Hcap & Hclosed & _ & _).
  split; [|split].
  - destruct (Hschedule (connect (newClient "account-1" "token-1")) 1%nat)
      as (Hlog & _ & _);
      [reflexivity | unfold maxReconnectAttempts; lia | reflexivity |].
    rewrite Hlog. reflexivity.
  - destruct (Hcap retriesExhausted) as (Hlog & _ & _);
      [reflexivity | vm_compute; lia |].
    rewrite Hlog, scheduledDelays_app, app_nil_r. reflexivity.
  - destruct (Hclosed (close waitingForFirstRetry)) as (_ & Htimers);
      [reflexivity|].
    rewrite Htimers. reflexivity.
Defined.

(** C10. In every state a client reaches in which it is not connected
    (also while a reconnect timer is pending), [updateAccessToken]
    stores the new token and cancels the pending timer, and neither
    opens a connection nor schedules a reconnect: the client holds no
    [EventSource] and no timer afterwards, and no event of the event
    loop changes that; only a call from outside does. *)
Theorem updateAccessToken_when_not_connected
    (emailAccountId token newToken : string) (history : list Event) :
  isConnected (run history (newClient emailAccountId token)) = false ->
  accessToken (updateAccessToken newToken (run history (newClient emailAccountId token)))
    = newToken
  /\ reconnectTimeout
       (updateAccessToken newToken (run history (newClient emailAccountId token))) = None
  /\ timers (updateAccessToken newToken (run history (newClient emailAccountId token)))
     = ∅
  /\ eventSource
       (updateAccessToken newToken (run history (newClient emailAccountId token))) = None
  /\ live (updateAccessToken newToken (run history (newClient emailAccountId token)))
     = false
  /\ reconnectAttempts
       (updateAccessToken newToken (run history (newClient emailAccountId token)))
     = reconnectAttempts (run history (newClient emailAccountId token))
  /\ (exists new,
        log (updateAccessToken newToken (run history (newClient emailAccountId token)))
        = (log (run history (newClient emailAccountId token)) ++ new)%list
        /\ Forall (fun e => isScheduled e = false /\ isOpened e = false) new)
  /\ (forall events,
        forallb (fun e => negb (isExternalCall e)) events = true ->
        run events
          (updateAccessToken newToken (run history (newClient emailAccountId token)))
        = updateAccessToken newToken (run history (newClient emailAccountId token))).
Proof.
  set (c := run history (newClient emailAccountId token)). intros Hnot.
  assert (Hinv : timersOwned c) by apply run_timers, newClient_timers.
  destruct (disconnect_fields c Hinv) as (Ht & Hrt & Hes & Hcl & Hat & Hra & Hext).
  assert (Heq : updateAccessToken newToken c = setAccessToken newToken (disconnect c)).
  { unfold updateAccessToken. rewrite Hnot. reflexivity. }
  rewrite Heq. unfold live. client_fields. rewrite Ht, Hrt, Hes.
  repeat split; try assumption.
  intros events Hloop.
  apply idle_ignores_event_loop; [reflexivity | reflexivity | exact Hloop].
Qed.

Lemma updateAccessToken_when_not_connected_witness :
  isConnected waitingForFirstRetry = false
  /\ timers waitingForFirstRetry = {[0%nat := 1000%Z]}
  /\ accessToken (updateAccessToken "token-2" waitingForFirstRetry) = "token-2"
  /\ timers (updateAccessToken "token-2" waitingForFirstRetry) = ∅
  /\ eventSource (updateAccessToken "token-2" waitingForFirstRetry) = None.
Proof.
  assert (Hnot : isConnected waitingForFirstRetry = false) by reflexivity.
  destruct (updateAccessToken_when_not_connected
              "account-1" "token-1" "token-2" [CallConnect; SourceError true] Hnot)
    as (Htoken & _ & Htimers & Hes & _).
  split; [exact Hnot|]. split; [reflexivity|].
  split; [exact Htoken|]. split; [exact Htimers | exact Hes].
Defined.

(** A connected client, by contrast, is reconnected with the new token. *)
Example updateAccessToken_when_connected :
  log (updateAccessToken "token-2"
         (run [CallConnect; SourceOpen] (newClient "account-1" "token-1")))
  = [Opened "token-1"; OnConnected; SourceClosed; Opened "token-2"].
Proof. reflexivity. Qed.

End EventSourceFacts.

Module PollSyncFacts.

Import PollSync.

(** *** Claims *)

(** Counterexample to C2 as it is written: the account lacks its
    access credential and the poll reports [error], not [skipped]. *)
Lemma missing_access_token_is_an_error :
  pollFastmailAccount tokenlessWorld "acc-1" false
  = (early "acc-1" "user@fastmail.example" error "Missing authentication tokens", [])
  /\ ~ defectsAreSkipped.
Proof.
  split; [reflexivity|]. intros Hclaim.
  specialize (Hclaim tokenlessWorld "acc-1" false tokenless eq_refl
                (or_introl eq_refl)).
  discriminate Hclaim.
Qed.

(** C2, amended. An account without any enabled rule or without AI
    access (plan or API key) is reported as [skipped], with no write
    to the database. An account without access token is reported as
    [skipped] when one of the earlier checks skips it (not a Fastmail
    account, polled less than two minutes ago, no AI access, no enabled
    rule) and otherwise as [error], with the message "Missing
    authentication tokens"; it is never polled. *)
Theorem pollFastmailAccount_gates
    (w : World) (emailAccountId : string) (forceSync : bool) (a : EmailAccount) :
  findUnique w emailAccountId = inr (Some a) ->
  (lacksRules a \/ lacksAiAccess w a ->
     status (pollFastmailAccount w emailAccountId forceSync).1 = skipped
     /\ (pollFastmailAccount w emailAccountId forceSync).2 = [])
  /\ (lacksCredentials a ->
      notFastmail a = false -> recentlyPolled w forceSync a = false ->
      userHasAiAccess w a = true -> rules a <> [] ->
      pollFastmailAccount w emailAccountId forceSync
      = (early emailAccountId (email a) error "Missing authentication tokens", []))
  /\ (lacksCredentials a ->
      (status (pollFastmailAccount w emailAccountId forceSync).1 = skipped
       \/ status (pollFastmailAccount w emailAccountId forceSync).1 = error)
      /\ (pollFastmailAccount w emailAccountId forceSync).2 = []).
Proof.
  intros Hfound. unfold pollFastmailAccount. rewrite Hfound.
  unfold lacksRules, lacksAiAccess, lacksCredentials, hasAutomationRules.
  split; [|split].
  - intros Hdefect.
    destruct (notFastmail a); [split; reflexivity|].
    destruct (recentlyPolled w forceSync a); [split; reflexivity|].
    destruct (userHasAiAccess w a) eqn:Hai; [|split; reflexivity].
    destruct Hdefect as [Hrules|Hno]; [|discriminate Hno].
    rewrite Hrules. split; reflexivity.
  - intros Hmissing -> -> -> Hrules. rewrite Hmissing.
    destruct (rules a); [contradiction|reflexivity].
  - intros Hmissing. rewrite Hmissing.
    destruct (notFastmail a); [split; [left|]; reflexivity|].
    destruct (recentlyPolled w forceSync a); [split; [left|]; reflexivity|].
    destruct (userHasAiAccess w a); [|split; [left|]; reflexivity].
    destruct (rules a); simpl; split; first [left; reflexivity | right; reflexivity | reflexivity].
Qed.

Lemma pollFastmailAccount_gates_witness :
  status (pollFastmailAccount rulelessWorld "acc-2" false).1 = skipped
  /\ pollFastmailAccount tokenlessWorld "acc-1" false
     = (early "acc-1" "user@fastmail.example" error "Missing authentication tokens", []).
Proof.
  split.
  - destruct (pollFastmailAccount_gates rulelessWorld "acc-2" false ruleless eq_refl)
      as (H & _).
    apply H. left. reflexivity.
  - destruct (pollFastmailAccount_gates tokenlessWorld "acc-1" false tokenless eq_refl)
      as (_ & H & _).
    apply H; [reflexivity | reflexivity | reflexivity | reflexivity | discriminate].
Defined.

End PollSyncFacts.

Module ManagerFacts.

Import Manager.

(** *** The map *)

Lemma mapGet_mapSet_eq {V} (k : string) (v : V) (m : list (string * V)) : mapGet k (mapSet k v m) = Some v.
Proof.
  induction m as [|[k' v'] m IH]; simpl.
  - rewrite String.eqb_refl. reflexivity.
  - destruct (String.eqb k' k) eqn:E; simpl; rewrite E; [reflexivity | exact IH].
Qed.

Lemma mapGet_mapSet_ne {V} (k k' : string) (v : V) (m : list (string * V)) :
  k <> k' -> mapGet k' (mapSet k v m) = mapGet k' m.
Proof.
  intros Hne. induction m as [|[k0 v0] m IH]; simpl.
  - destruct (String.eqb k k') eqn:E; [|reflexivity].
    apply String.eqb_eq in E. contradiction.
  - destruct (String.eqb k0 k) eqn:E; simpl.
    + apply String.eqb_eq in E. subst k0.
      destruct (String.eqb k k') eqn:E'; [|reflexivity].
      apply String.eqb_eq in E'. contradiction.
    + rewrite IH. reflexivity.
Qed.

Lemma mapGet_mapDelete_eq {V} (k : string) (m : list (string * V)) :
  mapGet k (mapDelete k m) = None.
Proof.
  induction m as [|[k' v'] m IH]; simpl; [reflexivity|].
  destruct (String.eqb k' k) eqn:E; simpl; [exact IH|]. rewrite E. exact IH.
Qed.

Lemma mapGet_mapDelete_ne {V} (k k' : string) (m : list (string * V)) :
  k <> k' -> mapGet k' (mapDelete k m) = mapGet k' m.
Proof.
  intros Hne. induction m as [|[k0 v0] m IH]; simpl; [reflexivity|].
  destruct (String.eqb k0 k) eqn:E; simpl.
  - apply String.eqb_eq in E. subst k0.
    destruct (String.eqb k k') eqn:E'; [|exact IH].
    apply String.eqb_eq in E'. contradiction.
  - rewrite IH. reflexivity.
Qed.

Lemma mapGet_keys {V} (k : string) (m : list (string * V)) :
  In k (mapKeys m) <-> mapGet k m <> None.
Proof.
  induction m as [|[k' v'] m IH]; simpl; [tauto|].
  destruct (String.eqb k' k) eqn:E.
  - apply String.eqb_eq in E. split; [discriminate | auto].
  - apply String.eqb_neq in E. rewrite <- IH. tauto.
Qed.

(** *** One reconciliation on its own *)

Lemma mapGet_mapDelete_Some {V} (k k' : string) (v : V) (m : list (string * V)) :
  mapGet k' (mapDelete k m) = Some v -> mapGet k' m = Some v.
Proof.
  destruct (decide (k = k')) as [->|Hne].
  - rewrite mapGet_mapDelete_eq. discriminate.
  - rewrite mapGet_mapDelete_ne by exact Hne. trivial.
Qed.

Lemma removeIfStale_connections (newIds : list string) (m : AccountManager) (id : string) :
  connections (removeIfStale newIds m id)
  = if bool_decide (id ∈ newIds) then connections m else mapDelete id (connections m).
Proof.
  unfold removeIfStale. destruct (bool_decide (id ∈ newIds)); [reflexivity|].
  destruct (mapGet id (connections m)); reflexivity.
Qed.

Lemma removeIfStale_get (newIds : list string) (m : AccountManager) (id id0 : string) :
  id0 ∈ newIds ->
  mapGet id0 (connections (removeIfStale newIds m id)) = mapGet id0 (connections m).
Proof.
  intros Hin. rewrite removeIfStale_connections.
  destruct (bool_decide (id ∈ newIds)) eqn:E; [reflexivity|].
  apply bool_decide_eq_false in E. apply mapGet_mapDelete_ne. intros ->. contradiction.
Qed.

Lemma removeIfStale_absent (newIds : list string) (m : AccountManager) (id id0 : string) :
  mapGet id0 (connections m) = None ->
  mapGet id0 (connections (removeIfStale newIds m id)) = None.
Proof.
  intros Hnone. rewrite removeIfStale_connections.
  destruct (bool_decide (id ∈ newIds)); [exact Hnone|].
  destruct (mapGet id0 (mapDelete id (connections m))) eqn:E; [|reflexivity].
  apply mapGet_mapDelete_Some in E. congruence.
Qed.

Lemma removeIfStale_sub (newIds : list string) (m : AccountManager) (id id' : string)
    (managed' : ManagedAccount) :
  mapGet id' (connections (removeIfStale newIds m id)) = Some managed' ->
  mapGet id' (connections m) = Some managed'.
Proof.
  rewrite removeIfStale_connections.
  destruct (bool_decide (id ∈ newIds)); [trivial|]. apply mapGet_mapDelete_Some.
Qed.

Lemma removeIfStale_length (newIds : list string) (m : AccountManager) (id : string) :
  length (clients (removeIfStale newIds m id)) = length (clients m).
Proof.
  unfold removeIfStale. destruct (bool_decide (id ∈ newIds)); [reflexivity|].
  destruct (mapGet id (connections m)); simpl; [apply length_alter | reflexivity].
Qed.

Lemma removeIfStale_client (newIds : list string) (m : AccountManager) (id id0 : string)
    (managed : ManagedAccount) :
  id0 ∈ newIds ->
  mapGet id0 (connections m) = Some managed ->
  (forall id' managed', mapGet id' (connections m) = Some managed' ->
                        client managed' = client managed -> id' = id0) ->
  clients (removeIfStale newIds m id) !! client managed = clients m !! client managed.
Proof.
  intros Hin Hget Huniq. unfold removeIfStale.
  destruct (bool_decide (id ∈ newIds)) eqn:E; [reflexivity|].
  apply bool_decide_eq_false in E.
  destruct (mapGet id (connections m)) as [managed'|] eqn:Hid; simpl; [|reflexivity].
  apply list_lookup_alter_ne. intros Heq.
  apply E. rewrite (Huniq id managed' Hid Heq). exact Hin.
Qed.

Lemma removeIfStale_wellFormed (newIds : list string) (m : AccountManager) (id : string) :
  wellFormed m -> wellFormed (removeIfStale newIds m id).
Proof.
  intros Hwf id0 managed Hget.
  apply removeIfStale_sub in Hget. destruct (Hwf id0 managed Hget) as [Hlt Huniq].
  split; [rewrite removeIfStale_length; exact Hlt|].
  intros id' managed' Hget'. apply removeIfStale_sub in Hget'. eauto.
Qed.

Lemma removeStale_frame (newIds currentIds : list string) (m : AccountManager) :
  wellFormed m ->
  wellFormed (removeStale newIds currentIds m)
  /\ (forall id0, id0 ∈ newIds ->
       mapGet id0 (connections (removeStale newIds currentIds m))
       = mapGet id0 (connections m))
  /\ (forall id0, mapGet id0 (connections m) = None ->
       mapGet id0 (connections (removeStale newIds currentIds m)) = None)
  /\ (forall id0 managed, id0 ∈ newIds -> mapGet id0 (connections m) = Some managed ->
       clients (removeStale newIds currentIds m) !! client managed
       = clients m !! client managed).
Proof.
  revert m. unfold removeStale.
  induction currentIds as [|id ids IH]; intros m Hwf; simpl.
  - split; [exact Hwf|]. split; [reflexivity|]. split; [trivial | reflexivity].
  - destruct (IH (removeIfStale newIds m id) (removeIfStale_wellFormed _ _ _ Hwf))
      as (Hwf' & Hget & Hnone & Hclient).
    split; [exact Hwf'|]. split; [|split].
    + intros id0 Hin. rewrite Hget by exact Hin. apply removeIfStale_get, Hin.
    + intros id0 H0. apply Hnone, removeIfStale_absent, H0.
    + intros id0 managed Hin H0.
      rewrite (Hclient id0 managed);
        [| exact Hin | rewrite removeIfStale_get by exact Hin; exact H0].
      apply (removeIfStale_client newIds m id id0); [exact Hin | exact H0 |].
      intros id' managed' Hget' Heq. destruct (Hwf id0 managed H0) as [_ Huniq]. eauto.
Qed.

Lemma finishAddConnection_cases (a : Account) (token : string)
    (session : option JMAPSession) (m : AccountManager) :
  finishAddConnection a token session m = m
  \/ exists managed c,
      client managed = length (clients m)
      /\ connections (finishAddConnection a token session m)
         = mapSet (id a) managed (connections m)
      /\ clients (finishAddConnection a token session m) = (clients m ++ [c])%list.
Proof.
  unfold finishAddConnection. destruct session as [s|]; [|left; reflexivity].
  destruct (Js.truthy_opt (primaryMailAccount s)); [|left; reflexivity].
  right. eexists. eexists. split; [|split].
  2: reflexivity. 2: reflexivity. reflexivity.
Qed.

Lemma addIfNew_cases (sessions : string -> option JMAPSession) (currentIds : list string)
    (m : AccountManager) (a : Account) :
  addIfNew sessions currentIds m a = m
  \/ ((id a ∉ currentIds)
      /\ exists managed c,
          client managed = length (clients m)
          /\ connections (addIfNew sessions currentIds m a)
             = mapSet (id a) managed (connections m)
          /\ clients (addIfNew sessions currentIds m a) = (clients m ++ [c])%list).
Proof.
  unfold addIfNew. destruct (bool_decide (id a ∈ currentIds)) eqn:E; [left; reflexivity|].
  apply bool_decide_eq_false in E. unfold addConnection.
  destruct (tokenOf a) as [token|]; [|left; reflexivity].
  destruct (finishAddConnection_cases a token (sessions (id a)) m) as [->|H];
    [left; reflexivity | right; split; [exact E | exact H]].
Qed.

Lemma addIfNew_frame (sessions : string -> option JMAPSession) (currentIds : list string)
    (m : AccountManager) (a : Account) :
  wellFormed m ->
  wellFormed (addIfNew sessions currentIds m a)
  /\ (forall id0, id0 ∈ currentIds \/ id0 <> id a ->
       mapGet id0 (connections (addIfNew sessions currentIds m a))
       = mapGet id0 (connections m))
  /\ (forall ref, (ref < length (clients m))%nat ->
       clients (addIfNew sessions currentIds m a) !! ref = clients m !! ref)
  /\ (length (clients m) <= length (clients (addIfNew sessions currentIds m a)))%nat.
Proof.
  intros Hwf.
  destruct (addIfNew_cases sessions currentIds m a)
    as [->|(Hnew & managed & c & Hclient & Hconns & Hclients)].
  { split; [exact Hwf|]. split; [reflexivity|]. split; [reflexivity | lia]. }
  assert (Hlen : length (clients (addIfNew sessions currentIds m a))
                 = S (length (clients m))).
  { rewrite Hclients, length_app. simpl. lia. }
  split; [|split; [|split]].
  - intros id0 managed0. rewrite Hconns, Hlen. intros Hget.
    destruct (decide (id a = id0)) as [<-|Hne].
    + rewrite mapGet_mapSet_eq in Hget. injection Hget as <-.
      split; [lia|]. intros id' managed' Hget' Heq.
      destruct (decide (id a = id')) as [<-|Hne']; [reflexivity|].
      rewrite mapGet_mapSet_ne in Hget' by exact Hne'.
      destruct (Hwf id' managed' Hget') as [Hlt _]. lia.
    + rewrite mapGet_mapSet_ne in Hget by exact Hne.
      destruct (Hwf id0 managed0 Hget) as [Hlt Huniq].
      split; [lia|]. intros id' managed' Hget' Heq.
      destruct (decide (id a = id')) as [<-|Hne'].
      * rewrite mapGet_mapSet_eq in Hget'. injection Hget' as <-. lia.
      * rewrite mapGet_mapSet_ne in Hget' by exact Hne'. eauto.
  - intros id0 Hid0. rewrite Hconns. apply mapGet_mapSet_ne.
    destruct Hid0 as [Hin|Hne]; [intros Heq; apply Hnew; rewrite Heq; exact Hin|].
    intros Heq. apply Hne. symmetry. exact Heq.
  - intros ref Href. rewrite Hclients. apply lookup_app_l. exact Href.
  - lia.
Qed.

Lemma addNew_frame (sessions : string -> option JMAPSession) (currentIds : list string)
    (accounts : list Account) (m : AccountManager) :
  wellFormed m ->
  wellFormed (foldl (addIfNew sessions currentIds) m accounts)
  /\ (forall id0, id0 ∈ currentIds \/ id0 ∉ List.map id accounts ->
       mapGet id0 (connections (foldl (addIfNew sessions currentIds) m accounts))
       = mapGet id0 (connections m))
  /\ (forall ref, (ref < length (clients m))%nat ->
       clients (foldl (addIfNew sessions currentIds) m accounts) !! ref
       = clients m !! ref).
Proof.
  revert m. induction accounts as [|a accounts IH]; intros m Hwf; simpl.
  - split; [exact Hwf|]. split; reflexivity.
  - destruct (addIfNew_frame sessions currentIds m a Hwf) as (Hwf1 & Hget1 & Hcl1 & Hlen1).
    destruct (IH (addIfNew sessions currentIds m a) Hwf1) as (Hwf2 & Hget2 & Hcl2).
    split; [exact Hwf2|]. split.
    + intros id0 Hid0. rewrite Hget2, Hget1; [reflexivity | |].
      * destruct Hid0 as [Hin|Hnot]; [left; exact Hin|].
        right. intros ->. apply Hnot. left.
      * destruct Hid0 as [Hin|Hnot]; [left; exact Hin|].
        right. intros Hin. apply Hnot. right. exact Hin.
    + intros ref Href. rewrite Hcl2 by lia. apply Hcl1, Href.
Qed.

Lemma newManager_wellFormed : wellFormed newManager.
Proof. intros id0 managed Hget. discriminate Hget. Qed.

Lemma refreshAccounts_wellFormed (accounts : string + list Account)
    (sessions : string -> option JMAPSession) (m : AccountManager) :
  wellFormed m -> wellFormed (refreshAccounts accounts sessions m).
Proof.
  intros Hwf. destruct accounts as [e|accounts]; [exact Hwf|]. simpl.
  apply addNew_frame, removeStale_frame, Hwf.
Qed.

Lemma mapGet_elem {V} (k : string) (m : list (string * V)) :
  k ∈ mapKeys m <-> mapGet k m <> None.
Proof. rewrite list_elem_of_In. apply mapGet_keys. Qed.

Lemma addIfNew_unfold (sessions : string -> option JMAPSession) (currentIds : list string)
    (m : AccountManager) (a : Account) :
  addIfNew sessions currentIds m a
  = if bool_decide (id a ∈ currentIds) then m
    else match tokenOf a with
         | Some token => finishAddConnection a token (sessions (id a)) m
         | None => m
         end.
Proof. reflexivity. Qed.

(** *** The entries of the map in every state of the daemon *)

Lemma wellFormed_ext (m m' : AccountManager) :
  connections m' = connections m -> length (clients m') = length (clients m) ->
  wellFormed m -> wellFormed m'.
Proof.
  intros Hconns Hlen Hwf id0 managed. rewrite Hconns, Hlen. apply Hwf.
Qed.

Lemma finishAddConnection_wellFormed (a : Account) (token : string)
    (session : option JMAPSession) (m : AccountManager) :
  wellFormed m -> wellFormed (finishAddConnection a token session m).
Proof.
  intros Hwf.
  destruct (finishAddConnection_cases a token session m)
    as [->|(managed & c & Hclient & Hconns & Hclients)]; [exact Hwf|].
  intros id0 managed0. rewrite Hconns, Hclients, length_app. simpl. intros Hget.
  destruct (decide (id a = id0)) as [<-|Hne].
  - rewrite mapGet_mapSet_eq in Hget. injection Hget as <-.
    split; [lia|]. intros id' managed' Hget' Heq.
    destruct (decide (id a = id')) as [<-|Hne']; [reflexivity|].
    rewrite mapGet_mapSet_ne in Hget' by exact Hne'.
    destruct (Hwf id' managed' Hget') as [Hlt _]. lia.
  - rewrite mapGet_mapSet_ne in Hget by exact Hne.
    destruct (Hwf id0 managed0 Hget) as [Hlt Huniq].
    split; [lia|]. intros id' managed' Hget' Heq.
    destruct (decide (id a = id')) as [<-|Hne'].
    + rewrite mapGet_mapSet_eq in Hget'. injection Hget' as <-. lia.
    + rewrite mapGet_mapSet_ne in Hget' by exact Hne'. eauto.
Qed.

Lemma continue_wellFormed (task : nat) (fromStart : bool) (currentIds : list string)
    (rest : list Account) (d : Daemon) :
  wellFormed (manager d) -> wellFormed (manager (continue task fromStart currentIds rest d)).
Proof.
  intros Hwf. unfold continue.
  destruct (nextAwait currentIds rest) as [[[a token] rest']|]; [exact Hwf|].
  destruct fromStart; [|exact Hwf].
  apply (wellFormed_ext (manager d)); [reflexivity | reflexivity | exact Hwf].
Qed.

Lemma step_wellFormed (d : Daemon) (e : Event) :
  wellFormed (manager d) -> wellFormed (manager (step d e)).
Proof.
  intros Hwf. destruct e as [| | |task accounts|task session|ref e]; simpl.
  - destruct (running (manager d)); [exact Hwf|].
    apply (wellFormed_ext (manager d)); [reflexivity | reflexivity | exact Hwf].
  - intros id0 managed Hget. discriminate Hget.
  - destruct (0 <? activeIntervals (manager d))%nat; exact Hwf.
  - destruct (tasks d !! task) as [[fromStart|fromStart currentIds a token rest]|];
      try exact Hwf.
    destruct accounts as [err|accounts]; apply continue_wellFormed; [exact Hwf|].
    apply removeStale_frame, Hwf.
  - destruct (tasks d !! task) as [[fromStart|fromStart currentIds a token rest]|];
      try exact Hwf.
    apply continue_wellFormed, finishAddConnection_wellFormed, Hwf.
  - destruct (EventSource.isExternalCall e); [exact Hwf|].
    apply (wellFormed_ext (manager d)); [reflexivity | apply length_alter | exact Hwf].
Qed.

(** Whatever the interleaving, the entries of the map hold existing,
    pairwise distinct clients. *)
Lemma run_wellFormed (events : list Event) (d : Daemon) :
  wellFormed (manager d) -> wellFormed (manager (run events d)).
Proof.
  revert d. induction events as [|e events IH]; intros d Hwf; [exact Hwf|].
  simpl. apply IH, step_wellFormed, Hwf.
Qed.

(** *** Operations that do not overlap *)

Lemma lookup_alter_Some {A} (f : A -> A) (l : list A) (i j : nat) (y : A) :
  alter f i l !! j = Some y ->
  exists x, l !! j = Some x /\ ((j <> i /\ y = x) \/ (j = i /\ y = f x)).
Proof.
  destruct (decide (j = i)) as [->|Hne].
  - rewrite list_lookup_alter_eq. destruct (l !! i) as [x|]; simpl;
      [|intros H; discriminate H].
    intros [= <-]. exists x. split; [reflexivity | right; split; reflexivity].
  - rewrite list_lookup_alter_ne by (intros Heq; apply Hne; symmetry; exact Heq).
    intros Hj. exists y. split; [exact Hj | left; split; [exact Hne | reflexivity]].
Qed.

Lemma consistent_one_live (m : AccountManager) :
  consistent m -> atMostOneLive m /\ noLiveOrphan m.
Proof.
  intros [Hwf Howner Horphan _]. split; [|exact Horphan].
  intros i j ci cj Hi Hj Hli Hlj Hsame.
  destruct (Horphan i ci Hi Hli) as (idi & mi & Hgi & Hci).
  destruct (Horphan j cj Hj Hlj) as (idj & mj & Hgj & Hcj).
  assert (Hidi : EventSource.emailAccountId ci = idi)
    by (apply (Howner idi mi ci Hgi); rewrite Hci; exact Hi).
  assert (Hidj : EventSource.emailAccountId cj = idj)
    by (apply (Howner idj mj cj Hgj); rewrite Hcj; exact Hj).
  assert (Heq : idi = idj) by congruence.
  rewrite Heq in Hgi. assert (Hm : mi = mj) by congruence. congruence.
Qed.

Lemma newManager_consistent : consistent newManager.
Proof.
  split.
  - apply newManager_wellFormed.
  - intros id0 managed c Hget. discriminate Hget.
  - intros i c Hi. discriminate Hi.
  - intros i c Hi. discriminate Hi.
Qed.

Lemma removeIfStale_consistent (newIds : list string) (m : AccountManager) (id0 : string) :
  consistent m -> consistent (removeIfStale newIds m id0).
Proof.
  intros Hc. pose proof (removeIfStale_wellFormed newIds m id0 (consistent_wellFormed m Hc))
    as Hwf'.
  destruct Hc as [Hwf Howner Horphan Htimers].
  unfold removeIfStale, noLiveOrphan in *.
  destruct (bool_decide (id0 ∈ newIds)); [split; assumption|].
  destruct (mapGet id0 (connections m)) as [managed|] eqn:Hid; simpl in *.
  - split; [exact Hwf'| | |]; simpl.
    + intros id1 managed1 c1 Hget Hcl. apply mapGet_mapDelete_Some in Hget.
      apply lookup_alter_Some in Hcl as (x & Hx & [[_ ->]|[_ ->]]).
      * eauto.
      * rewrite EventSourceFacts.close_emailAccountId. eauto.
    + intros i c' Hi Hlive.
      apply lookup_alter_Some in Hi as (x & Hx & [[Hne ->]|[-> ->]]).
      * destruct (Horphan i x Hx Hlive) as (id1 & managed1 & Hget1 & Hclient1).
        exists id1, managed1. split; [|exact Hclient1].
        simpl. rewrite mapGet_mapDelete_ne; [exact Hget1|].
        intros Heq. rewrite Heq in Hid. congruence.
      * rewrite EventSourceFacts.close_not_live in Hlive by eauto. discriminate Hlive.
    + intros i c' Hi.
      apply lookup_alter_Some in Hi as (x & Hx & [[_ ->]|[_ ->]]); [eauto|].
      apply EventSourceFacts.close_timersOwned. eauto.
  - split; [exact Hwf'| | |]; simpl.
    + intros id1 managed1 c1 Hget Hcl. apply mapGet_mapDelete_Some in Hget. eauto.
    + intros i c' Hi Hlive.
      destruct (Horphan i c' Hi Hlive) as (id1 & managed1 & Hget1 & Hclient1).
      exists id1, managed1. split; [|exact Hclient1].
      simpl. rewrite mapGet_mapDelete_ne; [exact Hget1|]. intros ->. congruence.
    + exact Htimers.
Qed.

Lemma removeStale_consistent (newIds currentIds : list string) (m : AccountManager) :
  consistent m -> consistent (removeStale newIds currentIds m).
Proof.
  revert m. unfold removeStale. induction currentIds as [|id0 ids IH]; intros m Hc.
  - exact Hc.
  - simpl. apply IH, removeIfStale_consistent, Hc.
Qed.

Lemma finishAddConnection_consistent (a : Account) (token : string)
    (session : option JMAPSession) (m : AccountManager) :
  mapGet (id a) (connections m) = None ->
  consistent m -> consistent (finishAddConnection a token session m).
Proof.
  intros Hfree Hc. unfold finishAddConnection.
  destruct session as [s|]; [|exact Hc].
  destruct (Js.truthy_opt (primaryMailAccount s)); [|exact Hc].
  destruct Hc as [Hwf Howner Horphan Htimers]. unfold noLiveOrphan in *.
  set (c := if validUrl s then EventSource.connect (EventSource.newClient (id a) token)
            else EventSource.newClient (id a) token).
  assert (Hcid : EventSource.emailAccountId c = id a).
  { unfold c. destruct (validUrl s); [rewrite EventSourceFacts.connect_emailAccountId|];
      reflexivity. }
  assert (Hct : EventSource.timersOwned c).
  { unfold c. destruct (validUrl s);
      [apply EventSourceFacts.connect_timers|]; apply EventSourceFacts.newClient_timers. }
  split; simpl.
  - unfold wellFormed. simpl. intros id0 managed0 Hget.
    destruct (decide (id a = id0)) as [<-|Hne].
    + rewrite mapGet_mapSet_eq in Hget. injection Hget as <-. simpl.
      rewrite length_app. simpl. split; [lia|].
      intros id' managed' Hget' Heq.
      destruct (decide (id a = id')) as [<-|Hne']; [reflexivity|].
      rewrite mapGet_mapSet_ne in Hget' by exact Hne'.
      destruct (Hwf id' managed' Hget') as [Hlt _]. lia.
    + rewrite mapGet_mapSet_ne in Hget by exact Hne.
      destruct (Hwf id0 managed0 Hget) as [Hlt Huniq].
      rewrite length_app. simpl. split; [lia|].
      intros id' managed' Hget' Heq.
      destruct (decide (id a = id')) as [<-|Hne'].
      * rewrite mapGet_mapSet_eq in Hget'. injection Hget' as <-. simpl in Heq. lia.
      * rewrite mapGet_mapSet_ne in Hget' by exact Hne'. eauto.
  - intros id0 managed0 c0 Hget Hcl.
    destruct (decide (id a = id0)) as [<-|Hne].
    + rewrite mapGet_mapSet_eq in Hget. injection Hget as <-. simpl in Hcl.
      rewrite lookup_app_r in Hcl by lia. rewrite Nat.sub_diag in Hcl.
      injection Hcl as <-. exact Hcid.
    + rewrite mapGet_mapSet_ne in Hget by exact Hne.
      destruct (Hwf id0 managed0 Hget) as [Hlt _].
      rewrite lookup_app_l in Hcl by exact Hlt. eauto.
  - intros i c' Hi Hlive. simpl in Hi.
    destruct (decide (i < length (clients m))%nat) as [Hlt|Hge].
    + rewrite lookup_app_l in Hi by exact Hlt.
      destruct (Horphan i c' Hi Hlive) as (id1 & managed1 & Hget1 & Hclient1).
      exists id1, managed1. split; [|exact Hclient1].
      simpl. rewrite mapGet_mapSet_ne; [exact Hget1|]. intros <-. congruence.
    + assert (Hlen : (i < length (clients m ++ [c]))%nat)
        by (apply lookup_lt_is_Some; eexists; exact Hi).
      rewrite length_app in Hlen. simpl in Hlen.
      assert (i = length (clients m)) as -> by lia.
      eexists. eexists. simpl. split; [apply mapGet_mapSet_eq | reflexivity].
  - intros i c' Hi. simpl in Hi.
    destruct (decide (i < length (clients m))%nat) as [Hlt|Hge].
    + rewrite lookup_app_l in Hi by exact Hlt. eauto.
    + assert (Hlen : (i < length (clients m ++ [c]))%nat)
        by (apply lookup_lt_is_Some; eexists; exact Hi).
      rewrite length_app in Hlen. simpl in Hlen.
      assert (i = length (clients m)) as -> by lia.
      rewrite lookup_app_r in Hi by lia. rewrite Nat.sub_diag in Hi.
      injection Hi as <-. exact Hct.
Qed.

Lemma addNew_consistent (sessions : string -> option JMAPSession) (currentIds : list string)
    (accounts : list Account) (m : AccountManager) :
  NoDup (List.map id accounts) ->
  (forall a, a ∈ accounts -> id a ∉ currentIds -> mapGet (id a) (connections m) = None) ->
  consistent m -> consistent (foldl (addIfNew sessions currentIds) m accounts).
Proof.
  revert m. induction accounts as [|a rest IH]; intros m Hnodup Hfree Hc; [exact Hc|].
  simpl in *. apply NoDup_cons in Hnodup as [Hfresh Hnodup].
  assert (Hc1 : consistent (addIfNew sessions currentIds m a)).
  { rewrite addIfNew_unfold.
    destruct (bool_decide (id a ∈ currentIds)) eqn:E; [exact Hc|].
    apply bool_decide_eq_false in E.
    destruct (tokenOf a) as [token|]; [|exact Hc].
    apply finishAddConnection_consistent; [|exact Hc].
    apply Hfree; [left | exact E]. }
  apply IH; [exact Hnodup | | exact Hc1].
  intros a' Hin Hnew.
  destruct (addIfNew_frame sessions currentIds m a (consistent_wellFormed m Hc))
    as (_ & Hget & _).
  rewrite Hget.
  - apply Hfree; [right; exact Hin | exact Hnew].
  - right. intros Heq. apply Hfresh. rewrite <- Heq.
    apply list_elem_of_In, in_map, list_elem_of_In. exact Hin.
Qed.

(** A reconciliation on its own keeps the manager consistent, when the
    fetched accounts have distinct ids (they are primary keys). *)
Lemma refreshAccounts_consistent (accounts : string + list Account)
    (sessions : string -> option JMAPSession) (m : AccountManager) :
  match accounts with
  | inl _ => True
  | inr accounts => NoDup (List.map id accounts)
  end ->
  consistent m -> consistent (refreshAccounts accounts sessions m).
Proof.
  destruct accounts as [e|accounts]; intros Hnodup Hc; [exact Hc|]. simpl.
  apply addNew_consistent; [exact Hnodup | | apply removeStale_consistent, Hc].
  intros a Hin Hnew.
  apply (removeStale_frame (List.map id accounts) (mapKeys (connections m)) m
           (consistent_wellFormed m Hc)).
  destruct (mapGet (id a) (connections m)) eqn:E; [|reflexivity].
  exfalso. apply Hnew, mapGet_elem. congruence.
Qed.

Lemma mapGet_Some_elem {V} (k : string) (v : V) (m : list (string * V)) :
  mapGet k m = Some v -> (k, v) ∈ m.
Proof.
  induction m as [|[k' v'] m IH]; simpl; [discriminate|].
  destruct (String.eqb k' k) eqn:E.
  - apply String.eqb_eq in E. intros [= ->]. subst. left.
  - intros H. right. exact (IH H).
Qed.

Lemma closeAll_clients (l : list (string * ManagedAccount)) (m : AccountManager) :
  (forall i c, clients m !! i = Some c -> EventSource.timersOwned c) ->
  forall i c',
    clients (foldl (fun m kv => closeClient (client kv.2) m) m l) !! i = Some c' ->
    EventSource.timersOwned c'
    /\ (EventSource.live c' = true ->
        exists c, clients m !! i = Some c /\ EventSource.live c = true
                  /\ forall kv, kv ∈ l -> client kv.2 <> i).
Proof.
  revert m. induction l as [|kv l IH]; intros m Htimers i c' Hi; simpl in Hi.
  - split; [eauto|]. intros Hlive. exists c'. repeat split; [exact Hi | exact Hlive |].
    intros kv Hin. inversion Hin.
  - assert (Htimers' : forall i c, clients (closeClient (client kv.2) m) !! i = Some c ->
                                   EventSource.timersOwned c).
    { intros j c Hj. simpl in Hj.
      apply lookup_alter_Some in Hj as (x & Hx & [[_ ->]|[_ ->]]); [eauto|].
      apply EventSourceFacts.close_timersOwned. eauto. }
    destruct (IH _ Htimers' i c' Hi) as [Hown Hrest].
    split; [exact Hown|]. intros Hlive.
    destruct (Hrest Hlive) as (c & Hc & Hclive & Hnot). simpl in Hc.
    apply lookup_alter_Some in Hc as (x & Hx & [[Hne ->]|[-> ->]]).
    + exists x. repeat split; [exact Hx | exact Hclive |].
      intros kv' Hin. apply elem_of_cons in Hin as [->|Hin]; [|exact (Hnot kv' Hin)].
      intros Heq. apply Hne. symmetry. exact Heq.
    + rewrite EventSourceFacts.close_not_live in Hclive by eauto. discriminate Hclive.
Qed.

Lemma stop_consistent (m : AccountManager) : consistent m -> consistent (stop m).
Proof.
  intros [Hwf Howner Horphan Htimers]. unfold stop, noLiveOrphan in *.
  set (m0 := {| connections := connections m; refreshInterval := false; running := false;
                clients := clients m;
                activeIntervals := if refreshInterval m then pred (activeIntervals m)
                                   else activeIntervals m |}).
  pose proof (closeAll_clients (connections m) m0 Htimers) as Hall.
  split; simpl.
  - intros id0 managed Hget. discriminate Hget.
  - intros id0 managed c Hget. discriminate Hget.
  - intros i c' Hi Hlive. exfalso.
    destruct (Hall i c' Hi) as [_ Hrest].
    destruct (Hrest Hlive) as (c & Hc & Hclive & Hnot).
    destruct (Horphan i c Hc Hclive) as (id1 & managed1 & Hget1 & Hclient1).
    apply (Hnot (id1, managed1)); [apply mapGet_Some_elem, Hget1 | exact Hclient1].
  - intros i c' Hi. apply (Hall i c' Hi).
Qed.


(** *** A reconciliation that is not interleaved *)

Lemma continue_cons (fromStart : bool) (currentIds : list string) (a : Account)
    (rest : list Account) (d : Daemon) :
  continue 0 fromStart currentIds (a :: rest) d
  = if bool_decide (id a ∈ currentIds) then continue 0 fromStart currentIds rest d
    else match tokenOf a with
         | Some token =>
             {| manager := manager d;
                tasks := <[0%nat := AwaitSession fromStart currentIds a token rest]> (tasks d) |}
         | None => continue 0 fromStart currentIds rest d
         end.
Proof.
  unfold continue. simpl.
  destruct (bool_decide (id a ∈ currentIds)); [reflexivity|].
  destruct (tokenOf a); reflexivity.
Qed.

Lemma continue_alone (sessions : string -> option JMAPSession) (currentIds : list string)
    (accounts : list Account) (fromStart : bool) (task : Task) (m : AccountManager) :
  run (sessionEvents sessions currentIds accounts)
      (continue 0 fromStart currentIds accounts {| manager := m; tasks := [task] |})
  = {| manager := if fromStart
                  then setRefreshInterval (foldl (addIfNew sessions currentIds) m accounts)
                  else foldl (addIfNew sessions currentIds) m accounts;
       tasks := [] |}.
Proof.
  revert task m. induction accounts as [|a rest IH]; intros task m.
  - reflexivity.
  - rewrite continue_cons. cbn [sessionEvents foldl]. rewrite addIfNew_unfold.
    destruct (bool_decide (id a ∈ currentIds)); [apply IH|].
    destruct (tokenOf a) as [token|]; [|apply IH].
    cbn [run foldl step tasks manager]. simpl lookup.
    apply (IH (AwaitSession fromStart currentIds a token rest)).
Qed.

(** Resumed without anything in between, the reconciliation of the
    daemon computes [refreshAccounts]. *)
Lemma refreshAccounts_alone (accounts : list Account)
    (sessions : string -> option JMAPSession) (m : AccountManager) :
  run (AccountsLoaded 0 (inr accounts)
         :: sessionEvents sessions (mapKeys (connections m)) accounts)
      {| manager := m; tasks := [AwaitAccounts false] |}
  = {| manager := refreshAccounts (inr accounts) sessions m; tasks := [] |}.
Proof.
  simpl.
  apply (continue_alone sessions (mapKeys (connections m)) accounts false).
Qed.

(** *** Claims *)

(** A reconciliation that runs on its own, from start to end. An
    account id that is managed and is in the fetched eligible set keeps
    its map entry and its client: the entry is the same
    [ManagedAccount], with the same client object, and nothing is done
    to that client. Only the ids that are managed and no longer
    eligible, or eligible and not managed, can see their entry change.
    When the fetch fails, nothing changes. *)
Theorem refreshAccounts_leaves_unchanged_accounts
    (m : AccountManager) (accounts : list Account)
    (sessions : string -> option JMAPSession) :
  wellFormed m ->
  (forall id0 managed,
      mapGet id0 (connections m) = Some managed ->
      id0 ∈ List.map id accounts ->
      mapGet id0 (connections (refreshAccounts (inr accounts) sessions m)) = Some managed
      /\ clients (refreshAccounts (inr accounts) sessions m) !! client managed
         = clients m !! client managed)
  /\ (forall id0,
      mapGet id0 (connections (refreshAccounts (inr accounts) sessions m))
      <> mapGet id0 (connections m) ->
      ((id0 ∈ mapKeys (connections m)) /\ (id0 ∉ List.map id accounts))
      \/ ((id0 ∉ mapKeys (connections m)) /\ (id0 ∈ List.map id accounts)))
  /\ (forall e, refreshAccounts (inl e) sessions m = m).
Proof.
  intros Hwf. simpl.
  set (currentIds := mapKeys (connections m)).
  set (newIds := List.map id accounts).
  destruct (removeStale_frame newIds currentIds m Hwf) as (Hwf1 & Hget1 & Hnone1 & Hcl1).
  destruct (addNew_frame sessions currentIds accounts
              (removeStale newIds currentIds m) Hwf1) as (Hwf2 & Hget2 & Hcl2).
  split; [|split; [|reflexivity]].
  - intros id0 managed Hget Hin.
    assert (Hcur : id0 ∈ currentIds) by (apply mapGet_elem; congruence).
    split.
    + rewrite Hget2 by (left; exact Hcur). rewrite Hget1 by exact Hin. exact Hget.
    + rewrite Hcl2.
      * apply (Hcl1 id0 managed Hin Hget).
      * destruct (Hwf1 id0 managed) as [Hlt _]; [|exact Hlt].
        rewrite Hget1 by exact Hin. exact Hget.
  - intros id0 Hchanged.
    destruct (decide (id0 ∈ currentIds)) as [Hcur|Hcur];
      destruct (decide (id0 ∈ newIds)) as [Hin|Hin]; auto.
    + exfalso. apply Hchanged.
      rewrite Hget2 by (left; exact Hcur). apply Hget1, Hin.
    + exfalso. apply Hchanged.
      rewrite Hget2 by (right; exact Hin).
      assert (Hnone : mapGet id0 (connections m) = None).
      { destruct (mapGet id0 (connections m)) eqn:E; [|reflexivity].
        exfalso. apply Hcur, mapGet_elem. fold currentIds. congruence. }
      rewrite Hnone. apply Hnone1, Hnone.
Qed.

Lemma refreshAccounts_leaves_unchanged_accounts_witness :
  List.map fst (connections managingXY) = ["acc-x"; "acc-y"]
  /\ List.map fst (connections
                     (refreshAccounts (inr [accountX; accountZ])
                        (fun _ => Some sessionX) managingXY))
     = ["acc-x"; "acc-z"]
  /\ mapGet "acc-x" (connections
                       (refreshAccounts (inr [accountX; accountZ])
                          (fun _ => Some sessionX) managingXY))
     = mapGet "acc-x" (connections managingXY)
  /\ clients (refreshAccounts (inr [accountX; accountZ])
                (fun _ => Some sessionX) managingXY) !! 0%nat
     = clients managingXY !! 0%nat.
Proof.
  assert (Hwf : wellFormed managingXY)
    by apply refreshAccounts_wellFormed, newManager_wellFormed.
  destruct (refreshAccounts_leaves_unchanged_accounts
              managingXY [accountX; accountZ] (fun _ => Some sessionX) Hwf)
    as (Hkept & _ & _).
  destruct (mapGet "acc-x" (connections managingXY)) as [managed|] eqn:Hget;
    [|discriminate Hget].
  destruct (Hkept "acc-x" managed Hget) as [Hentry Hclient].
  - apply list_elem_of_In. left. reflexivity.
  - split; [reflexivity|]. split; [reflexivity|]. split.
    + rewrite Hentry. reflexivity.
    + injection Hget as <-. exact Hclient.
Defined.

(** C6. The claim asks that, whatever the interleaving of the
    operations of the manager, at most one live client exists per
    account id and no client that left the map is live. Operations that
    do not overlap keep it so ([consistent_one_live],
    [refreshAccounts_consistent], [stop_consistent]). Two
    reconciliations that overlap do not: both find the account absent
    from the map and both add it, and the second [connections.set]
    replaces the entry of the first without closing its client. Both
    clients are connected for the same account id, the first one is no
    longer in the map, and [stop()] does not close it. *)
Theorem overlapping_refreshes_leave_two_live_clients :
  liveClientsOf "acc-x" (manager (run overlappingRefreshes newDaemon)) = [0; 1]%nat
  /\ List.map (fun kv => (kv.1, client kv.2))
              (connections (manager (run overlappingRefreshes newDaemon)))
     = [("acc-x", 1%nat)]
  /\ List.map EventSource.isConnected
              (clients (manager (run overlappingRefreshes newDaemon)))
     = [true; true]
  /\ ~ atMostOneLive (manager (run overlappingRefreshes newDaemon))
  /\ ~ noLiveOrphan (manager (run overlappingRefreshes newDaemon))
  /\ liveClientsOf "acc-x"
       (manager (run (overlappingRefreshes ++ [CallStop]) newDaemon)) = [0%nat].
Proof.
  split; [vm_compute; reflexivity|]. split; [vm_compute; reflexivity|].
  split; [vm_compute; reflexivity|]. split; [|split; [|vm_compute; reflexivity]].
  - intros Hone.
    set (m := manager (run overlappingRefreshes newDaemon)) in *.
    destruct (clients m !! 0%nat) as [c0|] eqn:H0; [|vm_compute in H0; discriminate H0].
    destruct (clients m !! 1%nat) as [c1|] eqn:H1; [|vm_compute in H1; discriminate H1].
    assert (Hneq : 0%nat = 1%nat); [|discriminate Hneq].
    apply (Hone 0%nat 1%nat c0 c1 H0 H1);
      vm_compute in H0; vm_compute in H1;
      injection H0 as <-; injection H1 as <-; reflexivity.
  - intros Horphan.
    set (m := manager (run overlappingRefreshes newDaemon)) in *.
    destruct (clients m !! 0%nat) as [c0|] eqn:H0; [|vm_compute in H0; discriminate H0].
    destruct (Horphan 0%nat c0 H0) as (id0 & managed & Hget & Hclient).
    + vm_compute in H0. injection H0 as <-. reflexivity.
    + assert (Hconns : connections m
                       = [("acc-x", {| emailAccountId := "acc-x";
                                       managedEmail := "x@fastmail.example";
                                       client := 1; accessToken := "token-x";
                                       refreshToken := Some "refresh-x";
                                       expiresAt := None |})])
        by (vm_compute; reflexivity).
      rewrite Hconns in Hget. cbn [mapGet] in Hget.
      destruct (String.eqb "acc-x" id0); [|discriminate Hget].
      injection Hget as <-. simpl in Hclient. discriminate Hclient.
Qed.

End ManagerFacts.

(** ** thread.ts: what grouping keeps of a batch *)

Module GroupingFacts.

Import Thread ThreadQueries.

Lemma pushTo_perm key m threads :
  groupedMessages (pushTo key m threads) ≡ₚ m :: groupedMessages threads.
Proof.
  unfold groupedMessages.
  induction threads as [|[k ms] rest IH]; simpl.
  - reflexivity.
  - destruct (String.eqb k key); simpl.
    + rewrite <- app_assoc. simpl. symmetry. apply Permutation_middle.
    + rewrite IH. symmetry. apply Permutation_middle.
Qed.

Lemma foldl_pushTo_perm (f : ImapMessage -> string) msgs : ∀ threads,
  groupedMessages (foldl (fun t m => pushTo (f m) m t) threads msgs)
  ≡ₚ (groupedMessages threads ++ msgs)%list.
Proof.
  induction msgs as [|m msgs IH]; intros threads; simpl.
  - rewrite app_nil_r. reflexivity.
  - rewrite IH, pushTo_perm. simpl. apply Permutation_middle.
Qed.

Lemma insertByDate_perm m l : insertByDate m l ≡ₚ m :: l.
Proof.
  induction l as [|x r IH]; simpl.
  - reflexivity.
  - destruct (date m <=? date x)%Z.
    + reflexivity.
    + rewrite IH. apply perm_swap.
Qed.

Lemma sortByDate_perm l : sortByDate l ≡ₚ l.
Proof.
  induction l as [|x r IH]; simpl.
  - reflexivity.
  - rewrite insertByDate_perm, IH. reflexivity.
Qed.

Lemma sorted_groups_perm threads :
  groupedMessages (List.map (fun kv => (kv.1, sortByDate kv.2)) threads)
  ≡ₚ groupedMessages threads.
Proof.
  unfold groupedMessages.
  induction threads as [|[k ms] rest IH]; simpl.
  - reflexivity.
  - rewrite IH, sortByDate_perm. reflexivity.
Qed.

(** X1. The messages of all the groups are the messages of the batch:
    none is lost, none is duplicated. *)
Theorem groupMessagesIntoThreads_partition (messages : list ImapMessage) :
  groupedMessages (groupMessagesIntoThreads messages) ≡ₚ messages.
Proof.
  unfold groupMessagesIntoThreads, thirdPass.
  rewrite sorted_groups_perm, foldl_pushTo_perm. reflexivity.
Qed.

Lemma insertByDate_sorted m l :
  sortedByDate l → sortedByDate (insertByDate m l).
Proof.
  unfold sortedByDate.
  induction l as [|x r IH]; intros Hs; simpl.
  - repeat constructor.
  - destruct (date m <=? date x)%Z eqn:Hle.
    + constructor; [exact Hs|]. constructor. lia.
    + apply Sorted_inv in Hs as [Hr Hhd].
      constructor; [apply IH; exact Hr|].
      destruct r as [|y r']; simpl.
      * constructor. lia.
      * destruct (date m <=? date y)%Z.
        -- constructor. lia.
        -- constructor. apply HdRel_inv in Hhd. exact Hhd.
Qed.

Lemma sortByDate_sorted l : sortedByDate (sortByDate l).
Proof.
  induction l as [|x r IH]; simpl.
  - constructor.
  - apply insertByDate_sorted, IH.
Qed.

Lemma groups_sorted (messages : list ImapMessage) :
  Forall (fun kv => sortedByDate kv.2) (groupMessagesIntoThreads messages).
Proof.
  unfold groupMessagesIntoThreads.
  apply Forall_forall. intros kv Hin.
  apply list_elem_of_In, in_map_iff in Hin as (kv' & <- & _). simpl.
  apply sortByDate_sorted.
Qed.

Lemma pushTo_keys key m threads :
  List.map fst (pushTo key m threads) =
  if bool_decide (key ∈ List.map fst threads) then List.map fst threads
  else (List.map fst threads ++ [key])%list.
Proof.
  induction threads as [|[k ms] rest IH]; simpl.
  - reflexivity.
  - destruct (String.eqb k key) eqn:Hk; simpl.
    + apply String.eqb_eq in Hk. subst k.
      rewrite bool_decide_eq_true_2 by left. reflexivity.
    + apply String.eqb_neq in Hk. rewrite IH.
      destruct (bool_decide (key ∈ List.map fst rest)) eqn:Hd.
      * apply bool_decide_eq_true_1 in Hd.
        rewrite bool_decide_eq_true_2 by (right; exact Hd). reflexivity.
      * apply bool_decide_eq_false_1 in Hd.
        rewrite bool_decide_eq_false_2; [reflexivity|].
        intros Hin. apply elem_of_cons in Hin as [Heq|Hin]; [congruence|tauto].
Qed.

Lemma pushTo_keys_NoDup key m threads :
  NoDup (List.map fst threads) → NoDup (List.map fst (pushTo key m threads)).
Proof.
  intros Hnd. rewrite pushTo_keys.
  destruct (bool_decide (key ∈ List.map fst threads)) eqn:Hd; [exact Hnd|].
  apply bool_decide_eq_false_1 in Hd.
  apply NoDup_app. split; [exact Hnd|]. split.
  - intros x Hx Hx'. apply list_elem_of_singleton in Hx'. subst x. tauto.
  - apply NoDup_singleton.
Qed.

Lemma pushTo_nonempty key m threads :
  Forall (fun kv => kv.2 ≠ []) threads →
  Forall (fun kv : string * list ImapMessage => kv.2 ≠ []) (pushTo key m threads).
Proof.
  induction threads as [|[k ms] rest IH]; intros Hne; simpl.
  - constructor; [discriminate|constructor].
  - apply Forall_cons in Hne as [Hms Hrest].
    destruct (String.eqb k key).
    + constructor; [|exact Hrest]. simpl. destruct ms; discriminate.
    + constructor; [exact Hms|apply IH; exact Hrest].
Qed.

Lemma thirdPass_keys mm messages :
  NoDup (List.map fst (thirdPass mm messages)) ∧
  Forall (fun kv => kv.2 ≠ []) (thirdPass mm messages).
Proof.
  unfold thirdPass.
  assert (H : ∀ threads,
    NoDup (List.map fst threads) ∧ Forall (fun kv => kv.2 ≠ []) threads →
    NoDup (List.map fst (foldl (fun threads message =>
             pushTo (finalThreadId mm message) message threads) threads messages)) ∧
    Forall (fun kv => kv.2 ≠ []) (foldl (fun threads message =>
             pushTo (finalThreadId mm message) message threads) threads messages)).
  { induction messages as [|m ms IH]; intros threads [Hnd Hne]; simpl.
    - split; assumption.
    - apply IH. split; [apply pushTo_keys_NoDup|apply pushTo_nonempty]; assumption. }
  apply H. split; constructor.
Qed.

Lemma sortByDate_nonempty l : l ≠ [] → sortByDate l ≠ [].
Proof.
  intros Hl Hs. apply Hl. apply Permutation_nil_r.
  rewrite <- Hs. symmetry. apply sortByDate_perm.
Qed.

Lemma groups_keys (messages : list ImapMessage) :
  NoDup (List.map fst (groupMessagesIntoThreads messages)) ∧
  Forall (fun kv => kv.2 ≠ []) (groupMessagesIntoThreads messages).
Proof.
  unfold groupMessagesIntoThreads.
  destruct (thirdPass_keys (secondPass (firstPass messages) messages) messages)
    as [Hnd Hne].
  split.
  - rewrite List.map_map. simpl. exact Hnd.
  - apply Forall_forall. intros kv Hin.
    apply list_elem_of_In, in_map_iff in Hin as (kv' & <- & Hin'). simpl.
    apply sortByDate_nonempty.
    rewrite Forall_forall in Hne. apply Hne, list_elem_of_In. exact Hin'.
Qed.

(** X2. The keys of the result are pairwise distinct, no group is
    empty, and every group is in ascending order of date. *)
Theorem groupMessagesIntoThreads_groups (messages : list ImapMessage) :
  NoDup (List.map fst (groupMessagesIntoThreads messages))
  ∧ Forall (fun kv => kv.2 ≠ [] ∧ sortedByDate kv.2)
           (groupMessagesIntoThreads messages).
Proof.
  destruct (groups_keys messages) as [Hnd Hne]. split; [exact Hnd|].
  pose proof (groups_sorted messages) as Hs.
  rewrite Forall_forall in *. intros kv Hkv. split; [apply Hne|apply Hs]; exact Hkv.
Qed.

Lemma pushTo_holds key m threads :
  ∃ g, (key, g) ∈ pushTo key m threads ∧ m ∈ g.
Proof.
  induction threads as [|[k ms] rest IH]; simpl.
  - exists [m]. split; left.
  - destruct (String.eqb k key) eqn:Hk.
    + apply String.eqb_eq in Hk. subst k.
      exists (ms ++ [m])%list. split; [left|].
      apply elem_of_app. right. left.
    + destruct IH as (g & Hg & Hm). exists g. split; [right; exact Hg|exact Hm].
Qed.

Lemma pushTo_mono key m threads k g :
  (k, g) ∈ threads →
  ∃ g', (k, g') ∈ pushTo key m threads ∧ ∀ x, x ∈ g → x ∈ g'.
Proof.
  induction threads as [|[k0 ms] rest IH]; intros Hin; simpl.
  - apply elem_of_nil in Hin. destruct Hin.
  - apply elem_of_cons in Hin as [Heq|Hin].
    + injection Heq as -> ->.
      destruct (String.eqb k0 key).
      * exists (ms ++ [m])%list. split; [left|].
        intros x Hx. apply elem_of_app. left. exact Hx.
      * exists ms. split; [left|tauto].
    + destruct (String.eqb k0 key).
      * exists g. split; [right; exact Hin|tauto].
      * destruct (IH Hin) as (g' & Hg' & Hsub).
        exists g'. split; [right; exact Hg'|exact Hsub].
Qed.

Lemma foldl_pushTo_mono (f : ImapMessage -> string) msgs : ∀ threads k g,
  (k, g) ∈ threads →
  ∃ g', (k, g') ∈ foldl (fun t m => pushTo (f m) m t) threads msgs ∧
        ∀ x, x ∈ g → x ∈ g'.
Proof.
  induction msgs as [|m msgs IH]; intros threads k g Hin; simpl.
  - exists g. split; [exact Hin|tauto].
  - destruct (pushTo_mono (f m) m threads k g Hin) as (g1 & Hg1 & Hsub1).
    destruct (IH _ _ _ Hg1) as (g2 & Hg2 & Hsub2).
    exists g2. split; [exact Hg2|]. intros x Hx. apply Hsub2, Hsub1, Hx.
Qed.

Lemma foldl_pushTo_holds (f : ImapMessage -> string) msgs : ∀ threads m,
  m ∈ msgs →
  ∃ g, (f m, g) ∈ foldl (fun t m => pushTo (f m) m t) threads msgs ∧ m ∈ g.
Proof.
  induction msgs as [|m0 msgs IH]; intros threads m Hin; simpl.
  - apply elem_of_nil in Hin. destruct Hin.
  - apply elem_of_cons in Hin as [->|Hin].
    + destruct (pushTo_holds (f m0) m0 threads) as (g & Hg & Hm).
      destruct (foldl_pushTo_mono f msgs _ _ _ Hg) as (g' & Hg' & Hsub).
      exists g'. split; [exact Hg'|apply Hsub, Hm].
    + apply IH. exact Hin.
Qed.

Lemma keys_functional (threads : list (string * list ImapMessage)) k g1 g2 :
  NoDup (List.map fst threads) → (k, g1) ∈ threads → (k, g2) ∈ threads → g1 = g2.
Proof.
  induction threads as [|[k0 g0] rest IH]; intros Hnd H1 H2.
  - apply elem_of_nil in H1. destruct H1.
  - simpl in Hnd. apply NoDup_cons in Hnd as [Hnot Hnd].
    assert (Hkey : ∀ g, (k0, g) ∈ rest → False).
    { intros g Hg. apply Hnot.
      apply list_elem_of_In, in_map_iff. exists (k0, g).
      split; [reflexivity|apply list_elem_of_In, Hg]. }
    apply elem_of_cons in H1 as [E1|H1]; apply elem_of_cons in H2 as [E2|H2].
    + congruence.
    + injection E1 as -> ->. destruct (Hkey _ H2).
    + injection E2 as -> ->. destruct (Hkey _ H1).
    + apply IH; assumption.
Qed.

Lemma group_of_message (messages : list ImapMessage) (m : ImapMessage) :
  m ∈ messages →
  ∃ g, (finalThreadId (secondPass (firstPass messages) messages) m, g)
         ∈ groupMessagesIntoThreads messages ∧ m ∈ g.
Proof.
  intros Hin. unfold groupMessagesIntoThreads, thirdPass.
  destruct (foldl_pushTo_holds
              (finalThreadId (secondPass (firstPass messages) messages))
              messages [] m Hin) as (g & Hg & Hm).
  exists (sortByDate g). split.
  - apply list_elem_of_In, in_map_iff.
    exists (finalThreadId (secondPass (firstPass messages) messages) m, g).
    split; [reflexivity|apply list_elem_of_In, Hg].
  - rewrite sortByDate_perm. exact Hm.
Qed.

(** X3. Two messages of the batch that carry the same thread id are
    put in the same group. *)
Theorem same_threadId_same_group (messages : list ImapMessage) (a b : ImapMessage) :
  a ∈ messages → b ∈ messages → threadId a = threadId b →
  shareThread (groupMessagesIntoThreads messages) [a; b].
Proof.
  intros Ha Hb Hab.
  destruct (group_of_message messages a Ha) as (ga & Hga & Haga).
  destruct (group_of_message messages b Hb) as (gb & Hgb & Hbgb).
  assert (Hkey : finalThreadId (secondPass (firstPass messages) messages) b =
                 finalThreadId (secondPass (firstPass messages) messages) a).
  { unfold finalThreadId. rewrite Hab. reflexivity. }
  rewrite Hkey in Hgb.
  pose proof (groups_keys messages) as [Hnd _].
  assert (gb = ga) as -> by (eapply keys_functional; eassumption).
  unfold shareThread. apply Exists_exists.
  eexists. split; [exact Hga|]. simpl.
  repeat constructor; assumption.
Qed.

Lemma same_threadId_same_group_witness :
  let a := {| uid := 1; messageId := "<a@x>"; threadId := "t1"; subject := "s";
              date := 20; inReplyTo := None; references := None |} in
  let b := {| uid := 2; messageId := "<b@x>"; threadId := "t1"; subject := "s";
              date := 10; inReplyTo := None; references := None |} in
  shareThread (groupMessagesIntoThreads [a; b]) [a; b].
Proof.
  intros a b.
  apply (same_threadId_same_group [a; b] a b).
  - left.
  - right. left.
  - reflexivity.
Defined.

Lemma firstPass_unknown (x : string) messages : ∀ idx : gmap string string,
  x ∉ List.map messageId messages → idx !! x = None →
  foldl (fun m msg => <[messageId msg := threadId msg]> m) idx messages !! x = None.
Proof.
  induction messages as [|m ms IH]; intros idx Hx Hidx; simpl.
  - exact Hidx.
  - simpl in Hx. apply not_elem_of_cons in Hx as [Hne Hx].
    apply IH; [exact Hx|]. rewrite lookup_insert_ne by congruence. exact Hidx.
Qed.

Lemma mergeReference_unknown idx own refs : ∀ st,
  (∀ ref, ref ∈ refs → knownThread idx ref = None) →
  foldl (mergeReference idx own) st refs = st.
Proof.
  induction refs as [|r refs IH]; intros st Hrefs; simpl.
  - reflexivity.
  - unfold mergeReference at 2. rewrite (Hrefs r) by left.
    apply IH. intros ref Href. apply Hrefs. right. exact Href.
Qed.

Lemma mergeMessage_unlinked idx mm m :
  (∀ irt, inReplyTo m = Some irt → knownThread idx irt = None) →
  (∀ ref, ref ∈ default [] (references m) → knownThread idx ref = None) →
  mergeMessage idx mm m = <[threadId m := threadId m]> mm.
Proof.
  intros Hirt Hrefs. unfold mergeMessage.
  rewrite mergeReference_unknown by exact Hrefs. simpl.
  destruct (inReplyTo m) as [irt|] eqn:E; [|reflexivity].
  rewrite (Hirt irt eq_refl). destruct (Js.truthy irt); reflexivity.
Qed.

Lemma secondPass_unlinked idx messages : ∀ mm,
  (∀ m, m ∈ messages →
     (∀ irt, inReplyTo m = Some irt → knownThread idx irt = None) ∧
     (∀ ref, ref ∈ default [] (references m) → knownThread idx ref = None)) →
  identityMap mm → identityMap (foldl (mergeMessage idx) mm messages).
Proof.
  induction messages as [|m ms IH]; intros mm Hun Hid; simpl.
  - exact Hid.
  - apply IH.
    + intros m' Hm'. apply Hun. right. exact Hm'.
    + destruct (Hun m) as [Hirt Hrefs]; [left|].
      rewrite mergeMessage_unlinked by assumption.
      intros t v Hlook. destruct (decide (threadId m = t)) as [<-|Hne].
      * rewrite lookup_insert_eq in Hlook. congruence.
      * rewrite lookup_insert_ne in Hlook by exact Hne. apply Hid, Hlook.
Qed.

Lemma identityMap_finalThreadId mm m :
  identityMap mm → finalThreadId mm m = threadId m.
Proof.
  intros Hid. unfold finalThreadId, Js.or_else.
  destruct (mm !! threadId m) as [v|] eqn:E; [|reflexivity].
  apply Hid in E. subst v. destruct (Js.truthy (threadId m)); reflexivity.
Qed.

Lemma pushTo_keyed (f : ImapMessage -> string) m threads :
  Forall (fun kv => Forall (fun x => f x = kv.1) kv.2) threads →
  Forall (fun kv => Forall (fun x => f x = kv.1) kv.2) (pushTo (f m) m threads).
Proof.
  induction threads as [|[k ms] rest IH]; intros Hk; simpl.
  - repeat constructor.
  - apply Forall_cons in Hk as [Hms Hrest].
    destruct (String.eqb k (f m)) eqn:E.
    + apply String.eqb_eq in E. constructor; [|exact Hrest]. simpl in *.
      apply Forall_app. split; [exact Hms|]. repeat constructor. congruence.
    + constructor; [exact Hms|apply IH, Hrest].
Qed.

Lemma foldl_pushTo_keyed (f : ImapMessage -> string) msgs : ∀ threads,
  Forall (fun kv => Forall (fun x => f x = kv.1) kv.2) threads →
  Forall (fun kv => Forall (fun x => f x = kv.1) kv.2)
         (foldl (fun t m => pushTo (f m) m t) threads msgs).
Proof.
  induction msgs as [|m msgs IH]; intros threads Hk; simpl.
  - exact Hk.
  - apply IH, pushTo_keyed, Hk.
Qed.

(** Every message sits in the group whose key is its final thread id. *)
Lemma groups_keyed_by_finalThreadId (messages : list ImapMessage) :
  Forall (fun kv => Forall (fun m =>
            finalThreadId (secondPass (firstPass messages) messages) m = kv.1) kv.2)
         (groupMessagesIntoThreads messages).
Proof.
  unfold groupMessagesIntoThreads, thirdPass.
  apply Forall_forall. intros kv Hin.
  apply list_elem_of_In, in_map_iff in Hin as ([k g] & <- & Hin). simpl.
  rewrite sortByDate_perm.
  pose proof (foldl_pushTo_keyed
                (finalThreadId (secondPass (firstPass messages) messages))
                messages [] (List.Forall_nil _)) as Hk.
  rewrite Forall_forall in Hk. apply (Hk (k, g)), list_elem_of_In, Hin.
Qed.

(** X4. When no header names a message of the batch, the grouping is
    the grouping by thread id: every message lies under its own thread
    id. *)
Theorem groupMessagesIntoThreads_unlinked (messages : list ImapMessage) :
  unlinked messages →
  Forall (fun kv => Forall (fun m => threadId m = kv.1) kv.2)
         (groupMessagesIntoThreads messages).
Proof.
  intros Hun.
  assert (Hid : identityMap (secondPass (firstPass messages) messages)).
  { unfold secondPass. apply secondPass_unlinked.
    - intros m Hm. unfold unlinked in Hun. rewrite Forall_forall in Hun.
      destruct (Hun m Hm) as [Hirt Hrefs]. rewrite Forall_forall in Hrefs.
      assert (Hnone : ∀ x, x ∉ List.map messageId messages →
                           knownThread (firstPass messages) x = None).
      { intros x Hx. unfold knownThread, firstPass.
        rewrite firstPass_unknown; [reflexivity|exact Hx|apply lookup_empty]. }
      split.
      + intros irt E. rewrite E in Hirt. apply Hnone, Hirt.
      + intros ref Href. apply Hnone, Hrefs, Href.
    - intros t v Hlook. rewrite lookup_empty in Hlook. discriminate Hlook. }
  eapply Forall_impl; [apply groups_keyed_by_finalThreadId|].
  intros kv Hkv. simpl in Hkv. eapply Forall_impl; [exact Hkv|].
  intros m Hm. simpl in Hm. rewrite identityMap_finalThreadId in Hm by exact Hid.
  exact Hm.
Qed.

Lemma groupMessagesIntoThreads_unlinked_witness :
  Forall (fun kv => Forall (fun m => threadId m = kv.1) kv.2)
         (groupMessagesIntoThreads strangers).
Proof.
  apply (groupMessagesIntoThreads_unlinked strangers).
  unfold unlinked.
  match goal with |- ?P => apply (bool_decide_unpack P) end.
  vm_compute. reflexivity.
Defined.

End GroupingFacts.

(** ** thread.ts: root, latest message and subjects of a thread *)

Module ThreadQueriesFacts.

Import Thread ThreadQueries.

Lemma foldl_earlier l : ∀ acc,
  foldl earlier acc l =
  match getThreadRoot l with
  | None => acc
  | Some m => if (date m <? date acc)%Z then m else acc
  end.
Proof.
  induction l as [|x r IH]; intros acc; [reflexivity|].
  simpl. rewrite (IH (earlier acc x)), (IH x).
  unfold earlier.
  destruct (getThreadRoot r) as [m|];
    repeat match goal with
           | |- context [(date ?a <? date ?b)%Z] =>
               is_var a; is_var b;
               destruct (Z.ltb_spec (date a) (date b)); cbn iota
           end; try reflexivity; lia.
Qed.

Lemma getThreadRoot_cons a r :
  getThreadRoot (a :: r) =
  Some match getThreadRoot r with
       | None => a
       | Some m => if (date m <? date a)%Z then m else a
       end.
Proof. simpl. rewrite foldl_earlier. reflexivity. Qed.

Lemma foldl_later l : ∀ acc,
  foldl later acc l =
  match getLatestMessage l with
  | None => acc
  | Some m => if (date acc <? date m)%Z then m else acc
  end.
Proof.
  induction l as [|x r IH]; intros acc; [reflexivity|].
  simpl. rewrite (IH (later acc x)), (IH x).
  unfold later.
  destruct (getLatestMessage r) as [m|];
    repeat match goal with
           | |- context [(date ?a <? date ?b)%Z] =>
               is_var a; is_var b;
               destruct (Z.ltb_spec (date a) (date b)); cbn iota
           end; try reflexivity; lia.
Qed.

Lemma getLatestMessage_cons a r :
  getLatestMessage (a :: r) =
  Some match getLatestMessage r with
       | None => a
       | Some m => if (date a <? date m)%Z then m else a
       end.
Proof. simpl. rewrite foldl_later. reflexivity. Qed.

Lemma getThreadRoot_first_earliest (messages : list ImapMessage) :
  match getThreadRoot messages with
  | None => messages = []
  | Some m =>
      ∃ before after, messages = (before ++ m :: after)%list ∧
        Forall (fun x => (date m < date x)%Z) before ∧
        Forall (fun x => (date m <= date x)%Z) after
  end.
Proof.
  induction messages as [|a r IH]; [reflexivity|].
  rewrite getThreadRoot_cons.
  destruct (getThreadRoot r) as [m|].
  - destruct IH as (before & after & -> & Hb & Ha).
    destruct (Z.ltb_spec (date m) (date a)) as [Hlt|Hge].
    + exists (a :: before), after. repeat split.
      * constructor; [exact Hlt|exact Hb].
      * exact Ha.
    + exists [], (before ++ m :: after)%list. repeat split; [constructor|].
      apply Forall_app. split.
      * eapply Forall_impl; [exact Hb|]. simpl. intros x Hx. lia.
      * constructor; [exact Hge|].
        eapply Forall_impl; [exact Ha|]. simpl. intros x Hx. lia.
  - subst r. exists [], []. repeat split; constructor.
Qed.

Lemma getLatestMessage_first_latest (messages : list ImapMessage) :
  match getLatestMessage messages with
  | None => messages = []
  | Some m =>
      ∃ before after, messages = (before ++ m :: after)%list ∧
        Forall (fun x => (date x < date m)%Z) before ∧
        Forall (fun x => (date x <= date m)%Z) after
  end.
Proof.
  induction messages as [|a r IH]; [reflexivity|].
  rewrite getLatestMessage_cons.
  destruct (getLatestMessage r) as [m|].
  - destruct IH as (before & after & -> & Hb & Ha).
    destruct (Z.ltb_spec (date a) (date m)) as [Hlt|Hge].
    + exists (a :: before), after. repeat split.
      * constructor; [exact Hlt|exact Hb].
      * exact Ha.
    + exists [], (before ++ m :: after)%list. repeat split; [constructor|].
      apply Forall_app. split.
      * eapply Forall_impl; [exact Hb|]. simpl. intros x Hx. lia.
      * constructor; [exact Hge|].
        eapply Forall_impl; [exact Ha|]. simpl. intros x Hx. lia.
  - subst r. exists [], []. repeat split; constructor.
Qed.

(** X5. [getThreadRoot] and [getLatestMessage] answer null only for
    the empty list. Otherwise [getThreadRoot] answers the first of the
    messages that carry the earliest date, and [getLatestMessage] the
    first of those that carry the latest date. *)
Theorem root_and_latest_are_first_extremes (messages : list ImapMessage) :
  match getThreadRoot messages with
  | None => messages = []
  | Some m =>
      ∃ before after, messages = (before ++ m :: after)%list ∧
        Forall (fun x => (date m < date x)%Z) before ∧
        Forall (fun x => (date m <= date x)%Z) after
  end
  ∧ match getLatestMessage messages with
    | None => messages = []
    | Some m =>
        ∃ before after, messages = (before ++ m :: after)%list ∧
          Forall (fun x => (date x < date m)%Z) before ∧
          Forall (fun x => (date x <= date m)%Z) after
    end.
Proof.
  split; [apply getThreadRoot_first_earliest|apply getLatestMessage_first_latest].
Qed.

Lemma head_insertByDate a s :
  head (insertByDate a s) =
  Some match head s with
       | None => a
       | Some x => if (date a <=? date x)%Z then a else x
       end.
Proof.
  destruct s as [|x s']; simpl; [reflexivity|].
  destruct (date a <=? date x)%Z; reflexivity.
Qed.

(** X6. The message that [getThreadRoot] picks from an unsorted list
    is the one the sort by date puts first. *)
Theorem getThreadRoot_sortByDate (messages : list ImapMessage) :
  head (sortByDate messages) = getThreadRoot messages.
Proof.
  induction messages as [|a r IH]; [reflexivity|].
  rewrite getThreadRoot_cons. simpl sortByDate.
  rewrite head_insertByDate. fold (sortByDate r). rewrite IH.
  destruct (getThreadRoot r) as [m|]; [|reflexivity].
  destruct (Z.leb_spec (date a) (date m)), (Z.ltb_spec (date m) (date a));
    try reflexivity; lia.
Qed.

Lemma toLowerCase_app a b :
  Js.toLowerCase (a ++ b) = Js.toLowerCase a ++ Js.toLowerCase b.
Proof.
  unfold Js.toLowerCase. induction a as [|c a IH]; simpl; [reflexivity|].
  rewrite IH. reflexivity.
Qed.

Lemma toLowerCase_length a : String.length (Js.toLowerCase a) = String.length a.
Proof.
  unfold Js.toLowerCase. induction a as [|c a IH]; simpl; [reflexivity|].
  rewrite IH. reflexivity.
Qed.

Lemma drop_app_length a b : Js.drop (String.length a) (a ++ b) = b.
Proof. induction a as [|c a IH]; simpl; [destruct b; reflexivity|exact IH]. Qed.

Lemma trimStart_spaces ws s :
  Js.all_chars Js.is_space ws = true → Js.trimStart (ws ++ s) = Js.trimStart s.
Proof.
  induction ws as [|c ws IH]; simpl; intros H; [reflexivity|].
  apply andb_true_iff in H as [Hc Hws]. rewrite Hc. apply IH, Hws.
Qed.

Lemma replyTag_tagged tag rest :
  isReplyTag tag → replyTag (tag ++ rest) = Some (String.length tag).
Proof.
  unfold isReplyTag, replyTag. intros Htag.
  rewrite toLowerCase_app, <- (toLowerCase_length tag).
  repeat (apply elem_of_cons in Htag as [->|Htag]);
    try (simpl; destruct (Js.toLowerCase rest); reflexivity).
  apply elem_of_nil in Htag. destruct Htag.
Qed.

Lemma trimStart_collapseWhitespace s : ∀ b,
  Js.trimStart (collapseWhitespace b s) =
  Js.trimStart (collapseWhitespace false (Js.trimStart s)).
Proof.
  induction s as [|c r IH]; intros b; [reflexivity|].
  simpl. destruct (Js.is_space c) eqn:Hc.
  - destruct b; simpl; apply IH.
  - simpl. rewrite !Hc. simpl. rewrite !Hc. reflexivity.
Qed.

Lemma foldSubject_trimStart s : foldSubject (Js.trimStart s) = foldSubject s.
Proof.
  unfold foldSubject, Js.trim.
  rewrite <- (trimStart_collapseWhitespace s false). reflexivity.
Qed.

(** X7. On an ASCII subject, [normalizeSubject] removes one leading
    tag with the white space after it, and no more: what follows the
    tag is kept, a second tag included. *)
Theorem normalizeSubject_strips_one_tag (tag ws rest : string) :
  isReplyTag tag → Js.all_chars Js.is_space ws = true →
  JsAscii.ascii_text rest →
  normalizeSubject (tag ++ ws ++ rest) = foldSubject rest.
Proof.
  intros Htag Hws _. unfold normalizeSubject, stripReplyTag.
  rewrite (replyTag_tagged tag (ws ++ rest) Htag), drop_app_length.
  rewrite trimStart_spaces by exact Hws.
  apply foldSubject_trimStart.
Qed.

Lemma normalizeSubject_strips_one_tag_witness :
  normalizeSubject ("FWD:" ++ "  " ++ "Re: Plans   for Friday ") =
  foldSubject "Re: Plans   for Friday ".
Proof.
  apply (normalizeSubject_strips_one_tag "FWD:" "  " "Re: Plans   for Friday ").
  - unfold isReplyTag. apply (bool_decide_unpack _). vm_compute. reflexivity.
  - reflexivity.
  - reflexivity.
Defined.

(** A reply or a forward matches the subject it answers, whatever the
    case of the tag and the white space after it, when that subject
    has no tag of its own. *)
Lemma subjectsMatch_tagged (tag ws subject : string) :
  isReplyTag tag → Js.all_chars Js.is_space ws = true →
  replyTag subject = None →
  subjectsMatch (tag ++ ws ++ subject) subject = true.
Proof.
  intros Htag Hws Hplain. unfold subjectsMatch. apply String.eqb_eq.
  unfold normalizeSubject at 1, stripReplyTag.
  rewrite (replyTag_tagged tag (ws ++ subject) Htag), drop_app_length.
  rewrite trimStart_spaces by exact Hws.
  fold (foldSubject (Js.trimStart subject)). rewrite foldSubject_trimStart.
  unfold normalizeSubject, stripReplyTag. rewrite Hplain. reflexivity.
Qed.

End ThreadQueriesFacts.

(** ** The IMAP keyword module: valid keywords, round trips and listing *)

Module LabelListingFacts.

Import Labels LabelListing.

Lemma take_length n : ∀ s, (String.length (Js.take n s) <= n)%nat.
Proof.
  induction n as [|n IH]; intros [|c r]; simpl; try lia.
  specialize (IH r). lia.
Qed.

Lemma take_all_chars p n : ∀ s,
  Js.all_chars p s = true → Js.all_chars p (Js.take n s) = true.
Proof.
  induction n as [|n IH]; intros [|c r]; simpl; try reflexivity.
  intros H. apply andb_true_iff in H as [Hc Hr].
  rewrite Hc. simpl. apply IH, Hr.
Qed.

Lemma take_short n : ∀ s, (String.length s <= n)%nat → Js.take n s = s.
Proof.
  induction n as [|n IH]; intros [|c r]; simpl; intros H; try reflexivity; try lia.
  rewrite IH by lia. reflexivity.
Qed.

Lemma filter_all_chars p s : Js.all_chars p (Js.filter_chars p s) = true.
Proof.
  induction s as [|c r IH]; simpl; [reflexivity|].
  destruct (p c) eqn:Hc; simpl; [rewrite Hc|]; exact IH.
Qed.

Lemma filter_chars_id p s : Js.all_chars p s = true → Js.filter_chars p s = s.
Proof.
  induction s as [|c r IH]; simpl; intros H; [reflexivity|].
  apply andb_true_iff in H as [Hc Hr]. rewrite Hc, IH by exact Hr. reflexivity.
Qed.

Lemma keyword_char_not_space c : keyword_char c = true → Js.is_space c = false.
Proof. destruct c as [[] [] [] [] [] [] [] []]; vm_compute; congruence. Qed.

Lemma collapseSpaces_id s : ∀ b,
  Js.all_chars keyword_char s = true → collapseSpaces b s = s.
Proof.
  induction s as [|c r IH]; simpl; intros b H; [reflexivity|].
  apply andb_true_iff in H as [Hc Hr].
  rewrite (keyword_char_not_space c Hc), IH by exact Hr. reflexivity.
Qed.

Lemma sanitizeKeyword_valid (keyword : string) :
  isValidKeyword (sanitizeKeyword keyword) = true.
Proof.
  unfold isValidKeyword, sanitizeKeyword. apply andb_true_iff. split.
  - apply take_all_chars, filter_all_chars.
  - apply Nat.leb_le, take_length.
Qed.

Lemma sanitizeKeyword_id keyword :
  isValidKeyword keyword = true → sanitizeKeyword keyword = keyword.
Proof.
  unfold isValidKeyword, sanitizeKeyword. intros H.
  apply andb_true_iff in H as [Hc Hl]. apply Nat.leb_le in Hl.
  rewrite collapseSpaces_id, filter_chars_id by exact Hc.
  apply take_short, Hl.
Qed.

(** X10. Whatever the ASCII input, [sanitizeKeyword] answers a valid
    keyword; the keywords it leaves as they are are exactly the valid
    ones, so that sanitizing twice changes nothing more. *)
Theorem sanitizeKeyword_fixpoints (keyword : string) :
  JsAscii.ascii_text keyword →
  isValidKeyword (sanitizeKeyword keyword) = true ∧
  (sanitizeKeyword keyword = keyword ↔ isValidKeyword keyword = true) ∧
  sanitizeKeyword (sanitizeKeyword keyword) = sanitizeKeyword keyword.
Proof.
  intros _. split; [apply sanitizeKeyword_valid|]. split; [split|].
  - intros H. rewrite <- H. apply sanitizeKeyword_valid.
  - apply sanitizeKeyword_id.
  - apply sanitizeKeyword_id, sanitizeKeyword_valid.
Qed.

Lemma sanitizeKeyword_fixpoints_witness :
  isValidKeyword (sanitizeKeyword "Follow  up / 2024!") = true
  ∧ sanitizeKeyword (sanitizeKeyword "Follow  up / 2024!")
    = sanitizeKeyword "Follow  up / 2024!".
Proof.
  destruct (sanitizeKeyword_fixpoints "Follow  up / 2024!") as (Hvalid & _ & Htwice).
  - reflexivity.
  - split; [exact Hvalid|exact Htwice].
Defined.

Lemma lookupLabel_In key entries kw :
  lookupLabel key entries = Some kw → In kw (List.map snd entries).
Proof.
  induction entries as [|[k v] rest IH]; simpl; [discriminate|].
  destruct (String.eqb k key); intros H.
  - left. congruence.
  - right. apply IH, H.
Qed.

Lemma prefix_nil s : String.prefix "" s = true.
Proof. destruct s; reflexivity. Qed.

Lemma sanitize_prefixed label :
  sanitizeKeyword (INBOX_ZERO_KEYWORD_PREFIX ++ label) =
  INBOX_ZERO_KEYWORD_PREFIX ++
    Js.take 60 (Js.filter_chars keyword_char (collapseSpaces false label)).
Proof. reflexivity. Qed.

Lemma labelToKeyword_prefix label :
  Js.startsWith INBOX_ZERO_KEYWORD_PREFIX (labelToKeyword label) = true.
Proof.
  unfold labelToKeyword.
  destruct (lookupLabel (Js.toUpperCase label) INBOX_ZERO_LABELS) as [kw|] eqn:E.
  - apply lookupLabel_In in E. simpl in E.
    repeat (destruct E as [<-|E]; [reflexivity|]). destruct E.
  - rewrite sanitize_prefixed. unfold Js.startsWith. simpl. apply prefix_nil.
Qed.

Lemma labelToKeyword_isValid label : isValidKeyword (labelToKeyword label) = true.
Proof.
  unfold labelToKeyword.
  destruct (lookupLabel (Js.toUpperCase label) INBOX_ZERO_LABELS) as [kw|] eqn:E.
  - apply lookupLabel_In in E. simpl in E.
    repeat (destruct E as [<-|E]; [reflexivity|]). destruct E.
  - apply sanitizeKeyword_valid.
Qed.

(** X11. For every ASCII label, the keyword [labelToKeyword] answers
    is valid and starts with the Inbox Zero prefix. *)
Theorem labelToKeyword_valid (label : string) :
  JsAscii.ascii_text label →
  isValidKeyword (labelToKeyword label) = true ∧
  Js.startsWith INBOX_ZERO_KEYWORD_PREFIX (labelToKeyword label) = true.
Proof.
  intros _. split; [apply labelToKeyword_isValid|apply labelToKeyword_prefix].
Qed.

Lemma labelToKeyword_valid_witness :
  isValidKeyword (labelToKeyword "Follow up (urgent)") = true ∧
  Js.startsWith INBOX_ZERO_KEYWORD_PREFIX (labelToKeyword "Follow up (urgent)") = true.
Proof.
  apply (labelToKeyword_valid "Follow up (urgent)"). reflexivity.
Defined.

(** X12. A label that is not reserved, is written with keyword
    characters only and has at most 60 of them comes back unchanged from
    its keyword, unless the keyword is one of the reserved ones. *)
Theorem keywordToLabel_labelToKeyword_custom (label : string) :
  lookupLabel (Js.toUpperCase label) INBOX_ZERO_LABELS = None →
  labelOfKeyword (INBOX_ZERO_KEYWORD_PREFIX ++ label) INBOX_ZERO_LABELS = None →
  Js.all_chars keyword_char label = true →
  (String.length label <= 60)%nat →
  keywordToLabel (labelToKeyword label) = label.
Proof.
  intros Hkey Hkw Hchars Hlen.
  assert (Hk : labelToKeyword label = INBOX_ZERO_KEYWORD_PREFIX ++ label).
  { unfold labelToKeyword. rewrite Hkey. apply sanitizeKeyword_id.
    unfold isValidKeyword, INBOX_ZERO_KEYWORD_PREFIX. apply andb_true_iff. split.
    - simpl. exact Hchars.
    - apply Nat.leb_le. change (3 + String.length label <= 63)%nat. lia. }
  rewrite Hk. unfold keywordToLabel. rewrite Hkw.
  unfold Js.startsWith. simpl. rewrite prefix_nil. destruct label; reflexivity.
Qed.

Lemma keywordToLabel_labelToKeyword_custom_witness :
  keywordToLabel (labelToKeyword "Receipts-2024") = "Receipts-2024".
Proof.
  apply (keywordToLabel_labelToKeyword_custom "Receipts-2024").
  - reflexivity.
  - reflexivity.
  - reflexivity.
  - simpl. lia.
Defined.

Lemma sanitize_labelToKeyword label :
  sanitizeKeyword (labelToKeyword label) = labelToKeyword label.
Proof. apply sanitizeKeyword_id, labelToKeyword_isValid. Qed.

(** X13. On a server with keywords and for an ASCII label, adding a
    label opens the folder and, when the server accepts that, sets one
    flag on the message, the keyword of the label; removing it opens
    the folder and clears that same flag. Nothing else is sent, and the
    call fails exactly when the server rejects one of the two
    commands. *)
Theorem smart_label_keyword_commands (server : Server) (uid : Z) (label : string)
    (capabilities : ImapCapabilities) (folder : string) (messageId : option string) :
  supportsKeywords capabilities = true →
  JsAscii.ascii_text label →
  run server (smartAddLabel uid label capabilities folder messageId)
  = match server (OpenBox folder) with
    | inl e => ([OpenBox folder], inl e)
    | inr _ =>
        ([OpenBox folder; AddFlags uid [labelToKeyword label]],
         match server (AddFlags uid [labelToKeyword label]) with
         | inl e => inl e
         | inr _ => inr tt
         end)
    end
  ∧ run server (smartRemoveLabel uid label capabilities folder messageId)
    = match server (OpenBox folder) with
      | inl e => ([OpenBox folder], inl e)
      | inr _ =>
          ([OpenBox folder; DelFlags uid [labelToKeyword label]],
           match server (DelFlags uid [labelToKeyword label]) with
           | inl e => inl e
           | inr _ => inr tt
           end)
      end.
Proof.
  intros Hkw _. unfold smartAddLabel, smartRemoveLabel. rewrite Hkw.
  unfold addKeyword, removeKeyword. rewrite sanitize_labelToKeyword.
  split; simpl.
  - destruct (server (OpenBox folder)); [reflexivity|]. simpl.
    destruct (server (AddFlags uid [labelToKeyword label])); reflexivity.
  - destruct (server (OpenBox folder)); [reflexivity|]. simpl.
    destruct (server (DelFlags uid [labelToKeyword label])); reflexivity.
Qed.

Lemma smart_label_keyword_commands_witness :
  run acceptingServer (smartAddLabel 7 "Follow up" withKeywords "INBOX" None)
  = ([OpenBox "INBOX"; AddFlags 7 ["IZ_Follow_up"]], inr tt)
  ∧ run acceptingServer (smartRemoveLabel 7 "Follow up" withKeywords "INBOX" None)
    = ([OpenBox "INBOX"; DelFlags 7 ["IZ_Follow_up"]], inr tt).
Proof.
  destruct (smart_label_keyword_commands acceptingServer 7 "Follow up" withKeywords
              "INBOX" None) as [Hadd Hremove].
  - reflexivity.
  - reflexivity.
  - rewrite Hadd, Hremove. split; reflexivity.
Defined.

Lemma setAdd_mono x y labels : y ∈ labels → y ∈ setAdd x labels.
Proof.
  unfold setAdd. destruct (bool_decide (x ∈ labels)); [tauto|].
  intros H. apply elem_of_app. left. exact H.
Qed.

Lemma setAdd_holds x labels : x ∈ setAdd x labels.
Proof.
  unfold setAdd. destruct (bool_decide (x ∈ labels)) eqn:E.
  - apply bool_decide_eq_true_1 in E. exact E.
  - apply elem_of_app. right. left.
Qed.

Lemma setAdd_NoDup x labels : NoDup labels → NoDup (setAdd x labels).
Proof.
  unfold setAdd. destruct (bool_decide (x ∈ labels)) eqn:E; [tauto|].
  apply bool_decide_eq_false_1 in E. intros Hnd.
  apply NoDup_app. split; [exact Hnd|]. split.
  - intros y Hy Hy'. apply list_elem_of_singleton in Hy'. subst y. tauto.
  - apply NoDup_singleton.
Qed.

Lemma addFlagLabel_mono flags : ∀ labels y,
  y ∈ labels → y ∈ foldl addFlagLabel labels flags.
Proof.
  induction flags as [|f flags IH]; intros labels y Hy; simpl; [exact Hy|].
  apply IH. unfold addFlagLabel.
  destruct (negb (Js.startsWith "\" f)); [apply setAdd_mono|]; exact Hy.
Qed.

Lemma addFlagLabel_holds flags : ∀ labels flag,
  flag ∈ flags → Js.startsWith "\" flag = false →
  keywordToLabel flag ∈ foldl addFlagLabel labels flags.
Proof.
  induction flags as [|f flags IH]; intros labels flag Hin Hflag; simpl.
  - apply elem_of_nil in Hin. destruct Hin.
  - apply elem_of_cons in Hin as [<-|Hin].
    + apply addFlagLabel_mono. unfold addFlagLabel. rewrite Hflag. simpl.
      apply setAdd_holds.
    + apply IH; assumption.
Qed.

Lemma setAdd_all_mono names : ∀ labels y,
  y ∈ labels → y ∈ foldl (fun labels labelName => setAdd labelName labels) labels names.
Proof.
  induction names as [|n names IH]; intros labels y Hy; simpl; [exact Hy|].
  apply IH, setAdd_mono, Hy.
Qed.

Lemma backslash_not_prefixed keyword :
  Js.startsWith INBOX_ZERO_KEYWORD_PREFIX keyword = true →
  Js.startsWith "\" keyword = false.
Proof.
  unfold Js.startsWith. destruct keyword as [|c r]; [discriminate|].
  destruct c as [[] [] [] [] [] [] [] []]; vm_compute;
    first [discriminate | intros _; reflexivity].
Qed.

(** X14. A label whose keyword is among the permanent flags of a server
    with keywords is listed, under the name [keywordToLabel] gives that
    keyword, whatever [getBoxes] answers and even when it throws. *)
Theorem listAllLabels_lists_keyword (capabilities : ImapCapabilities)
    (boxes : Boxes) (label : string) :
  supportsKeywords capabilities = true →
  labelToKeyword label ∈ permanentFlags capabilities →
  keywordToLabel (labelToKeyword label) ∈ listAllLabels capabilities boxes.
Proof.
  intros Hkw Hflag. unfold listAllLabels. rewrite Hkw.
  assert (H : keywordToLabel (labelToKeyword label)
              ∈ foldl addFlagLabel [] (permanentFlags capabilities)).
  { apply addFlagLabel_holds; [exact Hflag|].
    apply backslash_not_prefixed, labelToKeyword_prefix. }
  destruct boxes as [| |[names|]]; try exact H.
  apply setAdd_all_mono, H.
Qed.

Lemma listAllLabels_lists_keyword_witness :
  keywordToLabel (labelToKeyword "newsletter") ∈ listAllLabels withKeywords GetBoxesThrows.
Proof.
  apply (listAllLabels_lists_keyword withKeywords GetBoxesThrows "newsletter").
  - reflexivity.
  - apply (bool_decide_unpack _). vm_compute. reflexivity.
Defined.

(** The list of labels never names a label twice, also when a label is
    both a keyword and a folder. *)
Lemma listAllLabels_NoDup (capabilities : ImapCapabilities) (boxes : Boxes) :
  NoDup (listAllLabels capabilities boxes).
Proof.
  unfold listAllLabels.
  assert (H1 : ∀ flags labels, NoDup labels → NoDup (foldl addFlagLabel labels flags)).
  { induction flags as [|f flags IH]; intros labels Hnd; simpl; [exact Hnd|].
    apply IH. unfold addFlagLabel.
    destruct (negb (Js.startsWith "\" f)); [apply setAdd_NoDup|]; exact Hnd. }
  assert (H2 : ∀ names labels, NoDup labels →
            NoDup (foldl (fun labels labelName => setAdd labelName labels) labels names)).
  { induction names as [|n names IH]; intros labels Hnd; simpl; [exact Hnd|].
    apply IH, setAdd_NoDup, Hnd. }
  assert (H : NoDup (if supportsKeywords capabilities
                     then foldl addFlagLabel [] (permanentFlags capabilities)
                     else [])).
  { destruct (supportsKeywords capabilities); [apply H1|]; apply NoDup_nil_2. }
  destruct boxes as [| |[names|]]; try exact H.
  apply H2, H.
Qed.

End LabelListingFacts.

(** ** webhook-caller.ts: when a delivery succeeds and how long it waits *)

Module WebhookDeliveryFacts.

Import Webhook.

Lemma tryBlock_true (o : FetchOutcome) :
  tryBlock o = Return true ↔
  ∃ status textOk, o = Response status textOk ∧ (200 <= status <= 299)%Z.
Proof.
  split.
  - destruct o as [|status textOk]; simpl; [discriminate|].
    unfold ok. intros H.
    destruct (200 <=? status)%Z eqn:H1; destruct (status <=? 299)%Z eqn:H2;
      simpl in H;
      try (destruct ((400 <=? status)%Z && (status <? 500)%Z);
           [destruct textOk|]; discriminate H).
    exists status, textOk. split; [reflexivity|]. lia.
  - intros (status & textOk & -> & Hst). unfold tryBlock, ok.
    replace (200 <=? status)%Z with true by (symmetry; apply Z.leb_le; lia).
    replace (status <=? 299)%Z with true by (symmetry; apply Z.leb_le; lia).
    reflexivity.
Qed.

(** X15. [callWebhook] answers [true] exactly when one of its four requests
    receives a 2xx status and every request before it failed in a way
    that is retried. *)
Theorem callWebhook_true_iff (fetch : nat -> FetchOutcome) :
  (callWebhook fetch).1 = true ↔
  ∃ k status textOk,
    (k <= MAX_RETRIES)%nat ∧
    (∀ j, (j < k)%nat → retryable (fetch j)) ∧
    fetch k = Response status textOk ∧ (200 <= status <= 299)%Z.
Proof.
  split.
  - unfold callWebhook, MAX_RETRIES, retryable. simpl.
    destruct (tryBlock (fetch 0%nat)) as [b0|] eqn:E0.
    { simpl. intros ->. apply tryBlock_true in E0 as (status & textOk & H & Hst).
      exists 0%nat, status, textOk. split; [lia|split; [|split; [exact H|lia]]].
      intros j Hj. lia. }
    destruct (tryBlock (fetch 1%nat)) as [b1|] eqn:E1.
    { simpl. intros ->. apply tryBlock_true in E1 as (status & textOk & H & Hst).
      exists 1%nat, status, textOk. split; [lia|split; [|split; [exact H|lia]]].
      intros j Hj. assert (j = 0%nat) as -> by lia. exact E0. }
    destruct (tryBlock (fetch 2%nat)) as [b2|] eqn:E2.
    { simpl. intros ->. apply tryBlock_true in E2 as (status & textOk & H & Hst).
      exists 2%nat, status, textOk. split; [lia|split; [|split; [exact H|lia]]].
      intros j Hj. assert (Hc : j = 0%nat ∨ j = 1%nat) by lia.
      destruct Hc as [-> | ->]; assumption. }
    destruct (tryBlock (fetch 3%nat)) as [b3|] eqn:E3.
    { simpl. intros ->. apply tryBlock_true in E3 as (status & textOk & H & Hst).
      exists 3%nat, status, textOk. split; [lia|split; [|split; [exact H|lia]]].
      intros j Hj. assert (Hc : j = 0%nat ∨ j = 1%nat ∨ j = 2%nat) by lia.
      destruct Hc as [-> |[-> | ->]]; assumption. }
    simpl. discriminate.
  - intros (k & status & textOk & Hk & Hretry & Hfetch & Hst).
    unfold callWebhook.
    rewrite (WebhookFacts.retryLoop_returns (MAX_RETRIES + 1) 0 k fetch true).
    + reflexivity.
    + lia.
    + intros j Hj. apply Hretry, Hj.
    + apply tryBlock_true. exists status, textOk. split; assumption.
Qed.

(** X16. Every run is the sequence request, sleep of 1 s, request,
    sleep of 2 s, request, sleep of 4 s, request, cut after one of its
    requests: the run sends [n] requests, 1 to 4, with exactly one
    sleep between two consecutive requests and none after the last; it
    goes on as long as the requests fail in a way that is retried and
    stops at the first one that does not, or at the fourth. It sleeps 7
    seconds at most. *)
Theorem callWebhook_sleeps_between_requests (fetch : nat -> FetchOutcome) :
  ∃ n, (1 <= n <= 4)%nat
       ∧ (callWebhook fetch).2 = firstn (2 * n - 1) fullTrace
       ∧ attempts (callWebhook fetch).2 = n
       ∧ (∀ j, (j < n - 1)%nat → retryable (fetch j))
       ∧ ((n < 4)%nat → ¬ retryable (fetch (n - 1)%nat))
       ∧ (foldr Z.add 0 (delays (callWebhook fetch).2) <= 7000)%Z.
Proof.
  unfold callWebhook, MAX_RETRIES, retryable. simpl.
  destruct (tryBlock (fetch 0%nat)) as [b0|] eqn:E0.
  { exists 1%nat. simpl.
    split; [lia|]. split; [reflexivity|]. split; [reflexivity|].
    split; [intros j Hj; lia|]. split; [intros _; congruence|vm_compute; discriminate]. }
  destruct (tryBlock (fetch 1%nat)) as [b1|] eqn:E1.
  { exists 2%nat. simpl.
    split; [lia|]. split; [reflexivity|]. split; [reflexivity|].
    split; [|split; [intros _; congruence|vm_compute; discriminate]].
    intros j Hj. assert (j = 0%nat) as -> by lia. exact E0. }
  destruct (tryBlock (fetch 2%nat)) as [b2|] eqn:E2.
  { exists 3%nat. simpl.
    split; [lia|]. split; [reflexivity|]. split; [reflexivity|].
    split; [|split; [intros _; congruence|vm_compute; discriminate]].
    intros j Hj. assert (Hc : j = 0%nat ∨ j = 1%nat) by lia.
    destruct Hc as [-> | ->]; assumption. }
  exists 4%nat.
  assert (Hretry : ∀ j, (j < 4 - 1)%nat → tryBlock (fetch j) = FallThrough).
  { intros j Hj. assert (Hc : j = 0%nat ∨ j = 1%nat ∨ j = 2%nat) by lia.
    destruct Hc as [-> |[-> | ->]]; assumption. }
  destruct (tryBlock (fetch 3%nat)); simpl;
    (split; [lia|]; split; [reflexivity|]; split; [reflexivity|];
     split; [exact Hretry|]; split; [lia|vm_compute; discriminate]).
Qed.

End WebhookDeliveryFacts.

(** ** eventsource-client.ts: invariants of the reachable states *)

Module EventSourceInvariantsFacts.

Import EventSource EventSourceInvariants.

Ltac fields :=
  unfold setReconnectTimeout, setReconnectAttempts, setEventSource, setClosed,
    setAccessToken, emit;
  cbn [emailAccountId accessToken eventSource reconnectAttempts reconnectTimeout
       closed timers nextTimer log].

Lemma opened_app (l l' : list Effect) : opened (l ++ l') = (opened l + opened l')%nat.
Proof. unfold opened. rewrite List.filter_app, List.length_app. reflexivity. Qed.

Lemma sourceClosed_app (l l' : list Effect) :
  sourceClosed (l ++ l') = (sourceClosed l + sourceClosed l')%nat.
Proof. unfold sourceClosed. rewrite List.filter_app, List.length_app. reflexivity. Qed.

Ltac counts :=
  rewrite ?opened_app, ?sourceClosed_app, ?EventSourceFacts.scheduledDelays_app;
  cbn [opened sourceClosed List.filter isOpened isSourceClosed scheduledDelays
       length Nat.add app holdsSource eventSource];
  rewrite ?Nat.add_0_r, ?app_nil_r.

(** *** What each method leaves of the fields and adds to the log *)

Lemma clearReconnectTimeout_view (c : Client) :
  eventSource (clearReconnectTimeout c) = eventSource c
  ∧ closed (clearReconnectTimeout c) = closed c
  ∧ reconnectAttempts (clearReconnectTimeout c) = reconnectAttempts c
  ∧ accessToken (clearReconnectTimeout c) = accessToken c
  ∧ opened (log (clearReconnectTimeout c)) = opened (log c)
  ∧ sourceClosed (log (clearReconnectTimeout c)) = sourceClosed (log c)
  ∧ scheduledDelays (log (clearReconnectTimeout c)) = scheduledDelays (log c).
Proof.
  unfold clearReconnectTimeout. destruct (reconnectTimeout c) as [h|]; fields;
    counts; repeat split.
Qed.

Lemma disconnect_view (c : Client) :
  eventSource (disconnect c) = None
  ∧ closed (disconnect c) = closed c
  ∧ reconnectAttempts (disconnect c) = reconnectAttempts c
  ∧ accessToken (disconnect c) = accessToken c
  ∧ opened (log (disconnect c)) = opened (log c)
  ∧ sourceClosed (log (disconnect c)) = (sourceClosed (log c) + holdsSource c)%nat
  ∧ scheduledDelays (log (disconnect c)) = scheduledDelays (log c).
Proof.
  destruct (clearReconnectTimeout_view c) as (Hes & Hcl & Hn & Htok & Ho & Hs & Hd).
  unfold disconnect, holdsSource. rewrite <- Hes.
  destruct (eventSource (clearReconnectTimeout c)) as [r|] eqn:E; fields; counts.
  - rewrite Ho, Hs, Hd. repeat split; try assumption; lia.
  - rewrite E. repeat split; try assumption; lia.
Qed.

Lemma connect_view (c : Client) :
  closed c = false →
  eventSource (connect c) = Some CONNECTING
  ∧ closed (connect c) = false
  ∧ reconnectAttempts (connect c) = reconnectAttempts c
  ∧ opened (log (connect c)) = S (opened (log c))
  ∧ sourceClosed (log (connect c)) = (sourceClosed (log c) + holdsSource c)%nat
  ∧ scheduledDelays (log (connect c)) = scheduledDelays (log c)
  ∧ last (log (connect c)) = Some (Opened (accessToken c)).
Proof.
  intros Hopen. unfold connect. rewrite Hopen.
  destruct (disconnect_view c) as (Hes & Hcl & Hn & Htok & Ho & Hs & Hd).
  unfold holdsSource in *.
  destruct (eventSource c) as [r|] eqn:E; fields; counts.
  - rewrite Ho, Hs, Hd, Hn, Hcl, Htok, last_snoc. repeat split; try assumption; lia.
  - rewrite last_snoc. repeat split; try assumption; lia.
Qed.

Lemma reconnectDelay_inRange (n : nat) : delayInRange (reconnectDelay n).
Proof.
  unfold delayInRange, reconnectDelay, baseReconnectDelay, maxReconnectDelay.
  assert (0 < 2 ^ Z.of_nat n)%Z by (apply Z.pow_pos_nonneg; lia). lia.
Qed.

Lemma handleDisconnect_view (c : Client) :
  eventSource (handleDisconnect c) = eventSource c
  ∧ closed (handleDisconnect c) = closed c
  ∧ opened (log (handleDisconnect c)) = opened (log c)
  ∧ sourceClosed (log (handleDisconnect c)) = sourceClosed (log c)
  ∧ (bounded c → bounded (handleDisconnect c)).
Proof.
  unfold handleDisconnect, bounded. fields.
  destruct (closed c) eqn:Hc; fields; counts.
  { repeat split; tauto. }
  destruct (Nat.leb_spec maxReconnectAttempts (reconnectAttempts c)) as [Hge|Hlt];
    fields; counts.
  { repeat split; tauto. }
  repeat split; try assumption; try lia.
  apply Forall_app. split; [tauto|].
  constructor; [apply reconnectDelay_inRange|constructor].
Qed.

(** *** The invariants are kept by every event *)

Lemma step_balanced (c : Client) (e : Event) : balanced c → balanced (step c e).
Proof.
  unfold balanced. intros Hb.
  destruct e as [| | |t| |gaveUp|h]; cbn [step].
  - destruct (closed c) eqn:Hc.
    + rewrite EventSourceFacts.connect_closed by exact Hc. exact Hb.
    + destruct (connect_view c Hc) as (Hes & _ & _ & Ho & Hs & _).
      unfold holdsSource at 1. rewrite Hes, Ho, Hs. lia.
  - destruct (disconnect_view c) as (Hes & _ & _ & _ & Ho & Hs & _).
    unfold holdsSource at 1. rewrite Hes, Ho, Hs. lia.
  - unfold close.
    destruct (disconnect_view (setClosed true c)) as (Hes & _ & _ & _ & Ho & Hs & _).
    unfold holdsSource at 1. rewrite Hes, Ho, Hs. exact (eq_trans Hb (eq_sym (Nat.add_0_r _))).
  - unfold updateAccessToken.
    destruct (disconnect_view c) as (Hes & Hcl & _ & _ & Ho & Hs & _).
    destruct (isConnected c) eqn:Hconn.
    + destruct (closed c) eqn:Hc.
      * rewrite EventSourceFacts.connect_closed by (fields; congruence).
        fields. unfold holdsSource at 1. fields. rewrite Hes, Ho, Hs. lia.
      * destruct (connect_view (setReconnectAttempts 0 (setAccessToken t (disconnect c))))
          as (Hes' & _ & _ & Ho' & Hs' & _); [fields; congruence|].
        unfold holdsSource at 1. rewrite Hes', Ho', Hs'.
        unfold holdsSource at 1. fields. rewrite Hes, Ho, Hs. lia.
    + fields. unfold holdsSource at 1. fields. rewrite Hes, Ho, Hs. lia.
  - destruct (eventSource c) as [[]|] eqn:E; try exact Hb.
    unfold onopen. fields. counts. unfold holdsSource in Hb. rewrite E in Hb. lia.
  - destruct (eventSource c) as [[]|] eqn:E; try exact Hb;
      unfold onerror; destruct gaveUp.
    + destruct (handleDisconnect_view (setEventSource (Some CLOSED) c))
        as (Hes & _ & Ho & Hs & _).
      unfold holdsSource at 1. rewrite Hes, Ho, Hs. fields.
      unfold holdsSource in Hb. rewrite E in Hb. exact Hb.
    + unfold holdsSource in *. fields. rewrite E in Hb. exact Hb.
    + destruct (handleDisconnect_view (setEventSource (Some CLOSED) c))
        as (Hes & _ & Ho & Hs & _).
      unfold holdsSource at 1. rewrite Hes, Ho, Hs. fields.
      unfold holdsSource in Hb. rewrite E in Hb. exact Hb.
    + unfold holdsSource in *. fields. rewrite E in Hb. exact Hb.
  - destruct (timers c !! h); [|exact Hb]. unfold fire.
    destruct (closed c) eqn:Hc.
    + rewrite EventSourceFacts.connect_closed by reflexivity. exact Hb.
    + match goal with
      | |- context [connect ?x] =>
          destruct (connect_view x eq_refl) as (Hes & _ & _ & Ho & Hs & _)
      end.
      unfold holdsSource at 1. rewrite Hes, Ho, Hs. fields.
      unfold holdsSource in *. fields. lia.
Qed.

Lemma step_bounded (c : Client) (e : Event) : bounded c → bounded (step c e).
Proof.
  unfold bounded. intros [Hn Hd].
  destruct e as [| | |t| |gaveUp|h]; cbn [step].
  - destruct (closed c) eqn:Hc.
    + rewrite EventSourceFacts.connect_closed by exact Hc. split; assumption.
    + destruct (connect_view c Hc) as (_ & _ & Hn' & _ & _ & Hd' & _).
      rewrite Hn', Hd'. split; assumption.
  - destruct (disconnect_view c) as (_ & _ & Hn' & _ & _ & _ & Hd').
    rewrite Hn', Hd'. split; assumption.
  - unfold close.
    destruct (disconnect_view (setClosed true c)) as (_ & _ & Hn' & _ & _ & _ & Hd').
    rewrite Hn', Hd'. split; assumption.
  - unfold updateAccessToken.
    destruct (disconnect_view c) as (_ & Hcl & Hn' & _ & _ & _ & Hd').
    destruct (isConnected c).
    + destruct (closed c) eqn:Hc.
      * rewrite EventSourceFacts.connect_closed by (fields; congruence).
        fields. rewrite Hd'. split; [lia|assumption].
      * destruct (connect_view (setReconnectAttempts 0 (setAccessToken t (disconnect c))))
          as (_ & _ & Hn'' & _ & _ & Hd'' & _); [fields; congruence|].
        rewrite Hn'', Hd''. fields. rewrite Hd'. split; [lia|assumption].
    + fields. rewrite Hn', Hd'. split; assumption.
  - destruct (eventSource c) as [[]|]; try (split; assumption).
    unfold onopen. fields. counts. split; [lia|assumption].
  - assert (Hgave : bounded (handleDisconnect (setEventSource (Some CLOSED) c))).
    { apply handleDisconnect_view. split; assumption. }
    destruct (eventSource c) as [[]|]; try (split; assumption);
      unfold onerror; destruct gaveUp; try exact Hgave; fields; split; assumption.
  - destruct (timers c !! h); [|split; assumption]. unfold fire.
    destruct (closed c) eqn:Hc.
    + rewrite EventSourceFacts.connect_closed by reflexivity. fields. split; assumption.
    + match goal with
      | |- context [connect ?x] =>
          destruct (connect_view x eq_refl) as (_ & _ & Hn' & _ & _ & Hd' & _)
      end.
      rewrite Hn', Hd'. fields. split; assumption.
Qed.

Lemma step_closedIdle (c : Client) (e : Event) :
  timersOwned c → closedIdle c → closedIdle (step c e).
Proof.
  unfold closedIdle. intros Hown Hidle.
  destruct e as [| | |t| |gaveUp|h]; cbn [step]; intros Hclosed.
  - destruct (closed c) eqn:Hc.
    + rewrite EventSourceFacts.connect_closed by exact Hc. apply Hidle. reflexivity.
    + destruct (connect_view c Hc) as (_ & Hcl & _). congruence.
  - destruct (EventSourceFacts.disconnect_fields c Hown) as (Ht & _ & Hes & _).
    split; assumption.
  - unfold close.
    assert (Hown' : timersOwned (setClosed true c)) by exact Hown.
    destruct (EventSourceFacts.disconnect_fields _ Hown') as (Ht & _ & Hes & _).
    split; assumption.
  - revert Hclosed. unfold updateAccessToken.
    destruct (EventSourceFacts.disconnect_fields c Hown) as (Ht & _ & Hes & Hcl & _).
    destruct (isConnected c) eqn:Hconn.
    + destruct (closed c) eqn:Hc.
      * destruct (Hidle eq_refl) as [Hnone _].
        unfold isConnected in Hconn. rewrite Hnone in Hconn. discriminate Hconn.
      * destruct (connect_view (setReconnectAttempts 0 (setAccessToken t (disconnect c))))
          as (_ & Hcl' & _); [fields; congruence|].
        congruence.
    + fields. intros _. split; assumption.
  - revert Hclosed.
    destruct (eventSource c) as [[]|] eqn:E; try unfold onopen; fields;
      intros Hc; destruct (Hidle Hc) as [Hnone Ht];
      first [discriminate Hnone | split; [exact E|exact Ht]].
  - revert Hclosed.
    destruct (handleDisconnect_view (setEventSource (Some CLOSED) c))
      as (_ & Hcl & _).
    destruct (eventSource c) as [[]|] eqn:E;
      try (unfold onerror; destruct gaveUp; try rewrite Hcl); fields;
      intros Hc; destruct (Hidle Hc) as [Hnone Ht];
      first [discriminate Hnone | split; [exact E|exact Ht]].
  - revert Hclosed. destruct (timers c !! h) as [d|] eqn:E; [|exact Hidle].
    unfold fire. destruct (closed c) eqn:Hc.
    + destruct (Hidle eq_refl) as [_ Hempty].
      rewrite Hempty, lookup_empty in E. discriminate E.
    + match goal with
      | |- context [connect ?x] =>
          destruct (connect_view x eq_refl) as (_ & Hcl & _)
      end.
      congruence.
Qed.

Lemma run_reachable (events : list Event) : ∀ c,
  timersOwned c → closedIdle c → balanced c → bounded c →
  timersOwned (run events c) ∧ closedIdle (run events c)
  ∧ balanced (run events c) ∧ bounded (run events c).
Proof.
  induction events as [|e events IH]; intros c Hown Hidle Hbal Hbnd.
  - split; [|split; [|split]]; assumption.
  - simpl. apply IH.
    + apply EventSourceFacts.step_timers, Hown.
    + apply step_closedIdle; assumption.
    + apply step_balanced, Hbal.
    + apply step_bounded, Hbnd.
Qed.

Lemma newClient_reachable (events : list Event) (emailAccountId accessToken : string) :
  timersOwned (run events (newClient emailAccountId accessToken))
  ∧ closedIdle (run events (newClient emailAccountId accessToken))
  ∧ balanced (run events (newClient emailAccountId accessToken))
  ∧ bounded (run events (newClient emailAccountId accessToken)).
Proof.
  apply run_reachable.
  - left. reflexivity.
  - intros H. discriminate H.
  - reflexivity.
  - split; [unfold maxReconnectAttempts; simpl; lia|constructor].
Qed.

(** X17. Whatever happens to a client, every [EventSource] it created has
    been closed by it, except the one it holds: it never leaves a
    connection behind. *)
Theorem client_closes_what_it_opens
    (history : list Event) (emailAccountId accessToken : string) :
  balanced (run history (newClient emailAccountId accessToken)).
Proof. apply newClient_reachable. Qed.

(** X18. Whatever happens to a client, its attempt counter never exceeds 10
    and every reconnect it has scheduled waits between 1 second and 5
    minutes. *)
Theorem client_backoff_in_range
    (history : list Event) (emailAccountId accessToken : string) :
  bounded (run history (newClient emailAccountId accessToken)).
Proof. apply newClient_reachable. Qed.

(** X19. Whatever happens to a client, at most one reconnect timer is
    pending; one is pending only while the client is not closed and its
    [EventSource] has given up; and a closed client holds neither an
    [EventSource] nor a timer. *)
Theorem client_pending_timer
    (history : list Event) (emailAccountId accessToken : string) :
  let c := run history (newClient emailAccountId accessToken) in
  (size (timers c) <= 1)%nat
  ∧ (timers c ≠ ∅ → eventSource c = Some CLOSED ∧ closed c = false)
  ∧ (closed c = true → live c = false).
Proof.
  intros c.
  destruct (newClient_reachable history emailAccountId accessToken)
    as (Hown & Hidle & _). fold c in Hown, Hidle.
  split; [|split].
  - destruct Hown as [->|(h & d & -> & _)].
    + rewrite map_size_empty. lia.
    + rewrite map_size_singleton. lia.
  - intros Hne. destruct Hown as [Hempty|(h & d & _ & _ & Hes)]; [tauto|].
    split; [exact Hes|].
    destruct (closed c) eqn:Hc; [|reflexivity].
    destruct (Hidle Hc) as [_ Hempty]. tauto.
  - intros Hc. destruct (Hidle Hc) as [Hes Hempty].
    unfold live. rewrite Hes, Hempty. reflexivity.
Qed.

(** X20. Once the connection is established the backoff starts afresh: the
    next time the [EventSource] gives up, the reconnect is scheduled
    one second later, however many attempts came before. *)
Theorem open_resets_backoff (c : Client) :
  closed c = false → eventSource c = Some CONNECTING →
  log (run [SourceOpen; SourceError true] c)
  = (log c ++ [OnConnected; OnDisconnected; Scheduled (nextTimer c) 1000])%list
  ∧ reconnectAttempts (run [SourceOpen; SourceError true] c) = 1%nat.
Proof.
  intros Hopen Hes.
  change (run [SourceOpen; SourceError true] c)
    with (step (step c SourceOpen) (SourceError true)).
  assert (H1 : step c SourceOpen = onopen c) by (cbn [step]; rewrite Hes; reflexivity).
  rewrite H1. clear H1.
  assert (Hx : eventSource (onopen c) = Some OPEN ∧ closed (onopen c) = false
               ∧ reconnectAttempts (onopen c) = 0%nat
               ∧ log (onopen c) = (log c ++ [OnConnected])%list
               ∧ nextTimer (onopen c) = nextTimer c).
  { unfold onopen. fields. repeat split. exact Hopen. }
  generalize dependent (onopen c). intros x (Hes' & Hopen' & Hn' & Hlog' & Hnext').
  assert (H2 : step x (SourceError true)
               = handleDisconnect (setEventSource (Some CLOSED) x))
    by (cbn [step]; rewrite Hes'; reflexivity).
  rewrite H2. clear H2.
  assert (Hy : closed (setEventSource (Some CLOSED) x) = false
               ∧ reconnectAttempts (setEventSource (Some CLOSED) x) = 0%nat
               ∧ log (setEventSource (Some CLOSED) x) = (log c ++ [OnConnected])%list
               ∧ nextTimer (setEventSource (Some CLOSED) x) = nextTimer c).
  { fields. repeat split; assumption. }
  generalize dependent (setEventSource (Some CLOSED) x).
  intros y (Hopen'' & Hn'' & Hlog'' & Hnext'').
  rewrite EventSourceFacts.handleDisconnect_schedules;
    [|exact Hopen''|rewrite Hn''; unfold maxReconnectAttempts; lia].
  fields. rewrite Hlog'', Hnext'', Hn'', <- !app_assoc. split; reflexivity.
Qed.

Lemma open_resets_backoff_witness :
  let c := failures 3 (connect (newClient "account-1" "token-1")) in
  reconnectAttempts c = 3%nat
  ∧ log (run [SourceOpen; SourceError true] c)
    = (log c ++ [OnConnected; OnDisconnected; Scheduled (nextTimer c) 1000])%list.
Proof.
  intros c. split; [vm_compute; reflexivity|].
  apply (open_resets_backoff c); vm_compute; reflexivity.
Defined.

(** X21. On a connected client [updateAccessToken] closes the connection
    and opens a new one with the new token, the attempt counter being
    reset; nothing is scheduled. *)
Theorem updateAccessToken_reconnects_when_connected
    (history : list Event) (emailAccountId accessToken newToken : string) :
  let c := run history (newClient emailAccountId accessToken) in
  isConnected c = true →
  eventSource (updateAccessToken newToken c) = Some CONNECTING
  ∧ reconnectAttempts (updateAccessToken newToken c) = 0%nat
  ∧ timers (updateAccessToken newToken c) = ∅
  ∧ last (log (updateAccessToken newToken c)) = Some (Opened newToken)
  ∧ opened (log (updateAccessToken newToken c)) = S (opened (log c))
  ∧ sourceClosed (log (updateAccessToken newToken c)) = S (sourceClosed (log c))
  ∧ scheduledDelays (log (updateAccessToken newToken c)) = scheduledDelays (log c).
Proof.
  intros c Hconn.
  destruct (newClient_reachable history emailAccountId accessToken)
    as (Hown & Hidle & _). fold c in Hown, Hidle.
  assert (Hes : eventSource c = Some OPEN).
  { unfold isConnected in Hconn. apply bool_decide_eq_true_1 in Hconn. exact Hconn. }
  assert (Hopen : closed c = false).
  { destruct (closed c) eqn:Hc; [|reflexivity].
    destruct (Hidle Hc) as [Hnone _]. congruence. }
  unfold updateAccessToken. rewrite Hconn.
  destruct (disconnect_view c) as (_ & Hcl & _ & _ & Ho & Hs & Hd).
  destruct (EventSourceFacts.disconnect_fields c Hown) as (Ht & _).
  set (c1 := setReconnectAttempts 0 (setAccessToken newToken (disconnect c))).
  assert (Hopen1 : closed c1 = false) by (unfold c1; fields; congruence).
  destruct (connect_view c1 Hopen1) as (Hes' & _ & Hn' & Ho' & Hs' & Hd' & Hlast).
  assert (Hown1 : timersOwned c1) by (left; unfold c1; fields; exact Ht).
  pose proof (EventSourceFacts.connect_timers c1 Hown1) as [Hempty|(h & d & _ & _ & Hbad)];
    [|congruence].
  rewrite Hes', Hn', Ho', Hs', Hd', Hlast, Hempty.
  unfold c1, holdsSource. fields.
  destruct (disconnect_view c) as (Hnone & _).
  rewrite Hnone, Ho, Hs, Hd. unfold holdsSource. rewrite Hes.
  repeat split; lia.
Qed.

Lemma updateAccessToken_reconnects_when_connected_witness :
  eventSource (updateAccessToken "token-2" connectedAfterRetries) = Some CONNECTING
  ∧ last (log (updateAccessToken "token-2" connectedAfterRetries))
    = Some (Opened "token-2").
Proof.
  unfold connectedAfterRetries.
  destruct (updateAccessToken_reconnects_when_connected retriesThenOpen
              "account-1" "token-1" "token-2") as (Hes & _ & _ & Hlast & _).
  - vm_compute. reflexivity.
  - split; [exact Hes|exact Hlast].
Defined.

End EventSourceInvariantsFacts.

(** ** poll-sync.ts: the cursor, the count and the poll of all accounts *)

Module PollAllFacts.

Import PollSync PollAll.

Lemma processCreated_count (w : World) (messageIds : list string) : ∀ n,
  processCreated w messageIds n = (n + length (processable w messageIds))%nat.
Proof.
  induction messageIds as [|m rest IH]; intros n; simpl.
  - lia.
  - destruct (processHistoryItem w m); rewrite IH; simpl; lia.
Qed.

Lemma pollFastmailAccount_outcome (w : World) (emailAccountId : string)
    (forceSync : bool) :
  let r := pollFastmailAccount w emailAccountId forceSync in
  resultEmailAccountId r.1 = emailAccountId ∧
  ((r.2 = [] ∧ newState r.1 = None ∧ processedCount r.1 = None
    ∧ (status r.1 = error ∨ status r.1 = skipped)
    ∧ errorMessage r.1 ≠ None)
   ∨ (∃ state, r.2 = [Update emailAccountId (now w) state]
        ∧ newState r.1 = Some state ∧ errorMessage r.1 = None
        ∧ (status r.1 = success ∨ status r.1 = no_changes))).
Proof.
  cbv zeta. unfold pollFastmailAccount.
  destruct (findUnique w emailAccountId) as [e|[a|]];
    [| |]; try (split; [reflexivity|left; repeat split; auto; discriminate]).
  destruct (notFastmail a);
    [split; [reflexivity|left; repeat split; auto; discriminate]|].
  destruct (recentlyPolled w forceSync a);
    [split; [reflexivity|left; repeat split; auto; discriminate]|].
  destruct (userHasAiAccess w a); simpl;
    [|split; [reflexivity|left; repeat split; auto; discriminate]].
  destruct (hasAutomationRules a); simpl;
    [|split; [reflexivity|left; repeat split; auto; discriminate]].
  destruct (missingAccessToken a);
    [split; [reflexivity|left; repeat split; auto; discriminate]|].
  destruct (createEmailProvider w emailAccountId);
    [split; [reflexivity|left; repeat split; auto; discriminate]|].
  destruct (getEmailChanges w (lastSyncedHistoryId a)) as [e|changes];
    [split; [reflexivity|left; repeat split; auto; discriminate]|].
  destruct (created changes), (updated changes);
    destruct (update w emailAccountId (now w) (changesNewState changes));
    simpl; split; try reflexivity;
    first [ left; repeat split; auto; discriminate
          | right; eexists; repeat split; auto ].
Qed.

(** X22. The cursor is written exactly when the poll ends as [success]
    or [no_changes]: then one row is written, for the polled account,
    with the state the result reports. A poll that ends as [error] or
    [skipped] writes nothing and reports no state. *)
Theorem pollFastmailAccount_writes (w : World) (emailAccountId : string)
    (forceSync : bool) :
  let r := pollFastmailAccount w emailAccountId forceSync in
  resultEmailAccountId r.1 = emailAccountId ∧
  ((r.2 = [] ∧ newState r.1 = None ∧ processedCount r.1 = None
    ∧ (status r.1 = error ∨ status r.1 = skipped)
    ∧ errorMessage r.1 ≠ None)
   ∨ (∃ state, r.2 = [Update emailAccountId (now w) state]
        ∧ newState r.1 = Some state ∧ errorMessage r.1 = None
        ∧ (status r.1 = success ∨ status r.1 = no_changes))).
Proof. apply pollFastmailAccount_outcome. Qed.

(** X23. When the account passes the checks and the provider answers
    with changes, the poll ends as [success] and moves the cursor to the new
    state even if messages fail: the count is the number of created
    messages whose processing did not throw, and updated messages are
    not processed. *)
Theorem pollFastmailAccount_counts_processed (w : World) (emailAccountId : string)
    (forceSync : bool) (a : EmailAccount) (provider : unit) (changes : Changes)
    (written : unit) :
  findUnique w emailAccountId = inr (Some a) →
  eligible w forceSync a = true →
  createEmailProvider w emailAccountId = inr provider →
  getEmailChanges w (lastSyncedHistoryId a) = inr changes →
  created changes ≠ [] ∨ updated changes ≠ [] →
  update w emailAccountId (now w) (changesNewState changes) = inr written →
  pollFastmailAccount w emailAccountId forceSync
  = ({| resultEmailAccountId := emailAccountId; resultEmail := email a;
        status := success;
        processedCount := Some (length (processable w (created changes)));
        newState := Some (changesNewState changes); errorMessage := None |},
     [Update emailAccountId (now w) (changesNewState changes)]).
Proof.
  intros Hfound Hel Hprov Hch Hsome Hupd.
  unfold eligible in Hel.
  repeat (apply andb_true_iff in Hel as [Hel ?]).
  unfold pollFastmailAccount. rewrite Hfound.
  repeat match goal with
         | H : negb ?b = true |- _ => apply negb_true_iff in H; rewrite H
         | H : ?b = true |- _ => rewrite H
         end.
  simpl. rewrite Hprov, Hch, Hupd, processCreated_count. simpl.
  destruct (created changes), (updated changes); try reflexivity.
  destruct Hsome as [Hc|Hu]; [destruct (Hc eq_refl)|destruct (Hu eq_refl)].
Qed.

Lemma pollFastmailAccount_counts_processed_witness :
  pollFastmailAccount busyWorld "acc-3" true
  = ({| resultEmailAccountId := "acc-3"; resultEmail := "busy@fastmail.example";
        status := success; processedCount := Some 2%nat;
        newState := Some "s2"; errorMessage := None |},
     [Update "acc-3" 1700000000000 "s2"]).
Proof.
  apply (pollFastmailAccount_counts_processed busyWorld "acc-3" true busy tt
           busyChanges tt).
  - reflexivity.
  - reflexivity.
  - reflexivity.
  - reflexivity.
  - left. discriminate.
  - reflexivity.
Defined.

(** X24. [forceSync] only lifts the check on the time of the last poll: a
    poll that is not answered "Recently polled" gives the same result
    and the same write when it is forced. *)
Theorem forceSync_only_lifts_recency (w : World) (emailAccountId : string) :
  errorMessage (pollFastmailAccount w emailAccountId false).1 ≠ Some "Recently polled" →
  pollFastmailAccount w emailAccountId true = pollFastmailAccount w emailAccountId false.
Proof.
  unfold pollFastmailAccount.
  destruct (findUnique w emailAccountId) as [e|[a|]]; try reflexivity.
  destruct (notFastmail a); [reflexivity|].
  unfold recentlyPolled at 2. cbv beta iota.
  destruct (recentlyPolled w false a); [|reflexivity].
  simpl. intros H. destruct (H eq_refl).
Qed.

Lemma forceSync_only_lifts_recency_witness :
  pollFastmailAccount rulelessWorld "acc-2" true
  = pollFastmailAccount rulelessWorld "acc-2" false.
Proof.
  apply (forceSync_only_lifts_recency rulelessWorld "acc-2").
  vm_compute. discriminate.
Defined.

Lemma pollFastmailAccount_id (w : World) (emailAccountId : string) (forceSync : bool) :
  resultEmailAccountId (pollFastmailAccount w emailAccountId forceSync).1 = emailAccountId.
Proof. apply (pollFastmailAccount_outcome w emailAccountId forceSync). Qed.

Lemma pollFastmailAccount_written (w : World) (emailAccountId : string)
    (forceSync : bool) :
  (pollFastmailAccount w emailAccountId forceSync).2 = []
  ∨ ∃ t s, (pollFastmailAccount w emailAccountId forceSync).2
           = [Update emailAccountId t s].
Proof.
  destruct (pollFastmailAccount_outcome w emailAccountId forceSync)
    as [_ [(H & _)|(s & H & _)]]; [left; exact H|right; eauto].
Qed.

Lemma pollEach_results (world : nat -> World) (accounts : list EmailAccount) : ∀ i,
  List.map resultEmailAccountId (List.map fst (pollEach world i accounts))
  = List.map id accounts
  ∧ List.map (fun write => (writtenId write, Some (writtenState write)))
             (concat (List.map snd (pollEach world i accounts)))
    = List.map (fun result => (resultEmailAccountId result, newState result))
               (List.filter wrote (List.map fst (pollEach world i accounts))).
Proof.
  induction accounts as [|a rest IH]; intros i; simpl.
  - split; reflexivity.
  - destruct (IH (S i)) as (Hids & Hw).
    rewrite pollFastmailAccount_id, Hids. split; [reflexivity|].
    rewrite List.map_app, Hw.
    destruct (pollFastmailAccount_outcome (world i) (id a) false)
      as [Hid [(Hnone & _ & _ & Hst & _)|(state & Hone & Hstate & _ & Hst)]];
      cbv zeta in *.
    + assert (Hwrote : wrote (pollFastmailAccount (world i) (id a) false).1 = false).
      { unfold wrote. destruct Hst as [-> | ->]; reflexivity. }
      rewrite Hwrote, Hnone. reflexivity.
    + assert (Hwrote : wrote (pollFastmailAccount (world i) (id a) false).1 = true).
      { unfold wrote. destruct Hst as [-> | ->]; reflexivity. }
      rewrite Hwrote, Hone. cbn [List.map app writtenId writtenState].
      rewrite Hid, Hstate. reflexivity.
Qed.

(** X25. Once the list of accounts is read, [pollAllFastmailAccounts]
    answers one result per account, in the order of the list and each
    under the id of its account, whatever goes wrong in the polls. The
    rows it writes are, in the same order, one row for each result
    that is [success] or [no_changes], under the id and with the state
    of that result, and no other row. *)
Theorem pollAllFastmailAccounts_one_result_each
    (accounts : list EmailAccount) (world : nat -> World) :
  ∃ results,
    (pollAllFastmailAccounts (inr accounts) world).1 = inr results
    ∧ List.map resultEmailAccountId results = List.map id accounts
    ∧ List.map (fun write => (writtenId write, Some (writtenState write)))
               (pollAllFastmailAccounts (inr accounts) world).2
      = List.map (fun result => (resultEmailAccountId result, newState result))
                 (List.filter wrote results).
Proof.
  simpl. eexists. split; [reflexivity|]. apply pollEach_results.
Qed.

End PollAllFacts.

(** ** account-manager.ts: one live connection per account without overlap *)

Module ManagerRunsFacts.

Import Manager ManagerRuns.

Lemma handleDisconnect_emailAccountId (c : EventSource.Client) :
  EventSource.emailAccountId (EventSource.handleDisconnect c)
  = EventSource.emailAccountId c.
Proof.
  unfold EventSource.handleDisconnect, EventSource.emit,
    EventSource.setReconnectTimeout, EventSource.setReconnectAttempts.
  cbn [EventSource.closed EventSource.reconnectAttempts].
  destruct (EventSource.closed c); [reflexivity|].
  destruct (EventSource.maxReconnectAttempts <=? EventSource.reconnectAttempts c)%nat;
    reflexivity.
Qed.

Lemma clientStep_emailAccountId (c : EventSource.Client) (e : EventSource.Event) :
  EventSource.emailAccountId (EventSource.step c e) = EventSource.emailAccountId c.
Proof.
  destruct e as [| | |t| |gaveUp|h]; cbn [EventSource.step].
  - apply EventSourceFacts.connect_emailAccountId.
  - apply EventSourceFacts.disconnect_emailAccountId.
  - apply EventSourceFacts.close_emailAccountId.
  - unfold EventSource.updateAccessToken.
    destruct (EventSource.isConnected c).
    + rewrite EventSourceFacts.connect_emailAccountId. cbn [EventSource.emailAccountId
        EventSource.setReconnectAttempts EventSource.setAccessToken].
      apply EventSourceFacts.disconnect_emailAccountId.
    + cbn [EventSource.emailAccountId EventSource.setAccessToken].
      apply EventSourceFacts.disconnect_emailAccountId.
  - destruct (EventSource.eventSource c) as [[]|]; reflexivity.
  - destruct (EventSource.eventSource c) as [[]|]; try reflexivity;
      unfold EventSource.onerror; destruct gaveUp; try reflexivity;
      rewrite handleDisconnect_emailAccountId; reflexivity.
  - destruct (EventSource.timers c !! h); [|reflexivity].
    unfold EventSource.fire. rewrite EventSourceFacts.connect_emailAccountId.
    reflexivity.
Qed.

Lemma not_live_idle (c : EventSource.Client) :
  EventSource.live c = false →
  EventSource.eventSource c = None ∧ EventSource.timers c = ∅.
Proof.
  unfold EventSource.live. intros H. apply orb_false_iff in H as [H1 H2].
  apply bool_decide_eq_false_1 in H1. apply bool_decide_eq_false_1 in H2.
  split.
  - destruct (EventSource.eventSource c); [exfalso; apply H1; discriminate|reflexivity].
  - destruct (decide (EventSource.timers c = ∅)) as [E|E]; [exact E|tauto].
Qed.

Lemma clientStep_not_live (c : EventSource.Client) (e : EventSource.Event) :
  EventSource.isExternalCall e = false → EventSource.live c = false →
  EventSource.step c e = c.
Proof.
  intros He Hlive. destruct (not_live_idle c Hlive) as [Hes Ht].
  apply (EventSourceFacts.idle_ignores_event_loop [e] c Hes Ht).
  simpl. rewrite He. reflexivity.
Qed.

Lemma consistent_ext (m m' : AccountManager) :
  connections m' = connections m → clients m' = clients m →
  consistent m → consistent m'.
Proof.
  intros Hconns Hcl [Hwf Howner Horphan Htimers].
  unfold noLiveOrphan, wellFormed in *.
  split; unfold noLiveOrphan, wellFormed; rewrite ?Hconns, ?Hcl; assumption.
Qed.

Lemma clientEvent_consistent (ref : nat) (e : EventSource.Event) (m : AccountManager) :
  EventSource.isExternalCall e = false → consistent m →
  consistent (withClients (alter (fun c => EventSource.step c e) ref (clients m)) m).
Proof.
  intros He [Hwf Howner Horphan Htimers]. unfold noLiveOrphan in *.
  split; simpl.
  - apply (ManagerFacts.wellFormed_ext m); [reflexivity| |exact Hwf].
    simpl. apply length_alter.
  - intros id0 managed c Hget Hcl.
    apply ManagerFacts.lookup_alter_Some in Hcl as (x & Hx & [[_ ->]|[_ ->]]).
    + eauto.
    + rewrite clientStep_emailAccountId. eauto.
  - intros i c Hi Hlive.
    apply ManagerFacts.lookup_alter_Some in Hi as (x & Hx & [[_ ->]|[_ ->]]).
    + eauto.
    + destruct (EventSource.live x) eqn:Hx'; [eauto|].
      rewrite (clientStep_not_live x e He Hx') in Hlive. congruence.
  - intros i c Hi.
    apply ManagerFacts.lookup_alter_Some in Hi as (x & Hx & [[_ ->]|[_ ->]]); [eauto|].
    apply EventSourceFacts.step_timers. eauto.
Qed.

Lemma taskOk_ext (m m' : AccountManager) (t : Task) :
  connections m' = connections m → taskOk m t → taskOk m' t.
Proof. intros H. destruct t; simpl; [tauto|]. rewrite H. tauto. Qed.

Lemma nextAwait_spec (currentIds : list string) (accounts : list Account)
    (a : Account) (token : string) (rest : list Account) :
  nextAwait currentIds accounts = Some (a, token, rest) →
  (id a ∉ currentIds) ∧ ∃ skipped, accounts = (skipped ++ a :: rest)%list.
Proof.
  induction accounts as [|a0 accounts IH]; simpl; [discriminate|].
  destruct (bool_decide (id a0 ∈ currentIds)) eqn:E.
  - intros H. destruct (IH H) as (Hnew & skipped & ->).
    split; [exact Hnew|]. exists (a0 :: skipped). reflexivity.
  - apply bool_decide_eq_false_1 in E.
    destruct (tokenOf a0) as [token0|].
    + intros [= -> -> ->]. split; [exact E|]. exists []. reflexivity.
    + intros H. destruct (IH H) as (Hnew & skipped & ->).
      split; [exact Hnew|]. exists (a0 :: skipped). reflexivity.
Qed.

Lemma only_task (d : Daemon) (task : nat) (t : Task) :
  (length (tasks d) <= 1)%nat → tasks d !! task = Some t →
  task = 0%nat ∧ tasks d = [t].
Proof.
  intros Hlen Hget. destruct (tasks d) as [|t0 [|t1 l]]; simpl in *.
  - discriminate Hget.
  - destruct task as [|task]; simpl in Hget; [|discriminate Hget].
    injection Hget as ->. split; reflexivity.
  - lia.
Qed.

Lemma continue_orderly (fromStart : bool) (currentIds : list string)
    (rest : list Account) (m : AccountManager) (t : Task) :
  consistent m → NoDup (List.map id rest) →
  (∀ a', a' ∈ rest → id a' ∉ currentIds → mapGet (id a') (connections m) = None) →
  consistent (manager (continue 0 fromStart currentIds rest
                         {| manager := m; tasks := [t] |}))
  ∧ Forall (taskOk (manager (continue 0 fromStart currentIds rest
                               {| manager := m; tasks := [t] |})))
           (tasks (continue 0 fromStart currentIds rest
                     {| manager := m; tasks := [t] |})).
Proof.
  intros Hc Hnodup Hfree. unfold continue.
  destruct (nextAwait currentIds rest) as [[[a token] rest']|] eqn:E; simpl.
  - split; [exact Hc|]. constructor; [|constructor].
    destruct (nextAwait_spec _ _ _ _ _ E) as (Hnew & skipped & ->).
    simpl. split; [exact Hnew|]. split.
    + rewrite List.map_app in Hnodup. apply NoDup_app in Hnodup as (_ & _ & H). exact H.
    + intros a' Hin. apply Hfree. apply elem_of_app. right. exact Hin.
  - split; [|constructor].
    destruct fromStart; [|exact Hc].
    apply (consistent_ext m); [reflexivity|reflexivity|exact Hc].
Qed.

Lemma step_orderly (d : Daemon) (e : Event) :
  orderly d → distinctIds e → (length (tasks (step d e)) <= 1)%nat →
  orderly (step d e).
Proof.
  intros (Hc & Hlen & Htasks) Hdistinct Hlen'.
  split; [|split; [exact Hlen'|]]; revert Hlen';
    destruct e as [| | |task accounts|task session|ref e]; simpl; intros Hlen'.
  - destruct (running (manager d)); [exact Hc|].
    apply (consistent_ext (manager d)); [reflexivity|reflexivity|exact Hc].
  - apply ManagerFacts.stop_consistent, Hc.
  - destruct (0 <? activeIntervals (manager d))%nat; exact Hc.
  - destruct (tasks d !! task) as [[fromStart|fromStart currentIds a token rest]|] eqn:E;
      try exact Hc.
    destruct (only_task d task _ Hlen E) as [-> Hd].
    destruct d as [m ts]. simpl in *. subst ts.
    destruct accounts as [err|accounts].
    + apply (continue_orderly fromStart [] [] m); [exact Hc|constructor|].
      intros a' Hin. apply elem_of_nil in Hin. destruct Hin.
    + apply (continue_orderly fromStart); [apply ManagerFacts.removeStale_consistent, Hc|exact Hdistinct|].
      intros a' Hin Hnew.
      apply (ManagerFacts.removeStale_frame (List.map id accounts) (mapKeys (connections m)) m
               (consistent_wellFormed m Hc)).
      destruct (mapGet (id a') (connections m)) eqn:E'; [|reflexivity].
      exfalso. apply Hnew, ManagerFacts.mapGet_elem. congruence.
  - destruct (tasks d !! task) as [[fromStart|fromStart currentIds a token rest]|] eqn:E;
      try exact Hc.
    destruct (only_task d task _ Hlen E) as [-> Hd].
    destruct d as [m ts]. simpl in *. subst ts.
    apply Forall_cons in Htasks as [(Hnew & Hnodup & Hfree) _].
    simpl in Hnodup. apply NoDup_cons in Hnodup as [Hfresh Hnodup].
    apply (continue_orderly fromStart); [|exact Hnodup|].
    + apply ManagerFacts.finishAddConnection_consistent; [|exact Hc].
      apply Hfree; [left|exact Hnew].
    + intros a' Hin Hnew'.
      assert (Hne : id a ≠ id a').
      { intros Heq. apply Hfresh. rewrite Heq.
        apply list_elem_of_In, in_map, list_elem_of_In. exact Hin. }
      destruct (ManagerFacts.finishAddConnection_cases a token session m)
        as [->|(managed & c & _ & -> & _)].
      * apply Hfree; [right; exact Hin|exact Hnew'].
      * rewrite ManagerFacts.mapGet_mapSet_ne by exact Hne.
        apply Hfree; [right; exact Hin|exact Hnew'].
  - destruct (EventSource.isExternalCall e) eqn:He; [exact Hc|].
    apply clientEvent_consistent; [exact He|exact Hc].
  - destruct (running (manager d)); [exact Htasks|]. simpl.
    apply Forall_app. split; [|repeat constructor].
    eapply Forall_impl; [exact Htasks|]. intros t. apply taskOk_ext. reflexivity.
  - eapply Forall_impl; [exact Htasks|].
    intros [fromStart|fromStart currentIds a token rest]; simpl; [tauto|].
    intros (Hnew & Hnodup & _). repeat split; assumption.
  - destruct (0 <? activeIntervals (manager d))%nat; [|exact Htasks]. simpl.
    apply Forall_app. split; [exact Htasks|repeat constructor].
  - destruct (tasks d !! task) as [[fromStart|fromStart currentIds a token rest]|] eqn:E;
      try exact Htasks.
    destruct (only_task d task _ Hlen E) as [-> Hd].
    destruct d as [m ts]. simpl in *. subst ts.
    destruct accounts as [err|accounts].
    + apply (continue_orderly fromStart [] [] m); [exact Hc|constructor|].
      intros a' Hin. apply elem_of_nil in Hin. destruct Hin.
    + apply (continue_orderly fromStart); [apply ManagerFacts.removeStale_consistent, Hc|exact Hdistinct|].
      intros a' Hin Hnew.
      apply (ManagerFacts.removeStale_frame (List.map id accounts) (mapKeys (connections m)) m
               (consistent_wellFormed m Hc)).
      destruct (mapGet (id a') (connections m)) eqn:E'; [|reflexivity].
      exfalso. apply Hnew, ManagerFacts.mapGet_elem. congruence.
  - destruct (tasks d !! task) as [[fromStart|fromStart currentIds a token rest]|] eqn:E;
      try exact Htasks.
    destruct (only_task d task _ Hlen E) as [-> Hd].
    destruct d as [m ts]. simpl in *. subst ts.
    apply Forall_cons in Htasks as [(Hnew & Hnodup & Hfree) _].
    simpl in Hnodup. apply NoDup_cons in Hnodup as [Hfresh Hnodup].
    apply (continue_orderly fromStart); [|exact Hnodup|].
    + apply ManagerFacts.finishAddConnection_consistent; [|exact Hc].
      apply Hfree; [left|exact Hnew].
    + intros a' Hin Hnew'.
      assert (Hne : id a ≠ id a').
      { intros Heq. apply Hfresh. rewrite Heq.
        apply list_elem_of_In, in_map, list_elem_of_In. exact Hin. }
      destruct (ManagerFacts.finishAddConnection_cases a token session m)
        as [->|(managed & c & _ & -> & _)].
      * apply Hfree; [right; exact Hin|exact Hnew'].
      * rewrite ManagerFacts.mapGet_mapSet_ne by exact Hne.
        apply Hfree; [right; exact Hin|exact Hnew'].
  - destruct (EventSource.isExternalCall e) eqn:He; [exact Htasks|]. simpl.
    eapply Forall_impl; [exact Htasks|]. intros t. apply taskOk_ext. reflexivity.
Qed.

Lemma run_orderly (events : list Event) : ∀ d,
  orderly d → Forall distinctIds events → neverOverlaps events d →
  orderly (run events d).
Proof.
  induction events as [|e events IH]; intros d Hd Hdistinct Hnever; [exact Hd|].
  simpl. apply Forall_cons in Hdistinct as [He Hrest]. destruct Hnever as [Hlen Hnever].
  apply IH; [apply step_orderly; assumption|exact Hrest|exact Hnever].
Qed.

(** X26. As long as no two reconciliations are in flight at the same
    time, the daemon never holds two live connections for one account and
    every live connection is the one of an entry of the map, whatever
    the accounts do, and also when [stop()] or events of the
    connections fall in the middle of a reconciliation. *)
Theorem one_live_connection_without_overlap (events : list Event) :
  Forall distinctIds events → neverOverlaps events newDaemon →
  atMostOneLive (manager (run events newDaemon))
  ∧ noLiveOrphan (manager (run events newDaemon)).
Proof.
  intros Hdistinct Hnever. apply ManagerFacts.consistent_one_live.
  apply (run_orderly events newDaemon); [|exact Hdistinct|exact Hnever].
  split; [apply ManagerFacts.newManager_consistent|]. split; [simpl; lia|constructor].
Qed.

Lemma quietDay_orderly : Forall distinctIds quietDay ∧ neverOverlaps quietDay newDaemon.
Proof.
  split.
  - unfold quietDay.
    repeat (apply Forall_cons_2; [first [exact I | simpl]|]); try apply Forall_nil_2;
      apply (bool_decide_unpack _); vm_compute; reflexivity.
  - vm_compute. repeat split; repeat constructor.
Qed.

Lemma one_live_connection_without_overlap_witness :
  atMostOneLive (manager (run quietDay newDaemon))
  ∧ noLiveOrphan (manager (run quietDay newDaemon)).
Proof.
  apply (one_live_connection_without_overlap quietDay); apply quietDay_orderly.
Defined.





Lemma run_app (events events' : list Event) (d : Daemon) :
  run (events ++ events') d = run events' (run events d).
Proof. apply foldl_app. Qed.

(** X28. [stop()] called while [start()] still awaits its first
    reconciliation does not stop the daemon: the reconciliation goes
    on, connects the accounts it loads, and [start()] then installs the
    refresh interval, although the flag [running] is cleared; the next
    tick starts a reconciliation. *)
Theorem stop_during_start_is_undone (accounts : string + list Account)
    (sessions : string -> option JMAPSession) :
  run (stopDuringStart accounts sessions) newDaemon
  = {| manager := setRefreshInterval (refreshAccounts accounts sessions newManager);
       tasks := [] |}
  ∧ running (manager (run (stopDuringStart accounts sessions) newDaemon)) = false
  ∧ activeIntervals (manager (run (stopDuringStart accounts sessions) newDaemon)) = 1%nat
  ∧ tasks (step (run (stopDuringStart accounts sessions) newDaemon) Tick)
    = [AwaitAccounts false].
Proof.
  assert (H : run (stopDuringStart accounts sessions) newDaemon
              = {| manager := setRefreshInterval
                                (refreshAccounts accounts sessions newManager);
                   tasks := [] |}).
  { unfold stopDuringStart. rewrite run_app.
    destruct accounts as [err|accounts]; [reflexivity|].
    change (run [CallStart; CallStop; AccountsLoaded 0 (inr accounts)] newDaemon)
      with (continue 0 true [] accounts
              {| manager := newManager; tasks := [AwaitAccounts true] |}).
    apply (ManagerFacts.continue_alone sessions [] accounts true). }
  rewrite H. split; [reflexivity|].
  assert (Hkeep : ∀ l m, running m = false → activeIntervals m = 0%nat →
            running (foldl (addIfNew sessions []) m l) = false
            ∧ activeIntervals (foldl (addIfNew sessions []) m l) = 0%nat).
  { induction l as [|a l IH]; intros m Hr Hi; [split; assumption|].
    simpl. apply IH; rewrite ManagerFacts.addIfNew_unfold;
      destruct (bool_decide (id a ∈ [])); try assumption;
      destruct (tokenOf a) as [token|]; try assumption;
      unfold finishAddConnection; destruct (sessions (id a)) as [session|];
      try assumption;
      destruct (Js.truthy_opt (primaryMailAccount session)); assumption. }
  destruct accounts as [err|accounts].
  - repeat split.
  - destruct (Hkeep accounts newManager eq_refl eq_refl) as [Hr Hi].
    cbn [manager step setRefreshInterval running activeIntervals tasks refreshAccounts
         mapKeys connections newManager List.map removeStale foldl].
    cbn [refreshAccounts mapKeys connections newManager List.map removeStale foldl] in Hr, Hi.
    rewrite Hi. repeat split. exact Hr.
Qed.

(** Without overlap every resumption of a reconciliation leaves the
    entries of the managed accounts as they are. *)
Lemma resumption_keeps_entries_without_overlap (events : list Event) :
  Forall distinctIds events → neverOverlaps events newDaemon →
  resumptionKeepsEntries (run events newDaemon).
Proof.
  intros Hdistinct Hnever.
  assert (Hd : orderly (run events newDaemon)).
  { apply run_orderly; [|exact Hdistinct|exact Hnever].
    split; [apply ManagerFacts.newManager_consistent|]. split; [simpl; lia|constructor]. }
  destruct Hd as (Hc & Hlen & Htasks).
  intros task session fromStart currentIds a token rest id0 managed Htask Hget Hin.
  destruct (only_task _ task _ Hlen Htask) as [-> Hts].
  rewrite Hts in Htasks. apply Forall_cons in Htasks as [(Hnew & _ & Hfree) _].
  assert (Hne : id a ≠ id0).
  { intros Heq. rewrite <- Heq, (Hfree a) in Hget; [discriminate Hget|left|exact Hnew]. }
  cbn [step]. rewrite Htask. unfold continue.
  assert (Hkept : mapGet id0 (connections (finishAddConnection a token session
                                             (manager (run events newDaemon))))
                  = Some managed).
  { destruct (ManagerFacts.finishAddConnection_cases a token session
                (manager (run events newDaemon))) as [->|(m' & c & _ & -> & _)].
    - exact Hget.
    - rewrite ManagerFacts.mapGet_mapSet_ne by exact Hne. exact Hget. }
  cbn [manager tasks].
  destruct (nextAwait currentIds rest) as [[[a' token'] rest']|]; cbn [manager].
  - exact Hkept.
  - destruct fromStart; exact Hkept.
Qed.

(** C5. The claim asks that every reconciliation leaves the entry of
    an account alone when the account is managed and is among the
    accounts fetched. A reconciliation takes its snapshot of the
    managed ids when the account list arrives and adds the accounts
    that are not in the snapshot after it has awaited their session;
    the test on the snapshot is there to leave the managed accounts
    alone. When two reconciliations overlap, the second one resumes
    with a stale snapshot: the account has its entry, with client 0,
    and is in the list the reconciliation fetched, and the entry is
    replaced by one with a new client 1, client 0 being left as it was,
    not closed. *)
Theorem overlapping_refresh_replaces_managed_entry :
  mapGet "acc-x" (connections (manager (run staleSnapshot newDaemon))) = Some managedX
  ∧ tasks (run staleSnapshot newDaemon) = [AwaitSession false [] accountX "token-x" []]
  ∧ List.map (fun kv => (kv.1, client kv.2))
             (connections
                (manager (step (run staleSnapshot newDaemon)
                               (SessionLoaded 0 (Some sessionX)))))
    = [("acc-x", 1%nat)]
  ∧ List.map EventSource.closed
             (clients
                (manager (step (run staleSnapshot newDaemon)
                               (SessionLoaded 0 (Some sessionX)))))
    = [false; false]
  ∧ ¬ cyclesLeaveManagedAccounts.
Proof.
  split; [vm_compute; reflexivity|]. split; [vm_compute; reflexivity|].
  split; [vm_compute; reflexivity|]. split; [vm_compute; reflexivity|].
  intros Hclaim.
  assert (Hdistinct : Forall distinctIds staleSnapshot).
  { unfold staleSnapshot.
    repeat (apply Forall_cons_2; [first [exact I | simpl]|]); try apply Forall_nil_2;
      apply (bool_decide_unpack _); vm_compute; reflexivity. }
  specialize (Hclaim staleSnapshot Hdistinct 0%nat (Some sessionX) false []
                accountX "token-x" [] "acc-x" managedX).
  assert (H : mapGet "acc-x"
                (connections (manager (step (run staleSnapshot newDaemon)
                                            (SessionLoaded 0 (Some sessionX)))))
              = Some managedX).
  { apply Hclaim.
    - vm_compute. reflexivity.
    - vm_compute. reflexivity.
    - left. }
  vm_compute in H. discriminate H.
Qed.

End ManagerRunsFacts.

(** ** account-manager.ts: what a token refresh changes *)

Module TokenRefreshFacts.

Import Manager TokenRefresh.

Lemma handleTokenRefresh_cases (env : Env) (now : Z) (fetch : TokenFetch)
    (emailAccountId : string) (m : AccountManager) :
  handleTokenRefresh env now fetch emailAccountId m = m
  ∨ ∃ managed managed' tokens,
      fetch = Tokens tokens
      ∧ mapGet emailAccountId (connections m) = Some managed
      ∧ client managed' = client managed
      ∧ accessToken managed' = access_token tokens
      ∧ connections (handleTokenRefresh env now fetch emailAccountId m)
        = mapSet emailAccountId managed' (connections m)
      ∧ clients (handleTokenRefresh env now fetch emailAccountId m)
        = alter (EventSource.updateAccessToken (access_token tokens)) (client managed)
                (clients m).
Proof.
  unfold handleTokenRefresh.
  destruct (mapGet emailAccountId (connections m)) as [managed|] eqn:E; [|left; reflexivity].
  destruct (negb (Js.truthy_opt (refreshToken managed))); [left; reflexivity|].
  destruct (negb (Js.truthy_opt (FASTMAIL_CLIENT_ID env))
            || negb (Js.truthy_opt (FASTMAIL_CLIENT_SECRET env))); [left; reflexivity|].
  destruct fetch as [| | |tokens]; try (left; reflexivity).
  right. do 3 eexists. split; [reflexivity|]. split; [reflexivity|].
  split; [|split; [|split; [reflexivity|reflexivity]]]; reflexivity.
Qed.

(** X29. Whatever the token endpoint answers, a token refresh adds no entry
    and no client and removes none, leaves the entries of the other
    accounts as they are, and keeps every live connection under the
    entry of its account. *)
Theorem handleTokenRefresh_keeps_the_map (env : Env) (now : Z) (fetch : TokenFetch)
    (emailAccountId : string) (m : AccountManager) :
  consistent m →
  consistent (handleTokenRefresh env now fetch emailAccountId m)
  ∧ length (clients (handleTokenRefresh env now fetch emailAccountId m))
    = length (clients m)
  ∧ (∀ id', mapGet id' (connections (handleTokenRefresh env now fetch emailAccountId m))
            = None ↔ mapGet id' (connections m) = None)
  ∧ (∀ id', id' ≠ emailAccountId →
            mapGet id' (connections (handleTokenRefresh env now fetch emailAccountId m))
            = mapGet id' (connections m)).
Proof.
  intros Hc.
  destruct (handleTokenRefresh_cases env now fetch emailAccountId m)
    as [->|(managed & managed' & tokens & _ & Hget & Hclient & _ & Hconns & Hcl)].
  { split; [exact Hc|]. split; [reflexivity|]. split; [tauto|]. reflexivity. }
  assert (Hne : ∀ id', id' ≠ emailAccountId →
            mapGet id' (mapSet emailAccountId managed' (connections m))
            = mapGet id' (connections m)).
  { intros id' Hid. apply ManagerFacts.mapGet_mapSet_ne. congruence. }
  split; [|split; [|split]].
  - destruct Hc as [Hwf Howner Horphan Htimers]. unfold noLiveOrphan in *.
    split; unfold wellFormed, noLiveOrphan; rewrite ?Hconns, ?Hcl.
    + intros id0 managed0 Hget0. rewrite length_alter.
      assert (Hold : ∀ id1 managed1,
                mapGet id1 (mapSet emailAccountId managed' (connections m)) = Some managed1 →
                ∃ managed2, mapGet id1 (connections m) = Some managed2
                            ∧ client managed2 = client managed1).
      { intros id1 managed1 H1.
        destruct (decide (id1 = emailAccountId)) as [->|Hid].
        - rewrite ManagerFacts.mapGet_mapSet_eq in H1. injection H1 as <-.
          exists managed. split; [exact Hget|congruence].
        - rewrite Hne in H1 by exact Hid. exists managed1. split; [exact H1|reflexivity]. }
      destruct (Hold id0 managed0 Hget0) as (managed2 & Hget2 & Hcl2).
      destruct (Hwf id0 managed2 Hget2) as [Hlt Huniq].
      split; [lia|].
      intros id1 managed1 Hget1 Heq.
      destruct (Hold id1 managed1 Hget1) as (managed3 & Hget3 & Hcl3).
      apply (Huniq id1 managed3 Hget3). congruence.
    + intros id0 managed0 c Hget0 Hc0.
      apply ManagerFacts.lookup_alter_Some in Hc0 as (x & Hx & [[_ ->]|[_ ->]]).
      * destruct (decide (id0 = emailAccountId)) as [->|Hid].
        -- rewrite ManagerFacts.mapGet_mapSet_eq in Hget0. injection Hget0 as <-.
           rewrite Hclient in Hx. eauto.
        -- rewrite Hne in Hget0 by exact Hid. eauto.
      * change (EventSource.updateAccessToken (access_token tokens) x)
          with (EventSource.step x (EventSource.CallUpdateAccessToken (access_token tokens))).
        rewrite ManagerRunsFacts.clientStep_emailAccountId.
        destruct (decide (id0 = emailAccountId)) as [->|Hid].
        -- rewrite ManagerFacts.mapGet_mapSet_eq in Hget0. injection Hget0 as <-.
           rewrite Hclient in Hx. eauto.
        -- rewrite Hne in Hget0 by exact Hid. eauto.
    + intros i c Hi Hlive.
      destruct (decide (i = client managed)) as [->|Hi'].
      * exists emailAccountId, managed'.
        split; [apply ManagerFacts.mapGet_mapSet_eq|exact Hclient].
      * rewrite list_lookup_alter_ne in Hi by congruence.
        destruct (Horphan i c Hi Hlive) as (id1 & managed1 & Hget1 & Hcl1).
        exists id1, managed1. split; [|exact Hcl1].
        rewrite Hne; [exact Hget1|]. intros ->. congruence.
    + intros i c Hi.
      apply ManagerFacts.lookup_alter_Some in Hi as (x & Hx & [[_ ->]|[_ ->]]); [eauto|].
      apply (EventSourceFacts.step_timers x
               (EventSource.CallUpdateAccessToken (access_token tokens))). eauto.
  - rewrite Hcl. apply length_alter.
  - intros id'. rewrite Hconns.
    destruct (decide (id' = emailAccountId)) as [->|Hid].
    + rewrite ManagerFacts.mapGet_mapSet_eq, Hget. split; discriminate.
    + rewrite Hne by exact Hid. reflexivity.
  - intros id' Hid. rewrite Hconns. apply Hne, Hid.
Qed.

Lemma handleTokenRefresh_keeps_the_map_witness :
  length (clients (handleTokenRefresh oauthEnv 1700000000000 (Tokens freshTokens)
                     "acc-x" managingXY)) = 2%nat.
Proof.
  destruct (handleTokenRefresh_keeps_the_map oauthEnv 1700000000000 (Tokens freshTokens)
              "acc-x" managingXY) as (_ & Hlen & _).
  - apply (ManagerFacts.refreshAccounts_consistent (inr [accountX; accountY])).
    + apply (bool_decide_unpack _). vm_compute. reflexivity.
    + apply ManagerFacts.newManager_consistent.
  - exact Hlen.
Defined.

(** X30. A token refresh that succeeds stores the new token in the entry and
    in the client, but it does not connect a client that is not
    connected: a pending retry is cancelled, and the account is left
    in the map without a live connection. *)
Theorem handleTokenRefresh_does_not_reconnect (env : Env) (now : Z)
    (tokens : TokenResponse) (emailAccountId : string) (m : AccountManager)
    (managed : ManagedAccount) (c : EventSource.Client) :
  consistent m →
  mapGet emailAccountId (connections m) = Some managed →
  Js.truthy_opt (refreshToken managed) = true →
  Js.truthy_opt (FASTMAIL_CLIENT_ID env) = true →
  Js.truthy_opt (FASTMAIL_CLIENT_SECRET env) = true →
  clients m !! client managed = Some c →
  EventSource.isConnected c = false →
  ∃ managed' c',
    mapGet emailAccountId
      (connections (handleTokenRefresh env now (Tokens tokens) emailAccountId m))
    = Some managed'
    ∧ client managed' = client managed
    ∧ accessToken managed' = access_token tokens
    ∧ clients (handleTokenRefresh env now (Tokens tokens) emailAccountId m)
        !! client managed = Some c'
    ∧ EventSource.accessToken c' = access_token tokens
    ∧ EventSource.live c' = false.
Proof.
  intros Hc Hget Hrt Hid Hsecret Hcl Hconn.
  unfold handleTokenRefresh. rewrite Hget, Hrt, Hid, Hsecret. simpl.
  eexists. exists (EventSource.updateAccessToken (access_token tokens) c).
  split; [apply ManagerFacts.mapGet_mapSet_eq|]. cbn [client accessToken].
  split; [reflexivity|]. split; [reflexivity|].
  split; [rewrite list_lookup_alter_eq, Hcl; reflexivity|].
  unfold EventSource.updateAccessToken. rewrite Hconn.
  pose proof (consistent_timers m Hc _ _ Hcl) as Hown.
  destruct (EventSourceFacts.disconnect_fields c Hown) as (Ht & _ & Hes & _).
  unfold EventSource.live, EventSource.setAccessToken.
  cbn [EventSource.accessToken EventSource.eventSource EventSource.timers].
  rewrite Ht, Hes. split; reflexivity.
Qed.

Lemma handleTokenRefresh_does_not_reconnect_witness :
  (∃ c, clients retryingX !! 0%nat = Some c ∧ EventSource.live c = true)
  ∧ ∃ managed' c',
      mapGet "acc-x"
        (connections (handleTokenRefresh oauthEnv 1700000000000 (Tokens freshTokens)
                        "acc-x" retryingX)) = Some managed'
      ∧ client managed' = 0%nat
      ∧ accessToken managed' = "token-x2"
      ∧ clients (handleTokenRefresh oauthEnv 1700000000000 (Tokens freshTokens)
                   "acc-x" retryingX) !! 0%nat = Some c'
      ∧ EventSource.accessToken c' = "token-x2"
      ∧ EventSource.live c' = false.
Proof.
  assert (Hc : consistent retryingX).
  { apply (ManagerRunsFacts.run_orderly
             [ClientEvent 0 EventSource.SourceOpen;
              ClientEvent 0 (EventSource.SourceError true)]
             {| manager := managingXY; tasks := [] |}).
    - split; [|split; [simpl; lia|constructor]].
      apply (ManagerFacts.refreshAccounts_consistent (inr [accountX; accountY])).
      + apply (bool_decide_unpack _). vm_compute. reflexivity.
      + apply ManagerFacts.newManager_consistent.
    - repeat constructor.
    - vm_compute. repeat split; repeat constructor. }
  split.
  - eexists. split; [vm_compute; reflexivity|vm_compute; reflexivity].
  - destruct (mapGet "acc-x" (connections retryingX)) as [managed|] eqn:Hget;
      [|vm_compute in Hget; discriminate Hget].
    assert (Hclient : client managed = 0%nat).
    { vm_compute in Hget. injection Hget as <-. reflexivity. }
    destruct (clients retryingX !! 0%nat) as [c|] eqn:Hcl;
      [|vm_compute in Hcl; discriminate Hcl].
    rewrite <- Hclient.
    apply (handleTokenRefresh_does_not_reconnect oauthEnv 1700000000000 freshTokens
             "acc-x" retryingX managed c Hc Hget).
    + vm_compute in Hget. injection Hget as <-. reflexivity.
    + reflexivity.
    + reflexivity.
    + rewrite Hclient. exact Hcl.
    + vm_compute in Hcl. injection Hcl as <-. vm_compute. reflexivity.
Defined.

End TokenRefreshFacts.

(** ** thread.ts: [findThreadMessages] finds what is connected *)

Module ThreadSearchFacts.

Import Thread ThreadSearch.

Lemma filter_length_le {A} (f g : A -> bool) (l : list A) :
  (∀ x, g x = true → f x = true) →
  (length (List.filter g l) <= length (List.filter f l))%nat.
Proof.
  intros Himp. induction l as [|x l IH]; simpl; [lia|].
  destruct (g x) eqn:Hg.
  - rewrite (Himp x Hg). simpl. lia.
  - destruct (f x); simpl; lia.
Qed.

Lemma filter_length_lt {A} (f g : A -> bool) (l : list A) (x0 : A) :
  (∀ x, g x = true → f x = true) →
  x0 ∈ l → f x0 = true → g x0 = false →
  (length (List.filter g l) < length (List.filter f l))%nat.
Proof.
  intros Himp Hin Hf Hg. induction l as [|x l IH]; simpl.
  - apply elem_of_nil in Hin. destruct Hin.
  - apply elem_of_cons in Hin as [<-|Hin].
    + rewrite Hf, Hg. simpl. pose proof (filter_length_le f g l Himp). lia.
    + specialize (IH Hin). destruct (g x) eqn:Hgx.
      * rewrite (Himp x Hgx). simpl. lia.
      * destruct (f x); simpl; lia.
Qed.

Lemma unprocessed_decreases (universe processed : list string) (i : string) :
  i ∈ universe → i ∉ processed →
  (unprocessed universe (processed ++ [i]) < unprocessed universe processed)%nat.
Proof.
  intros Hin Hnew. unfold unprocessed.
  apply (filter_length_lt _ _ universe i).
  - intros x Hx. apply negb_true_iff, bool_decide_eq_false_1 in Hx.
    apply negb_true_iff, bool_decide_eq_false_2.
    intros Hx'. apply Hx, elem_of_app. left. exact Hx'.
  - exact Hin.
  - apply negb_true_iff, bool_decide_eq_false_2, Hnew.
  - apply negb_false_iff, bool_decide_eq_true_2, elem_of_app. right. left.
Qed.

Lemma filter_length_all {A} (f : A -> bool) (l : list A) :
  (length (List.filter f l) <= length l)%nat.
Proof. induction l as [|x l IH]; simpl; [lia|]. destruct (f x); simpl; lia. Qed.

(** One iteration keeps the invariant and makes the measure decrease. *)
Lemma visit_searching (message : ImapMessage) (allMessages : list ImapMessage)
    (st st' : Bfs) :
  searching message allMessages st → visit allMessages st = Some st' →
  searching message allMessages st'
  ∧ (remaining message allMessages st' < remaining message allMessages st)%nat.
Proof.
  intros [Hq Hf Hids Hnd Hstart Hclosed]. unfold visit, remaining.
  destruct (queue st) as [|current rest] eqn:Eq; [discriminate|].
  assert (Hcur : current ∈ message :: allMessages) by (apply Hq; left).
  destruct (bool_decide (messageId current ∈ processedIds st)) eqn:Eproc;
    intros [= <-]; simpl.
  - apply bool_decide_eq_true_1 in Eproc.
    split; [|lia]. split; simpl.
    + intros x Hx. apply Hq. right. exact Hx.
    + exact Hf.
    + exact Hids.
    + exact Hnd.
    + destruct Hstart as [[Hqueue Hnone]|Hin]; [|right; exact Hin].
      exfalso. rewrite Hids, Hnone in Eproc. apply elem_of_nil in Eproc. exact Eproc.
    + intros t o Ht Ho Hrel.
      destruct (Hclosed t o Ht Ho Hrel) as [Hdone|Hin]; [left; exact Hdone|].
      apply elem_of_cons in Hin as [->|Hin]; [left; exact Eproc|right; exact Hin].
  - apply bool_decide_eq_false_1 in Eproc.
    split.
    + split; simpl.
      * intros x Hx. apply elem_of_app in Hx as [Hx|Hx]; [apply Hq; right; exact Hx|].
        apply list_elem_of_In, List.filter_In in Hx as [Hx _].
        right. apply list_elem_of_In, Hx.
      * intros x Hx. apply elem_of_app in Hx as [Hx|Hx]; [apply Hf, Hx|].
        apply list_elem_of_singleton in Hx. subst x. exact Hcur.
      * rewrite List.map_app, Hids. reflexivity.
      * apply NoDup_app. split; [exact Hnd|]. split; [|apply NoDup_singleton].
        intros x Hx Hx'. apply list_elem_of_singleton in Hx'. subst x. tauto.
      * right. destruct Hstart as [[Hqueue Hnone]|Hin].
        -- injection Hqueue as -> _. apply elem_of_app. right. left.
        -- apply elem_of_app. left. exact Hin.
      * intros t o Ht Ho Hrel.
        destruct (decide (messageId o ∈ (processedIds st ++ [messageId current])%list))
          as [Hdone|Hnot]; [left; exact Hdone|].
        right. apply elem_of_app in Ht as [Ht|Ht].
        -- destruct (Hclosed t o Ht Ho Hrel) as [Hdone|Hin].
           ++ exfalso. apply Hnot, elem_of_app. left. exact Hdone.
           ++ apply elem_of_cons in Hin as [->|Hin].
              ** exfalso. apply Hnot, elem_of_app. right. left.
              ** apply elem_of_app. left. exact Hin.
        -- apply list_elem_of_singleton in Ht. subst t.
           apply elem_of_app. right.
           apply list_elem_of_In, List.filter_In. split; [apply list_elem_of_In, Ho|].
           apply andb_true_iff. split; [|exact Hrel].
           apply negb_true_iff, bool_decide_eq_false_2, Hnot.
    + rewrite List.length_app.
      pose proof (filter_length_all
                    (fun other =>
                       negb (bool_decide
                               (messageId other ∈ (processedIds st ++ [messageId current])%list))
                       && related current other) allMessages) as Hpushed.
      assert (Hdec : (unprocessed (List.map messageId (message :: allMessages))
                        (processedIds st ++ [messageId current])
                      < unprocessed (List.map messageId (message :: allMessages))
                          (processedIds st))%nat).
      { apply unprocessed_decreases; [|exact Eproc].
        apply list_elem_of_In, in_map, list_elem_of_In, Hcur. }
      cbn [List.map] in Hdec.
      set (u' := unprocessed _ (processedIds st ++ [messageId current])) in *.
      set (u := unprocessed _ (processedIds st)) in *.
      nia.
Qed.

Lemma visit_done (allMessages : list ImapMessage) (st : Bfs) :
  visit allMessages st = None → queue st = [].
Proof.
  unfold visit. destruct (queue st) as [|current rest]; [reflexivity|].
  destruct (bool_decide (messageId current ∈ processedIds st)); discriminate.
Qed.

(** With more fuel than the measure, the loop ends; it ends with an
    empty queue in a state that satisfies the invariant. *)
Lemma bfs_ends (message : ImapMessage) (allMessages : list ImapMessage) (fuel : nat) :
  ∀ st, searching message allMessages st →
        (remaining message allMessages st < fuel)%nat →
        ∃ final, bfs fuel allMessages st = Some (threadMessages final)
                 ∧ searching message allMessages final ∧ queue final = [].
Proof.
  induction fuel as [|fuel IH]; intros st Hinv Hfuel; [lia|].
  simpl. destruct (visit allMessages st) as [st'|] eqn:E.
  - destruct (visit_searching message allMessages st st' Hinv E) as [Hinv' Hlt].
    apply IH; [exact Hinv'|lia].
  - exists st. split; [reflexivity|]. split; [exact Hinv|].
    apply (visit_done allMessages), E.
Qed.

Lemma start_searching (message : ImapMessage) (allMessages : list ImapMessage) :
  searching message allMessages (start message)
  ∧ (remaining message allMessages (start message) < iterations allMessages)%nat.
Proof.
  split.
  - split; simpl.
    + intros x Hx. apply list_elem_of_singleton in Hx. subst x. left.
    + intros x Hx. apply elem_of_nil in Hx. destruct Hx.
    + reflexivity.
    + apply NoDup_nil_2.
    + left. split; reflexivity.
    + intros t o Ht. apply elem_of_nil in Ht. destruct Ht.
  - unfold remaining, iterations, unprocessed, start. cbn [queue processedIds length].
    pose proof (filter_length_all
                  (fun i => negb (bool_decide (i ∈ @nil string)))
                  (List.map messageId (message :: allMessages))) as H.
    set (n := length (List.filter _ _)) in *.
    rewrite List.length_map in H. cbn [length] in H. nia.
Qed.

Lemma findThreadMessages_final (message : ImapMessage) (allMessages : list ImapMessage) :
  ∃ final, findThreadMessages message allMessages = sortByDate (threadMessages final)
           ∧ searching message allMessages final ∧ queue final = [].
Proof.
  destruct (start_searching message allMessages) as [Hinv Hfuel].
  destruct (bfs_ends message allMessages (iterations allMessages) (start message)
              Hinv Hfuel) as (final & Hbfs & Hfinal & Hempty).
  exists final. unfold findThreadMessages. rewrite Hbfs.
  split; [reflexivity|]. split; assumption.
Qed.

(** X8. The loop of [findThreadMessages] ends within [iterations]
    rounds, and the function answers a list in ascending order of date
    that holds the message it starts from, names no message id twice,
    and is made of that message and of messages of the list it
    searches. *)
Theorem findThreadMessages_result (message : ImapMessage)
    (allMessages : list ImapMessage) :
  bfs (iterations allMessages) allMessages (start message) ≠ None
  ∧ message ∈ findThreadMessages message allMessages
  ∧ ThreadQueries.sortedByDate (findThreadMessages message allMessages)
  ∧ NoDup (List.map messageId (findThreadMessages message allMessages))
  ∧ ∀ x, x ∈ findThreadMessages message allMessages → x = message ∨ x ∈ allMessages.
Proof.
  split.
  { destruct (start_searching message allMessages) as [Hinv Hfuel].
    destruct (bfs_ends message allMessages (iterations allMessages) (start message)
                Hinv Hfuel) as (final & -> & _).
    discriminate. }
  destruct (findThreadMessages_final message allMessages)
    as (final & -> & [Hq Hf Hids Hnd Hstart Hclosed] & Hempty).
  split; [|split; [|split]].
  - rewrite GroupingFacts.sortByDate_perm.
    destruct Hstart as [[Hqueue _]|Hin]; [congruence|exact Hin].
  - apply GroupingFacts.sortByDate_sorted.
  - rewrite GroupingFacts.sortByDate_perm, <- Hids. exact Hnd.
  - intros x Hx. rewrite GroupingFacts.sortByDate_perm in Hx.
    apply Hf, elem_of_cons in Hx. exact Hx.
Qed.

(** X9. The result is closed under the relation the search follows:
    when a message of the list names a message of the result in its headers,
    or is named by it, its message id is in the result too. *)
Theorem findThreadMessages_closed (message : ImapMessage)
    (allMessages : list ImapMessage) (found other : ImapMessage) :
  found ∈ findThreadMessages message allMessages → other ∈ allMessages →
  related found other = true →
  messageId other ∈ List.map messageId (findThreadMessages message allMessages).
Proof.
  destruct (findThreadMessages_final message allMessages)
    as (final & -> & [Hq Hf Hids Hnd Hstart Hclosed] & Hempty).
  intros Hfound Hother Hrel. rewrite GroupingFacts.sortByDate_perm in Hfound.
  rewrite GroupingFacts.sortByDate_perm, <- Hids.
  destruct (Hclosed found other Hfound Hother Hrel) as [Hdone|Hin]; [exact Hdone|].
  rewrite Hempty in Hin. apply elem_of_nil in Hin. destruct Hin.
Qed.

Lemma findThreadMessages_closed_witness :
  messageId msgD ∈ List.map messageId (findThreadMessages msgC newestFirst).
Proof.
  apply (findThreadMessages_closed msgC newestFirst msgC msgD).
  - apply (bool_decide_unpack _). vm_compute. reflexivity.
  - apply (bool_decide_unpack _). vm_compute. reflexivity.
  - vm_compute. reflexivity.
Defined.

End ThreadSearchFacts.
